(** * Isocontour extraction and cycle stitching: a shallow embedding

    The development follows the Taichi kernels of [cglib]:
    - [index.py]  : flat addressing of the grid edges;
    - [graph.py]  : binarisation, crossing points, marching-squares adjacency,
                    cycle discovery;
    - [calc.py]   : interpolation, norms and patching energies;
    - [fields.py] : scans over one-dimensional fields;
    - [stitch.py] : the stitching engine.

    Integers are modelled by [Z].  Taichi's default integer type is a signed
    32-bit word; every integer the kernels compute is an edge index, a sample
    index or a cycle length, all bounded by the number of edges, which has to
    fit a 32-bit word for the fields to be allocated at all.  Floating point
    numbers are IEEE 754 values ([spec_float]) in Taichi's default single
    precision.  Fields are finite arrays with checked accesses: an access
    outside the allocated range yields [None]. *)

From Stdlib Require Import ZArith Lia List Bool Permutation.
From Stdlib Require Import Floats.SpecFloat.
Import ListNotations.

Local Open Scope Z_scope.

(** ** Option monad for checked field accesses *)

Definition bind {A B : Type} (m : option A) (k : A -> option B) : option B :=
  match m with
  | Some a => k a
  | None => None
  end.

Notation "x <- m ;; k" := (bind m (fun x => k))
  (at level 61, m at next level, right associativity).

(** ** Vectors of integers ([ti.math.ivec2], [ivec3], [ivec4]) *)

Record ivec2 : Set := Ivec2 { x2 : Z; y2 : Z }.
Record ivec3 : Set := Ivec3 { x3 : Z; y3 : Z; z3 : Z }.
Record ivec4 : Set := Ivec4 { c0 : Z; c1 : Z; c2 : Z; c3 : Z }.

(** [vec[i]] for a four-component vector; the kernels only use [i] in
    [0..3]. *)
Definition ivec4_get (v : ivec4) (i : Z) : Z :=
  if i =? 0 then c0 v
  else if i =? 1 then c1 v
  else if i =? 2 then c2 v
  else c3 v.

(** ** One-dimensional fields *)

Definition field (A : Type) : Type := list A.

Definition size {A} (f : field A) : Z := Z.of_nat (length f).

Definition in_range (i n : Z) : bool := (0 <=? i) && (i <? n).

Definition get {A} (f : field A) (i : Z) : option A :=
  if in_range i (size f) then nth_error f (Z.to_nat i) else None.

Fixpoint replace_nth {A} (n : nat) (l : list A) (v : A) : list A :=
  match l, n with
  | [], _ => []
  | _ :: t, O => v :: t
  | h :: t, S m => h :: replace_nth m t v
  end.

Definition set {A} (f : field A) (i : Z) (v : A) : option (field A) :=
  if in_range i (size f) then Some (replace_nth (Z.to_nat i) f v) else None.

(** [ti.field(shape = n)] followed by [fill(v)]. *)
Definition fill {A} (n : Z) (v : A) : field A := repeat v (Z.to_nat n).

(** [range(n)] *)
Definition range (n : Z) : list Z := map Z.of_nat (seq 0 (Z.to_nat n)).

(** ** Two-dimensional fields (the scalar grid and its binary image) *)

Record field2 (A : Type) : Type := Field2 { shape : ivec2; at2 : Z -> Z -> A }.
Arguments Field2 {A} _ _.
Arguments shape {A} _.
Arguments at2 {A} _ _ _.

Definition get2 {A} (f : field2 A) (x y : Z) : option A :=
  if in_range x (x2 (shape f)) && in_range y (y2 (shape f))
  then Some (at2 f x y) else None.

(** ** index.py *)

Definition index2d_to_edge_index (cell grid_shape : ivec2) : ivec4 :=
  let shape_x := x2 grid_shape in
  let shape_y := y2 grid_shape in
  let hoizontal_top_edge_index := x2 cell * shape_y + y2 cell in
  let horizontal_bottom_edge_index := (x2 cell + 1) * shape_y + y2 cell in
  let first_vertical_edge_index := shape_y * (shape_x + 1) in
  let vertical_left_edge_index :=
    first_vertical_edge_index + x2 cell * (shape_y + 1) + y2 cell in
  let vertical_right_edge_index :=
    first_vertical_edge_index + x2 cell * (shape_y + 1) + y2 cell + 1 in
  Ivec4 hoizontal_top_edge_index
        vertical_right_edge_index
        horizontal_bottom_edge_index
        vertical_left_edge_index.

Definition edge_1d_to_3d_index (shape : ivec2) (edge : Z) : ivec3 :=
  let maximal_horizontal_index := y2 shape * (x2 shape + 1) in
  if edge <? maximal_horizontal_index then
    Ivec3 (edge / y2 shape) (edge mod y2 shape) 0
  else
    Ivec3 ((edge - maximal_horizontal_index) / (y2 shape + 1))
          ((edge - maximal_horizontal_index) mod (y2 shape + 1))
          1.

Definition edge_3d_to_1d_index (shape : ivec2) (x y z : Z) : Z :=
  let result := 0 in
  let result :=
    if z =? 0 then
      if (x <? 0) || (x >? x2 shape) || (y <? 0) || (y >=? y2 shape)
      then -1
      else x * y2 shape + y
    else result in
  let result :=
    if z =? 1 then
      if (x <? 0) || (x >=? x2 shape) || (y <? 0) || (y >? y2 shape)
      then -1
      else
        let maximal_horizontal_index := y2 shape * (x2 shape + 1) in
        maximal_horizontal_index + x * (y2 shape + 1) + y
    else result in
  result.

(** The triples that denote an edge of the grid: horizontal edges have
    [0 <= x <= W] and [0 <= y < H], vertical ones [0 <= x < W] and
    [0 <= y <= H]. *)
Definition valid_edge_3d (shape : ivec2) (x y z : Z) : Prop :=
  (z = 0 /\ 0 <= x <= x2 shape /\ 0 <= y < y2 shape) \/
  (z = 1 /\ 0 <= x < x2 shape /\ 0 <= y <= y2 shape).

(** Number of slots of the per-edge fields, as [to_graph] allocates them. *)
Definition edge_fields_shape (shape : ivec2) : Z :=
  x2 shape * (y2 shape + 1) + y2 shape * (x2 shape + 1) - 1.


(** ** Floating point numbers

    [ti.init(arch = ti.cpu)] leaves Taichi's default floating point type at
    single precision.  No proof below depends on the two constants. *)

Definition prec : Z := 24.
Definition emax : Z := 128.

Definition float : Set := spec_float.

Definition fadd : float -> float -> float := SFadd prec emax.
Definition fsub : float -> float -> float := SFsub prec emax.
Definition fmul : float -> float -> float := SFmul prec emax.
Definition fdiv : float -> float -> float := SFdiv prec emax.
Definition fsqrt : float -> float := SFsqrt prec emax.

(** [a < b], [a <= b], [a == b] and [a != b] on floats; every comparison with
    a NaN is false except [!=]. *)
Definition flt : float -> float -> bool := SFltb.
Definition fle : float -> float -> bool := SFleb.
Definition feq : float -> float -> bool := SFeqb.
Definition fne (a b : float) : bool := negb (SFeqb a b).

Definition zero : float := S754_zero false.
Definition inf : float := S754_infinity false.   (* ti.math.inf *)
Definition nan : float := S754_nan.              (* ti.math.nan *)

(** Conversion of an integer to a float (round to nearest, ties to even) and
    of a float to an integer (truncation; the conversion of a NaN or of an
    infinity is left at 0). *)
Definition itof (z : Z) : float := binary_normalize prec emax z 0 false.

Definition ftoi (f : float) : Z :=
  match f with
  | S754_finite s m e =>
      let a := Z.shiftl (Zpos m) e in
      if s then - a else a
  | _ => 0
  end.

Definition b2z (b : bool) : Z := if b then 1 else 0.

(** [ti.math.sign], from Taichi's math library: the difference of the two
    comparisons [x >= 0.0] and [x <= 0.0], cast to a float. *)
Definition sign (x : float) : float :=
  itof (b2z (fle zero x) - b2z (fle x zero)).

Record vec2 : Set := Vec2 { fx : float; fy : float }.

Definition vsub (a b : vec2) : vec2 :=
  Vec2 (fsub (fx a) (fx b)) (fsub (fy a) (fy b)).

(** ** index.py, continued *)

Definition index2d_to_cartesians_coo (grid_shape cell : ivec2) : vec2 :=
  let cell_count_x := Z.max (x2 grid_shape) (y2 grid_shape) in
  let x := fdiv (itof (x2 cell)) (itof cell_count_x) in
  let y := fdiv (itof (y2 cell)) (itof cell_count_x) in
  Vec2 x y.

(** ** calc.py *)

Definition linear_interpolation (grid : field2 float)
    (point_0_index point_1_index : ivec2) (value : float) : option vec2 :=
  let point_0 := index2d_to_cartesians_coo (shape grid) point_0_index in
  let point_1 := index2d_to_cartesians_coo (shape grid) point_1_index in
  g0 <- get2 grid (x2 point_0_index) (y2 point_0_index) ;;
  g1 <- get2 grid (x2 point_1_index) (y2 point_1_index) ;;
  if y2 point_0_index =? y2 point_1_index then
    let res_x :=
      fadd (fx point_0)
           (fdiv (fmul (fsub value g0) (fsub (fx point_1) (fx point_0)))
                 (fsub g1 g0)) in
    let res_y := fy point_1 in
    Some (Vec2 res_x res_y)
  else
    let res_y :=
      fadd (fy point_0)
           (fdiv (fmul (fsub value g0) (fsub (fy point_1) (fy point_0)))
                 (fsub g1 g0)) in
    let res_x := fx point_0 in
    Some (Vec2 res_x res_y).

Definition euclidean_norm (vector : vec2) : float :=
  fsqrt (fadd (fmul (fx vector) (fx vector)) (fmul (fy vector) (fy vector))).

(** The patching energy of two directed edges [(i_1, i_2)] and [(j_1, j_2)]:
    the block both [compute_all_energies] and [compute_neighbours_energies]
    run on a candidate. *)
Definition patching_energy (i_1 i_2 j_1 j_2 : vec2) : float :=
  let cross :=
    fadd (euclidean_norm (vsub i_1 j_2)) (euclidean_norm (vsub i_2 j_1)) in
  let no_cross :=
    fadd (euclidean_norm (vsub i_1 j_1)) (euclidean_norm (vsub i_2 j_2)) in
  if flt cross no_cross then
    fsub (fsub cross (euclidean_norm (vsub i_1 i_2)))
         (euclidean_norm (vsub j_2 j_1))
  else
    fsub (fsub no_cross (euclidean_norm (vsub i_1 i_2)))
         (euclidean_norm (vsub j_2 j_1)).

(** Loops over a list of indices, with a body that may fail. *)
Fixpoint for_each {A S : Type} (l : list A) (body : S -> A -> option S) (s : S)
  : option S :=
  match l with
  | [] => Some s
  | i :: rest => s' <- body s i ;; for_each rest body s'
  end.

(** The energy [compute_all_energies] and [compute_neighbours_energies] give
    the pair made of the reference edge and of edge [index]. *)
Definition edge_pair_energy (points : field vec2) (next_edge : field Z)
    (edge_I : ivec2) (index : Z) : option float :=
  n <- get next_edge index ;;
  let edge_J := Ivec2 index n in
  i_1 <- get points (x2 edge_I) ;;
  i_2 <- get points (y2 edge_I) ;;
  j_1 <- get points (x2 edge_J) ;;
  j_2 <- get points (y2 edge_J) ;;
  Some (patching_energy i_1 i_2 j_1 j_2).

(** The body of the loop of [compute_all_energies]. *)
Definition all_energies_step (points : field vec2) (next_edge : field Z)
    (cycle_index : field Z) (edge_I : ivec2) (edge_cycle : Z)
    (energies : field float) (index : Z) : option (field float) :=
  c <- get cycle_index index ;;
  (* a point of the same cycle *)
  if c =? edge_cycle then set energies index inf
  (* no point *)
  else if c =? -1 then set energies index inf
  (* a point of another cycle *)
  else
    energy <- edge_pair_energy points next_edge edge_I index ;;
    set energies index energy.

Definition compute_all_energies (points : field vec2) (next_edge : field Z)
    (cycle_index : field Z) (energies : field float)
    (current_edge_1d_index : Z) : option (field float) :=
  n <- get next_edge current_edge_1d_index ;;
  let edge_I := Ivec2 current_edge_1d_index n in
  edge_cycle <- get cycle_index current_edge_1d_index ;;
  for_each (range (size energies))
    (all_energies_step points next_edge cycle_index edge_I edge_cycle)
    energies.

(** The 5 x 5 x 2 offsets [(x_index, y_index, z_index)] in the order of the
    three nested loops. *)
Definition neighbour_offsets : list ivec3 :=
  flat_map (fun x_index =>
    flat_map (fun y_index =>
      map (fun z_index => Ivec3 x_index y_index z_index) (range 2))
      (range 5))
    (range 5).

(** The body of the three nested loops of [compute_neighbours_energies]. *)
Definition neighbours_energies_step (points : field vec2)
    (next_edge : field Z) (cycle_index : field Z) (shape : ivec2)
    (edge_I : ivec2) (edge_I_cycle : Z) (edge_I_3d_index : ivec3)
    (best : float * ivec3) (offset : ivec3) : option (float * ivec3) :=
  let edge_J_1d_index :=
    edge_3d_to_1d_index shape
      (x3 edge_I_3d_index + x3 offset - 2)
      (y3 edge_I_3d_index + y3 offset - 2)
      (z3 offset) in
  c <- get cycle_index edge_J_1d_index ;;
  (* a point of the same cycle or no point at all *)
  if (c =? edge_I_cycle) || (c =? -1) then Some best
  (* a point of another cycle *)
  else
    energy <- edge_pair_energy points next_edge edge_I edge_J_1d_index ;;
    if flt energy (fst best) && fne energy inf
    then Some (energy, offset)
    else Some best.

Definition compute_neighbours_energies (points : field vec2)
    (next_edge : field Z) (cycle_index : field Z) (shape : ivec2)
    (current_edge_1d_index : Z) : option vec2 :=
  n <- get next_edge current_edge_1d_index ;;
  let edge_I := Ivec2 current_edge_1d_index n in
  edge_I_cycle <- get cycle_index current_edge_1d_index ;;
  let edge_I_3d_index := edge_1d_to_3d_index shape current_edge_1d_index in
  best <-
    for_each neighbour_offsets
      (neighbours_energies_step points next_edge cycle_index shape
         edge_I edge_I_cycle edge_I_3d_index)
      (inf, Ivec3 0 0 0) ;;
  let '(minimal_energy, minimum_value_3d_index) := best in
  (* [res] is a vector of floats; its components are cast back to integers
     when they are passed on *)
  let res_x := itof (x3 edge_I_3d_index + x3 minimum_value_3d_index - 2) in
  let res_y := itof (y3 edge_I_3d_index + y3 minimum_value_3d_index - 2) in
  let res_z := itof (z3 minimum_value_3d_index) in
  Some (Vec2 minimal_energy
             (itof (edge_3d_to_1d_index shape
                      (ftoi res_x) (ftoi res_y) (ftoi res_z)))).

(** ** fields.py *)

Definition reset_energies (energies : field float) : field float :=
  fill (size energies) inf.

Fixpoint find_minimum_from (f : list float) (i : Z)
    (minimal_value : float) (index : Z) : float * Z :=
  match f with
  | [] => (minimal_value, index)
  | fi :: rest =>
      if flt fi minimal_value && fne fi inf
      then find_minimum_from rest (i + 1) fi i
      else find_minimum_from rest (i + 1) minimal_value index
  end.

Definition find_minimum_in_field (f : field float) : vec2 :=
  let '(minimal_value, index) := find_minimum_from f 0 inf 0 in
  Vec2 minimal_value (itof index).

Definition count_cycles (cycles : field ivec2) : Z :=
  Z.of_nat (length (filter (fun c => negb (y2 c =? 0)) cycles)).

Definition fill_final_cycles (cycles final_cycles : field ivec2)
  : option (field ivec2) :=
  for_each (range (size final_cycles))
    (fun final_cycles index =>
       c <- get cycles index ;; set final_cycles index c)
    final_cycles.

(** ** graph.py *)

Definition compute_binary_grid (grid : field2 float) : field2 Z :=
  Field2 (shape grid)
    (fun x_index y_index =>
       let sign := sign (at2 grid x_index y_index) in
       if feq sign (itof (-1)) then 0
       else if feq sign (itof 0) then 1
       else 1).

(** The cells [(x_index, y_index)] in the order of the two nested loops. *)
Definition cells (grid_shape : ivec2) : list ivec2 :=
  flat_map (fun x_index =>
    map (fun y_index => Ivec2 x_index y_index) (range (y2 grid_shape)))
    (range (x2 grid_shape)).

(** The guard [x_index != grid_shape.x - 1 and y_index != grid_shape.y - 1]. *)
Definition not_border (grid_shape cell : ivec2) : bool :=
  negb (x2 cell =? x2 grid_shape - 1) && negb (y2 cell =? y2 grid_shape - 1).

Definition compute_points_cell (grid : field2 float) (binary_grid : field2 Z)
    (points : field vec2) (cell : ivec2) : option (field vec2) :=
  let grid_shape := shape grid in
  let x_index := x2 cell in
  let y_index := y2 cell in
  if not_border grid_shape cell then
    let edge_indexes := index2d_to_edge_index (Ivec2 x_index y_index) grid_shape in
    b01 <- get2 binary_grid x_index (y_index + 1) ;;
    b11 <- get2 binary_grid (x_index + 1) (y_index + 1) ;;
    points <-
      (if negb (b01 =? b11) then
         right_edge_point <-
           linear_interpolation grid (Ivec2 x_index (y_index + 1))
                                (Ivec2 (x_index + 1) (y_index + 1)) zero ;;
         set points (c1 edge_indexes) right_edge_point
       else Some points) ;;
    b10 <- get2 binary_grid (x_index + 1) y_index ;;
    if negb (b11 =? b10) then
      bottom_edge_point <-
        linear_interpolation grid (Ivec2 (x_index + 1) (y_index + 1))
                             (Ivec2 (x_index + 1) y_index) zero ;;
      set points (c2 edge_indexes) bottom_edge_point
    else Some points
  else Some points.

Definition compute_points (grid : field2 float) (binary_grid : field2 Z)
    (points : field vec2) : option (field vec2) :=
  for_each (cells (shape binary_grid)) (compute_points_cell grid binary_grid)
           points.

(** The two adjacency fields [compute_adajcency] writes. *)
Record adjacency : Type :=
  Adjacency { adj_previous : field Z; adj_next : field Z }.

(** One assignment [next_edge[i] = v] or [previous_edge[i] = v]. *)
Inductive assign : Set :=
| SetNext (i v : Z)
| SetPrev (i v : Z).

Definition exec (g : adjacency) (a : assign) : option adjacency :=
  match a with
  | SetNext i v =>
      n <- set (adj_next g) i v ;; Some (Adjacency (adj_previous g) n)
  | SetPrev i v =>
      p <- set (adj_previous g) i v ;; Some (Adjacency p (adj_next g))
  end.

Definition cell_configuration (binary_grid : field2 Z) (current_cell : ivec2)
  : option Z :=
  b0 <- get2 binary_grid (x2 current_cell) (y2 current_cell) ;;
  b1 <- get2 binary_grid (x2 current_cell) (y2 current_cell + 1) ;;
  b2 <- get2 binary_grid (x2 current_cell + 1) (y2 current_cell + 1) ;;
  b3 <- get2 binary_grid (x2 current_cell + 1) (y2 current_cell) ;;
  Some (1 * b0 + 2 * b1 + 4 * b2 + 8 * b3).

Definition average_value (grid : field2 float) (current_cell : ivec2)
  : option float :=
  g0 <- get2 grid (x2 current_cell) (y2 current_cell) ;;
  g1 <- get2 grid (x2 current_cell) (y2 current_cell + 1) ;;
  g2 <- get2 grid (x2 current_cell + 1) (y2 current_cell + 1) ;;
  g3 <- get2 grid (x2 current_cell + 1) (y2 current_cell) ;;
  Some (fdiv (fadd (fadd (fadd g0 g1) g2) g3) (itof 4)).

(** The assignments of one cell, branch by branch. *)
Definition adjacency_assigns (grid : field2 float) (binary_grid : field2 Z)
    (current_cell : ivec2) : option (list assign) :=
  let grid_shape := shape binary_grid in
  let edge_indexes := index2d_to_edge_index current_cell grid_shape in
  let e := ivec4_get edge_indexes in
  current_cell_configuration <- cell_configuration binary_grid current_cell ;;
  if (current_cell_configuration =? 0) || (current_cell_configuration =? 15)
  then
    Some (flat_map (fun i => [SetNext (e i) (-1); SetPrev (e i) (-1)])
                   (range 4))
  else if current_cell_configuration =? 1 then
    Some [SetNext (e 0) (e 3); SetPrev (e 3) (e 0)]
  else if current_cell_configuration =? 2 then
    Some [SetNext (e 1) (e 0); SetPrev (e 0) (e 1)]
  else if current_cell_configuration =? 3 then
    Some [SetNext (e 1) (e 3); SetPrev (e 3) (e 1)]
  else if current_cell_configuration =? 4 then
    Some [SetNext (e 2) (e 1); SetPrev (e 1) (e 2)]
  else if current_cell_configuration =? 5 then
    average_value <- average_value grid current_cell ;;
    if flt zero average_value then
      Some [SetNext (e 0) (e 1); SetPrev (e 1) (e 0);
            SetNext (e 2) (e 3); SetPrev (e 3) (e 2)]
    else
      Some [SetNext (e 0) (e 3); SetPrev (e 3) (e 0);
            SetNext (e 2) (e 1); SetPrev (e 1) (e 2)]
  else if current_cell_configuration =? 6 then
    Some [SetNext (e 2) (e 0); SetPrev (e 0) (e 2)]
  else if current_cell_configuration =? 7 then
    Some [SetNext (e 2) (e 3); SetPrev (e 3) (e 2)]
  else if current_cell_configuration =? 8 then
    Some [SetNext (e 3) (e 2); SetPrev (e 2) (e 3)]
  else if current_cell_configuration =? 9 then
    Some [SetNext (e 0) (e 2); SetPrev (e 2) (e 0)]
  else if current_cell_configuration =? 10 then
    average_value <- average_value grid current_cell ;;
    if flt average_value zero then
      Some [SetNext (e 1) (e 0); SetPrev (e 0) (e 1);
            SetNext (e 3) (e 2); SetPrev (e 2) (e 3)]
    else
      Some [SetNext (e 3) (e 0); SetPrev (e 0) (e 3);
            SetNext (e 1) (e 2); SetPrev (e 2) (e 1)]
  else if current_cell_configuration =? 11 then
    Some [SetNext (e 1) (e 2); SetPrev (e 2) (e 1)]
  else if current_cell_configuration =? 12 then
    Some [SetNext (e 3) (e 1); SetPrev (e 1) (e 3)]
  else if current_cell_configuration =? 13 then
    Some [SetNext (e 0) (e 1); SetPrev (e 1) (e 0)]
  else if current_cell_configuration =? 14 then
    Some [SetNext (e 3) (e 0); SetPrev (e 0) (e 3)]
  else Some [].

Definition compute_adajcency_cell (grid : field2 float)
    (binary_grid : field2 Z) (g : adjacency) (cell : ivec2)
  : option adjacency :=
  if not_border (shape binary_grid) cell then
    assigns <- adjacency_assigns grid binary_grid cell ;;
    for_each assigns exec g
  else Some g.

Definition compute_adajcency (grid : field2 float) (binary_grid : field2 Z)
    (previous_edge next_edge : field Z) : option adjacency :=
  for_each (cells (shape binary_grid)) (compute_adajcency_cell grid binary_grid)
           (Adjacency previous_edge next_edge).

Definition is_in_a_cycle (cycle_index : field Z) (grid_shape cell : ivec2)
  : option bool :=
  let edge_indexes := index2d_to_edge_index cell grid_shape in
  for_each (range 4)
    (fun res i =>
       c <- get cycle_index (ivec4_get edge_indexes i) ;;
       if negb (c =? -1) then Some true else Some res)
    false.

(** The [while] loop of [flood]; [fuel] bounds the number of iterations. *)
Fixpoint flood_loop (fuel : nat) (next_edge cycle_index : field Z)
    (first_edge cycle_number current_edge cycle_lenght : Z)
  : option (field Z * Z) :=
  if current_edge =? first_edge then Some (cycle_index, cycle_lenght)
  else
    match fuel with
    | O => None
    | S fuel =>
        cycle_index <- set cycle_index current_edge cycle_number ;;
        key <- get next_edge current_edge ;;
        flood_loop fuel next_edge cycle_index first_edge cycle_number key
                   (cycle_lenght + 1)
    end.

Definition flood (fuel : nat) (next_edge cycle_index : field Z)
    (cycles : field ivec2) (first_edge cycle_number : Z)
  : option (field Z * field ivec2) :=
  current_edge <- get next_edge first_edge ;;
  cycle_index <- set cycle_index first_edge cycle_number ;;
  r <- flood_loop fuel next_edge cycle_index first_edge cycle_number
                  current_edge 1 ;;
  let '(cycle_index, cycle_lenght) := r in
  cycles <- set cycles cycle_number (Ivec2 first_edge cycle_lenght) ;;
  Some (cycle_index, cycles).

(** State of [browse_grid]: the labels, the catalogue and the number of
    cycles found so far. *)
Record browse_state : Type :=
  BrowseState { b_cycle_index : field Z; b_cycles : field ivec2;
                b_cycle_number : Z }.

(** A load from the binary grid that does not check the index: outside the
    allocated range it yields the unspecified value [oob x y]. *)
Definition load2 (oob : Z -> Z -> Z) (f : field2 Z) (x y : Z) : Z :=
  match get2 f x y with
  | Some v => v
  | None => oob x y
  end.

Definition browse_grid_cell (oob : Z -> Z -> Z) (fuel : nat)
    (grid : field2 float) (binary_grid : field2 Z) (next_edge : field Z)
    (s : browse_state) (current_cell : ivec2) : option browse_state :=
  let grid_shape := shape grid in
  let x_index := x2 current_cell in
  let y_index := y2 current_cell in
  let current_cell_configuration :=
    1 * load2 oob binary_grid x_index y_index +
    2 * load2 oob binary_grid x_index (y_index + 1) +
    4 * load2 oob binary_grid (x_index + 1) (y_index + 1) +
    8 * load2 oob binary_grid (x_index + 1) y_index in
  if not_border grid_shape current_cell
     && (current_cell_configuration >? 0)
     && (current_cell_configuration <? 15)
     && negb (current_cell_configuration =? 5)
     && negb (current_cell_configuration =? 10)
  then
    in_cycle <- is_in_a_cycle (b_cycle_index s) grid_shape current_cell ;;
    if negb in_cycle then
      let edge_indexes :=
        index2d_to_edge_index current_cell (shape binary_grid) in
      let first_edge :=
        if (current_cell_configuration =? 1)
           || (current_cell_configuration =? 2)
           || (current_cell_configuration =? 6)
           || (current_cell_configuration =? 14)
           || (current_cell_configuration =? 13)
           || (current_cell_configuration =? 9)
        then c0 edge_indexes
        else if (current_cell_configuration =? 3)
                || (current_cell_configuration =? 4)
                || (current_cell_configuration =? 12)
                || (current_cell_configuration =? 11)
        then c1 edge_indexes
        else c2 edge_indexes in
      r <- flood fuel next_edge (b_cycle_index s) (b_cycles s) first_edge
                 (b_cycle_number s) ;;
      Some (BrowseState (fst r) (snd r) (b_cycle_number s + 1))
    else Some s
  else Some s.

Definition browse_grid (oob : Z -> Z -> Z) (fuel : nat) (grid : field2 float)
    (binary_grid : field2 Z) (next_edge cycle_index : field Z)
    (cycles : field ivec2) : option browse_state :=
  for_each (cells (shape binary_grid))
           (browse_grid_cell oob fuel grid binary_grid next_edge)
           (BrowseState cycle_index cycles 0).

(** The sample indices [browse_grid] loads from the binary grid at one
    iteration of its loops, before it tests for the border. *)
Definition browse_grid_loads (current_cell : ivec2) : list ivec2 :=
  [ Ivec2 (x2 current_cell) (y2 current_cell);
    Ivec2 (x2 current_cell) (y2 current_cell + 1);
    Ivec2 (x2 current_cell + 1) (y2 current_cell + 1);
    Ivec2 (x2 current_cell + 1) (y2 current_cell) ].

(** The graph: the five fields [to_graph] returns and the stitching engine
    updates. *)
Record graph : Type :=
  Graph { points : field vec2;
          previous_edge : field Z;
          next_edge : field Z;
          cycle_index : field Z;
          cycles : field ivec2 }.

Definition to_graph (oob : Z -> Z -> Z) (fuel : nat) (grid : field2 float)
  : option graph :=
  let binary_grid := compute_binary_grid grid in
  let edge_fields_shape := edge_fields_shape (shape binary_grid) in
  points <- compute_points grid binary_grid
              (fill edge_fields_shape (Vec2 nan nan)) ;;
  adj <- compute_adajcency grid binary_grid
           (fill edge_fields_shape (-1)) (fill edge_fields_shape (-1)) ;;
  s <- browse_grid oob fuel grid binary_grid (adj_next adj)
         (fill edge_fields_shape (-1))
         (fill edge_fields_shape (Ivec2 0 0)) ;;
  let cycles_count := count_cycles (b_cycles s) in
  final_cycles <- fill_final_cycles (b_cycles s)
                    (fill cycles_count (Ivec2 0 0)) ;;
  Some (Graph points (adj_previous adj) (adj_next adj) (b_cycle_index s)
              final_cycles).

(** ** stitch.py *)

(** The [while] loop of [stitch_two_cycles], which relabels the edges of the
    merged ring; [fuel] bounds the number of iterations. *)
Fixpoint relabel_loop (fuel : nat) (next_edge cycle_index : field Z)
    (first_edge cycle_1_index point : Z) : option (field Z) :=
  if point =? first_edge then Some cycle_index
  else
    match fuel with
    | O => None
    | S fuel =>
        cycle_index <- set cycle_index point cycle_1_index ;;
        next_point <- get next_edge point ;;
        relabel_loop fuel next_edge cycle_index first_edge cycle_1_index
                     next_point
    end.

Definition stitch_two_cycles (fuel : nat) (g : graph)
    (minimal_energy_edges : ivec2) : option graph :=
  cycle_1_index <- get (cycle_index g) (x2 minimal_energy_edges) ;;
  cycle_2_index <- get (cycle_index g) (y2 minimal_energy_edges) ;;
  (* change next_edge and previous_edge *)
  i2 <- get (next_edge g) (x2 minimal_energy_edges) ;;
  let edge_I := Ivec2 (x2 minimal_energy_edges) i2 in
  j2 <- get (next_edge g) (y2 minimal_energy_edges) ;;
  let edge_J := Ivec2 (y2 minimal_energy_edges) j2 in
  next_edge <- set (next_edge g) (x2 edge_I) (y2 edge_J) ;;
  previous_edge <- set (previous_edge g) (y2 edge_I) (x2 edge_J) ;;
  next_edge <- set next_edge (x2 edge_J) (y2 edge_I) ;;
  previous_edge <- set previous_edge (y2 edge_J) (x2 edge_I) ;;
  (* change cycle_index *)
  point <- get next_edge (x2 minimal_energy_edges) ;;
  cycle_index <- relabel_loop fuel next_edge (cycle_index g)
                   (x2 minimal_energy_edges) cycle_1_index point ;;
  (* change cycles *)
  cycle_1 <- get (cycles g) cycle_1_index ;;
  cycle_2 <- get (cycles g) cycle_2_index ;;
  let new_cycle := Ivec2 (x2 cycle_1) (y2 cycle_1 + y2 cycle_2) in
  cycles <- set (cycles g) cycle_1_index new_cycle ;;
  cycles <- set cycles cycle_2_index (Ivec2 0 0) ;;
  Some (Graph (points g) previous_edge next_edge cycle_index cycles).

(** [minimal_cycle_lenght] starts as [ti.math.inf], so it is a float: the
    lengths are compared and stored as floats. *)
Definition find_minimal_cycle (cycles : field ivec2) (nb_cycles : Z)
  : option Z :=
  r <- for_each (range nb_cycles)
         (fun (best : Z * float) cycle_number =>
            let '(minimal_cycle_index, minimal_cycle_lenght) := best in
            cycle <- get cycles cycle_number ;;
            let cycle_lenght := y2 cycle in
            if flt (itof cycle_lenght) minimal_cycle_lenght
               && negb (cycle_lenght =? 0)
            then Some (cycle_number, itof cycle_lenght)
            else Some best)
         (0, inf) ;;
  Some (fst r).

(** State of the two search loops of
    [find_edges_with_minimum_energy_with_neighbours]. *)
Record search_state : Set :=
  SearchState { s_current_edge : Z;
                s_minimal_energy : float;
                s_minimal_energy_edges : ivec2 }.

Definition neighbours_step (points : field vec2) (next_edge cycle_index : field Z)
    (shape : ivec2) (s : search_state) (_ : Z) : option search_state :=
  let current_edge_1d_index := s_current_edge s in
  min_and_index <- compute_neighbours_energies points next_edge cycle_index
                     shape current_edge_1d_index ;;
  let '(minimal_energy, minimal_energy_edges) :=
    if flt (fx min_and_index) (s_minimal_energy s)
       && fne (fx min_and_index) inf
    then (fx min_and_index,
          Ivec2 current_edge_1d_index (ftoi (fy min_and_index)))
    else (s_minimal_energy s, s_minimal_energy_edges s) in
  end_point_index <- get next_edge current_edge_1d_index ;;
  Some (SearchState end_point_index minimal_energy minimal_energy_edges).

Definition all_edges_step (points : field vec2) (next_edge cycle_index : field Z)
    (energies : field float) (s : search_state) (_ : Z)
  : option search_state :=
  let current_edge_1d_index := s_current_edge s in
  energies <- compute_all_energies points next_edge cycle_index
                (reset_energies energies) current_edge_1d_index ;;
  let min_and_index := find_minimum_in_field energies in
  let '(minimal_energy, minimal_energy_edges) :=
    if flt (fx min_and_index) (s_minimal_energy s)
    then (fx min_and_index,
          Ivec2 current_edge_1d_index (ftoi (fy min_and_index)))
    else (s_minimal_energy s, s_minimal_energy_edges s) in
  end_point_index <- get next_edge current_edge_1d_index ;;
  Some (SearchState end_point_index minimal_energy minimal_energy_edges).

(** [energies] is a scratch field: every use resets it first, so its content
    is not threaded from one call to the next. *)
Definition find_edges_with_minimum_energy_with_neighbours
    (points : field vec2) (next_edge cycle_index : field Z)
    (cycles : field ivec2) (energies : field float)
    (minimal_cycle_index : Z) (shape : ivec2) : option ivec2 :=
  minimal_cycle <- get cycles minimal_cycle_index ;;
  (* only for neighboring edges *)
  s <- for_each (range (y2 minimal_cycle))
         (neighbours_step points next_edge cycle_index shape)
         (SearchState (x2 minimal_cycle) inf (Ivec2 0 0)) ;;
  (* if we didn't find neighbours, use the classic method *)
  if feq (s_minimal_energy s) inf then
    s <- for_each (range (y2 minimal_cycle))
           (all_edges_step points next_edge cycle_index energies)
           s ;;
    Some (s_minimal_energy_edges s)
  else Some (s_minimal_energy_edges s).

(** One iteration of the loop of
    [compiled_stitching_algorithm_with_neighbours]. *)
Definition stitching_step (fuel : nat) (energies : field float)
    (shape : ivec2) (g : graph) (_ : Z) : option graph :=
  let nb_cycles := size (cycles g) in
  minimal_cycle_index <- find_minimal_cycle (cycles g) nb_cycles ;;
  minimal_energy_edges <-
    find_edges_with_minimum_energy_with_neighbours
      (points g) (next_edge g) (cycle_index g) (cycles g) energies
      minimal_cycle_index shape ;;
  stitch_two_cycles fuel g minimal_energy_edges.

Definition compiled_stitching_algorithm_with_neighbours (fuel : nat)
    (g : graph) (energies : field float) (shape : ivec2) : option graph :=
  let nb_cycles := size (cycles g) in
  for_each (range (nb_cycles - 1)) (stitching_step fuel energies shape) g.

Definition stitch_all_cycles_with_neighbourhood (fuel : nat) (g : graph)
    (shape : ivec2) : option graph :=
  let energies := fill (size (points g)) zero in
  compiled_stitching_algorithm_with_neighbours fuel g energies shape.

(** * Vocabulary of the statements *)

(** Binarisation as the specification words it: 0 on a strictly negative
    sample, 1 otherwise. *)
Definition binary_of (v : float) : Z := if flt v zero then 0 else 1.

(** The four sides of a cell, in the order of the components of
    [index2d_to_edge_index]. *)
Inductive side : Set := Top | Right | Bottom | Left.

Definition side_index (s : side) : Z :=
  match s with Top => 0 | Right => 1 | Bottom => 2 | Left => 3 end.

Definition edge_of (grid_shape cell : ivec2) (s : side) : Z :=
  ivec4_get (index2d_to_edge_index cell grid_shape) (side_index s).

(** The cells that have four edges: those off the last row and column. *)
Definition interior_cell (grid_shape cell : ivec2) : Prop :=
  0 <= x2 cell < x2 grid_shape - 1 /\ 0 <= y2 cell < y2 grid_shape - 1.

(** The direction table of the specification: the side the contour edge
    leaves from and the side it goes to, for the twelve cases with one
    edge. *)
Definition direction_table (c : Z) : option (side * side) :=
  match c with
  | 1 => Some (Top, Left)
  | 2 => Some (Right, Top)
  | 3 => Some (Right, Left)
  | 4 => Some (Bottom, Right)
  | 6 => Some (Bottom, Top)
  | 7 => Some (Bottom, Left)
  | 8 => Some (Left, Bottom)
  | 9 => Some (Top, Bottom)
  | 11 => Some (Right, Bottom)
  | 12 => Some (Left, Right)
  | 13 => Some (Top, Right)
  | 14 => Some (Left, Top)
  | _ => None
  end.



(** The adjacency fields as [to_graph] computes them. *)
Definition extract_adjacency (grid : field2 float) : option adjacency :=
  let binary_grid := compute_binary_grid grid in
  let edge_fields_shape := edge_fields_shape (shape binary_grid) in
  compute_adajcency grid binary_grid
    (fill edge_fields_shape (-1)) (fill edge_fields_shape (-1)).






(** The pair invariant as the specification states it: on every edge [i]
    with [next_edge[i] != NONE], both [prev_edge[next_edge[i]] == i] and
    [next_edge[prev_edge[i]] == i]. *)
Definition stated_pair_invariant (next prev : field Z) : Prop :=
  forall i j, get next i = Some j -> j <> -1 ->
    get prev j = Some i /\
    exists p, get prev i = Some p /\ get next p = Some i.

(** Its two halves, each on the edges where the pointer it follows first is
    set. *)
Definition next_then_previous (next prev : field Z) : Prop :=
  forall i j, get next i = Some j -> j <> -1 -> get prev j = Some i.

Definition previous_then_next (next prev : field Z) : Prop :=
  forall i p, get prev i = Some p -> p <> -1 -> get next p = Some i.

Definition pair_invariant (next prev : field Z) : Prop :=
  next_then_previous next prev /\ previous_then_next next prev.

(** The records of the catalogue that are not tombstones, and the number of
    edges with a next pointer or with a label. *)
Definition live_cycles (cycles : field ivec2) : list ivec2 :=
  filter (fun c => negb (y2 c =? 0)) cycles.

Definition count_set (f : field Z) : Z :=
  Z.of_nat (length (filter (fun v => negb (v =? -1)) f)).

(** [x] is the first element of lowest cost of [l]: its cost is a number
    below +inf, strictly below the cost of every element before it that is
    such a number, and no element after it has a strictly lower cost. *)
Definition first_minimum {A : Type} (cost : A -> float) (l : list A) (x : A)
  : Prop :=
  exists pre post,
    l = pre ++ x :: post /\
    flt (cost x) inf = true /\
    (forall y, In y pre -> flt (cost y) inf = true ->
               flt (cost x) (cost y) = true) /\
    (forall y, In y post -> flt (cost y) (cost x) = false).

(** No element of [l] has a cost below +inf. *)
Definition no_candidate {A : Type} (cost : A -> float) (l : list A) : Prop :=
  forall y, In y l -> flt (cost y) inf = false.

(** The lengths of the catalogue are compared as floats; the comparison is
    exact when every length is a number below +inf as a float and the order
    of the floats is the order of the integers (lengths below 2^24 in single
    precision). *)
Definition exact_lengths (cycles : field ivec2) : Prop :=
  forall c c', In c cycles -> In c' cycles ->
    flt (itof (y2 c)) inf = true /\
    flt (itof (y2 c)) (itof (y2 c')) = (y2 c <? y2 c').

(** Record [m] is not a tombstone, no record that is not a tombstone is
    shorter, and those of the same length have an id at least [m]. *)
Definition smallest_cycle (cycles : field ivec2) (m : Z) : Prop :=
  exists cm,
    get cycles m = Some cm /\ y2 cm <> 0 /\
    forall k c, get cycles k = Some c -> y2 c <> 0 ->
                y2 cm < y2 c \/ (y2 cm = y2 c /\ m <= k).

(** A candidate of the neighbourhood search of a reference edge: the offset
    of the loops, the flat index of the neighbour and the patching energy. *)
Record candidate : Set :=
  Candidate { cand_offset : ivec3; cand_edge : Z; cand_energy : float }.

(** The neighbour at an offset is a candidate when it has a label and the
    label is not that of the reference edge. *)
Definition neighbour_candidate (points : field vec2)
    (next_edge cycle_index : field Z) (shape : ivec2) (I : Z)
    (offset : ivec3) : option candidate :=
  n <- get next_edge I ;;
  edge_I_cycle <- get cycle_index I ;;
  let I3 := edge_1d_to_3d_index shape I in
  let J := edge_3d_to_1d_index shape (x3 I3 + x3 offset - 2)
                               (y3 I3 + y3 offset - 2) (z3 offset) in
  c <- get cycle_index J ;;
  if (c =? edge_I_cycle) || (c =? -1) then None
  else
    energy <- edge_pair_energy points next_edge (Ivec2 I n) J ;;
    Some (Candidate offset J energy).

(** The candidates of a reference edge in the order of the search: x offset,
    then y offset, then orientation. *)
Definition neighbour_candidates (points : field vec2)
    (next_edge cycle_index : field Z) (shape : ivec2) (I : Z)
  : list candidate :=
  flat_map
    (fun offset =>
       match neighbour_candidate points next_edge cycle_index shape I offset with
       | Some c => [c]
       | None => []
       end)
    neighbour_offsets.

(** An integer after a round trip through a float (the identity below 2^24
    in single precision). *)
Definition through_float (z : Z) : Z := ftoi (itof z).

(** The flat index the search returns for the offset it selected: offsets
    and index are carried by floats. *)
Definition returned_edge (shape : ivec2) (I : Z) (offset : ivec3) : Z :=
  let I3 := edge_1d_to_3d_index shape I in
  through_float
    (edge_3d_to_1d_index shape
       (through_float (x3 I3 + x3 offset - 2))
       (through_float (y3 I3 + y3 offset - 2))
       (through_float (z3 offset))).

(** The [n] reference edges of a search: from [start] along the next
    pointers. *)
Fixpoint ring_walk (next_edge : field Z) (n : nat) (I : Z) : list Z :=
  match n with
  | O => []
  | S n =>
      I :: match get next_edge I with
           | Some J => ring_walk next_edge n J
           | None => []
           end
  end.

(** The pairs the neighbourhood search examines, in its order: reference
    edges in ring order, neighbours in the order of the offsets. *)
Definition neighbour_pairs (points : field vec2)
    (next_edge cycle_index : field Z) (shape : ivec2) (walk : list Z)
  : list (Z * candidate) :=
  flat_map
    (fun I => map (pair I)
                  (neighbour_candidates points next_edge cycle_index shape I))
    walk.

Definition pair_cost (p : Z * candidate) : float := cand_energy (snd p).

(** The pair of flat indices the search returns for an examined pair. *)
Definition chosen_pair (shape : ivec2) (p : Z * candidate) : ivec2 :=
  Ivec2 (fst p) (returned_edge shape (fst p) (cand_offset (snd p))).

(** The choice of the spliced pair as stated: edge [I] of the target cycle
    [m] and edge [J] of another cycle, of lowest cost, ties broken by lowest
    [I], then lowest [J]. *)
Definition stated_pair_choice (points : field vec2)
    (next_edge cycle_index : field Z) (m : Z) (pair : ivec2) : Prop :=
  forall I' n' J' c' e',
    get cycle_index I' = Some m -> get next_edge I' = Some n' ->
    get cycle_index J' = Some c' -> c' <> m -> c' <> -1 ->
    edge_pair_energy points next_edge (Ivec2 I' n') J' = Some e' ->
    exists n e,
      get next_edge (x2 pair) = Some n /\
      edge_pair_energy points next_edge (Ivec2 (x2 pair) n) (y2 pair)
        = Some e /\
      (flt e e' = true \/
       (feq e e' = true /\
        (x2 pair < I' \/ (x2 pair = I' /\ y2 pair <= J')))).

(** The edge a walk of [n] steps from [I] ends on. *)
Fixpoint ring_end (next_edge : field Z) (n : nat) (I : Z) : Z :=
  match n with
  | O => I
  | S n =>
      match get next_edge I with
      | Some J => ring_end next_edge n J
      | None => I
      end
  end.

(** The energy the scan of all edges records at index [J] for the reference
    edge [I]: +inf for an edge of the same cycle and for an edge without
    label. *)
Definition recorded_energy (points : field vec2)
    (next_edge cycle_index : field Z) (I J : Z) : option float :=
  n <- get next_edge I ;;
  edge_cycle <- get cycle_index I ;;
  c <- get cycle_index J ;;
  if c =? edge_cycle then Some inf
  else if c =? -1 then Some inf
  else edge_pair_energy points next_edge (Ivec2 I n) J.

(** The candidates of a reference edge in the scan of all edges: the [size]
    edges by increasing index, with the energy recorded for each. *)
Definition all_candidates (points : field vec2)
    (next_edge cycle_index : field Z) (size : Z) (I : Z) : list (Z * float) :=
  flat_map
    (fun J =>
       match recorded_energy points next_edge cycle_index I J with
       | Some e => [(J, e)]
       | None => []
       end)
    (range size).

(** The pairs the scan of all edges examines, in its order: reference edges
    in ring order, then increasing index. *)
Definition all_pairs (points : field vec2) (next_edge cycle_index : field Z)
    (size : Z) (walk : list Z) : list (Z * (Z * float)) :=
  flat_map
    (fun I => map (pair I)
                  (all_candidates points next_edge cycle_index size I))
    walk.

Definition all_pair_cost (p : Z * (Z * float)) : float := snd (snd p).

(** The index of the second edge is carried by a float. *)
Definition all_chosen_pair (p : Z * (Z * float)) : ivec2 :=
  Ivec2 (fst p) (through_float (fst (snd p))).

(** [pair] is the pair returned for the first element of lowest cost of
    [l]. *)
Definition first_lowest {A : Type} (cost : A -> float) (chosen : A -> ivec2)
    (l : list A) (pair : ivec2) : Prop :=
  exists p, first_minimum cost l p /\ pair = chosen p.

(** The choice of the spliced pair for the target record [target]: the first
    pair of lowest cost of the neighbourhood search; when that search finds
    nothing, the first pair of lowest cost of the scan of all [size] edges,
    whose walk starts where the first walk ended; the pair (0, 0) when that
    scan finds nothing either. *)
Definition search_choice (points : field vec2)
    (next_edge cycle_index : field Z) (shape : ivec2) (size : Z)
    (target : ivec2) (pair : ivec2) : Prop :=
  let n := Z.to_nat (y2 target) in
  let near :=
    neighbour_pairs points next_edge cycle_index shape
      (ring_walk next_edge n (x2 target)) in
  let far :=
    all_pairs points next_edge cycle_index size
      (ring_walk next_edge n (ring_end next_edge n (x2 target))) in
  first_lowest pair_cost (chosen_pair shape) near pair \/
  (no_candidate pair_cost near /\
   (first_lowest all_pair_cost all_chosen_pair far pair \/
    (no_candidate all_pair_cost far /\ pair = Ivec2 0 0))).

(** * Auxiliary notions of the proofs *)

(** The slot an assignment writes ([true]: [next_edge]) and its value. *)
Definition slot_of (a : assign) : bool * Z :=
  match a with SetNext i _ => (true, i) | SetPrev i _ => (false, i) end.

Definition value_of (a : assign) : Z :=
  match a with SetNext _ v => v | SetPrev _ v => v end.

Definition read (g : adjacency) (s : bool * Z) : option Z :=
  get (if fst s then adj_next g else adj_previous g) (snd s).

Definition sized (n : Z) (g : adjacency) : Prop :=
  size (adj_previous g) = n /\ size (adj_next g) = n.


(** The links of a configuration: the direction table and the saddle rule
    together; [gt0] and [lt0] are the two tests on the average. *)
Definition links (c : Z) (gt0 lt0 : bool) : list (side * side) :=
  match c with
  | 5 => if gt0 then [(Top, Right); (Bottom, Left)]
         else [(Top, Left); (Bottom, Right)]
  | 10 => if lt0 then [(Right, Top); (Left, Bottom)]
          else [(Left, Top); (Right, Bottom)]
  | _ => match direction_table c with Some l => [l] | None => [] end
  end.

Definition link_assigns (grid_shape cell : ivec2) (l : side * side)
  : list assign :=
  [ SetNext (edge_of grid_shape cell (fst l)) (edge_of grid_shape cell (snd l));
    SetPrev (edge_of grid_shape cell (snd l)) (edge_of grid_shape cell (fst l)) ].

Definition clear_assigns (grid_shape cell : ivec2) : list assign :=
  flat_map (fun s => [ SetNext (edge_of grid_shape cell s) (-1);
                       SetPrev (edge_of grid_shape cell s) (-1) ])
           [Top; Right; Bottom; Left].

(** The binary values at the two ends of a side, the end with the smaller
    sample index first, from the four bits of the configuration. *)
Definition ends_bits (s : side) (b0 b1 b2 b3 : Z) : Z * Z :=
  match s with
  | Top => (b0, b1)
  | Right => (b1, b2)
  | Bottom => (b3, b2)
  | Left => (b0, b3)
  end.

(** The two sample indices at the ends of a side, in the same order. *)
Definition edge_ends (cell : ivec2) (s : side) : (Z * Z) * (Z * Z) :=
  let x := x2 cell in
  let y := y2 cell in
  match s with
  | Top => ((x, y), (x, y + 1))
  | Right => ((x, y + 1), (x + 1, y + 1))
  | Bottom => ((x + 1, y), (x + 1, y + 1))
  | Left => ((x, y), (x + 1, y))
  end.

(** A side the contour leaves from has bits (1, 0) when it is the top or the
    right side and (0, 1) otherwise; a side it goes to has the other
    pattern. *)
Definition forward (s : side) : bool :=
  match s with Top | Right => true | Bottom | Left => false end.

Definition source_bits (s : side) : Z * Z :=
  if forward s then (1, 0) else (0, 1).

Definition target_bits (s : side) : Z * Z :=
  if forward s then (0, 1) else (1, 0).

Definition configuration_of (b0 b1 b2 b3 : Z) : Z :=
  1 * b0 + 2 * b1 + 4 * b2 + 8 * b3.

(** The assignments of a cell as the loop body runs them, and those of the
    whole kernel in the order of its loops. *)
Definition cell_assigns (grid : field2 float) (binary_grid : field2 Z)
    (cell : ivec2) : list assign :=
  if not_border (shape binary_grid) cell then
    match adjacency_assigns grid binary_grid cell with
    | Some ws => ws
    | None => []
    end
  else [].

Definition all_assigns (grid : field2 float) (binary_grid : field2 Z)
  : list assign :=
  flat_map (cell_assigns grid binary_grid) (cells (shape binary_grid)).

(** The binary value of a sample and the configuration of a cell, read off
    the scalar grid. *)
Definition bit_at (grid : field2 float) (p : Z * Z) : Z :=
  binary_of (at2 grid (fst p) (snd p)).

Definition configuration_at (grid : field2 float) (cell : ivec2) : Z :=
  let x := x2 cell in
  let y := y2 cell in
  configuration_of (bit_at grid (x, y)) (bit_at grid (x, y + 1))
                   (bit_at grid (x + 1, y + 1)) (bit_at grid (x + 1, y)).

(** What one cell assigns: -1 to both pointers of its four edges in the
    configurations 0 and 15, the two pointers of each of its links
    otherwise. *)
Definition written_by (grid : field2 float) (cell : ivec2) (a : assign)
  : Prop :=
  let sh := shape grid in
  let c := configuration_at grid cell in
  ((c = 0 \/ c = 15) /\
   exists s, a = SetNext (edge_of sh cell s) (-1) \/
             a = SetPrev (edge_of sh cell s) (-1)) \/
  (exists l average,
      average_value grid cell = Some average /\
      In l (links c (flt zero average) (flt average zero)) /\
      (a = SetNext (edge_of sh cell (fst l)) (edge_of sh cell (snd l)) \/
       a = SetPrev (edge_of sh cell (snd l)) (edge_of sh cell (fst l)))).

(** The binary values at the two ends of a side of a cell. *)
Definition side_bits (grid : field2 float) (cell : ivec2) (s : side) : Z * Z :=
  (bit_at grid (fst (edge_ends cell s)), bit_at grid (snd (edge_ends cell s))).

(** The step of the scans for a minimum: the running minimum and its
    argument are replaced when the cost is strictly lower and not +inf. *)
Definition keep_lower {A : Type} (cost : A -> float) (best : float * A)
    (x : A) : float * A :=
  if flt (cost x) (fst best) && fne (cost x) inf then (cost x, x) else best.

(** The running minimum after the elements [seen]: nothing yet, or the first
    minimum of [seen]. *)
Definition scanned {A : Type} (cost : A -> float) (d : A) (seen : list A)
    (best : float * A) : Prop :=
  (best = (inf, d) /\ no_candidate cost seen) \/
  (first_minimum cost seen (snd best) /\ fst best = cost (snd best)).

(** The elements of a field with their indices, from index [i] on. *)
Fixpoint indexed_from {A : Type} (i : Z) (l : list A) : list (Z * A) :=
  match l with
  | [] => []
  | a :: rest => (i, a) :: indexed_from (i + 1) rest
  end.

(** The cost of a record in the scan of [find_minimal_cycle]: its length as
    a float, +inf for a tombstone. *)
Definition record_cost (p : Z * ivec2) : float :=
  if y2 (snd p) =? 0 then inf else itof (y2 (snd p)).

(** The start of a scan over candidates: no energy yet, offset (0, 0, 0). *)
Definition no_candidate_yet : candidate := Candidate (Ivec3 0 0 0) 0 inf.

(** The running result of a search after the elements [seen]: the energy
    [e] and the pair [chosen] of the first minimum, or +inf and the pair
    [init] when nothing was found. *)
Definition running {A P : Type} (cost : A -> float) (chosen : A -> P)
    (init : P) (seen : list A) (e : float) (pair : P) : Prop :=
  (e = inf /\ pair = init /\ no_candidate cost seen) \/
  (exists p, first_minimum cost seen p /\ e = cost p /\ pair = chosen p).

(** The state of the neighbourhood search after the pairs [seen]. *)
Definition search_invariant (shape : ivec2) (seen : list (Z * candidate))
    (s : search_state) : Prop :=
  running pair_cost (chosen_pair shape) (Ivec2 0 0) seen
    (s_minimal_energy s) (s_minimal_energy_edges s).

(** The state of the scan of all edges after the pairs [seen]. *)
Definition all_edges_invariant (seen : list (Z * (Z * float)))
    (s : search_state) : Prop :=
  running all_pair_cost all_chosen_pair (Ivec2 0 0) seen
    (s_minimal_energy s) (s_minimal_energy_edges s).

(** * Sample grids *)

(** The grid of shape [W] x [H] whose marked samples hold [marked] and whose
    other samples hold [other]. *)
Definition grid_of (W H : Z) (marks : list (Z * Z)) (marked other : Z)
  : field2 float :=
  Field2 (Ivec2 W H)
    (fun x y =>
       if existsb (fun p => (fst p =? x) && (snd p =? y)) marks
       then itof marked else itof other).

(** One cell, negative at its first corner only: the contour enters and
    leaves through the first row and the first column of the grid. *)
Definition open_corner_grid : field2 float := grid_of 2 2 [(0, 0)] (-1) 1.


(** Two negative samples, each surrounded by a contour of four edges, far
    enough from the border for every neighbourhood to lie in the grid. *)
Definition two_diamonds_grid : field2 float :=
  grid_of 6 8 [(3, 3); (3, 5)] (-1) 1.

(** The same two contours next to the border of a smaller grid. *)
Definition border_diamonds_grid : field2 float :=
  grid_of 4 6 [(1, 1); (1, 3)] (-1) 1.

(** Four positive samples around a negative one: the four cells around the
    centre are saddles, and the contour around the centre crosses no other
    cell. *)
Definition hidden_diamond_grid : field2 float :=
  grid_of 5 5 [(1, 2); (2, 1); (2, 3); (3, 2)] 3 (-1).

(** Out-of-range loads of the examples read 0. *)
Definition oob_zero (x y : Z) : Z := 0.

(** * Rings and catalogues *)

(** [a] and the elements of [l] follow one another along the next
    pointers. *)
Fixpoint chained (next_edge : field Z) (a : Z) (l : list Z) : Prop :=
  match l with
  | [] => True
  | b :: l' => get next_edge a = Some b /\ chained next_edge b l'
  end.

(** The edges of [r] form a ring: each one points to the following one, and
    the last one to the first. *)
Definition ring (next_edge : field Z) (r : list Z) : Prop :=
  match r with
  | [] => False
  | a :: t => chained next_edge a (t ++ [a])
  end.

(** An edge with a label. *)
Definition labelled (cycle_index : field Z) (e : Z) : Prop :=
  exists c, get cycle_index e = Some c /\ c <> -1.

(** Record [k] of the catalogue and its ring [r]: a tombstone has no ring;
    the ring of another record has the length of the record, holds its start
    edge, and its edges are distinct and labelled [k]. *)
Definition record_ring (next_edge cycle_index : field Z) (k : Z)
    (record : ivec2) (r : list Z) : Prop :=
  (y2 record = 0 /\ r = []) \/
  (y2 record = Z.of_nat (length r) /\ In (x2 record) r /\
   ring next_edge r /\ NoDup r /\
   forall e, In e r -> get cycle_index e = Some k).

(** The catalogue describes the fields: every record has its ring, and every
    edge with a label lies on the ring of that label. *)
Record catalogue (next_edge cycle_index : field Z) (cycles : field ivec2)
    (rings : field (list Z)) : Prop :=
  Catalogue {
    cat_size : size cycle_index = size next_edge;
    cat_rings : size rings = size cycles;
    cat_records :
      forall k record, get cycles k = Some record ->
        exists r, get rings k = Some r /\
                  record_ring next_edge cycle_index k record r;
    cat_labels :
      forall e c, get cycle_index e = Some c -> c <> -1 ->
        exists r, get rings c = Some r /\ In e r
  }.

(** The number of records that are not tombstones. *)
Definition live_count (cycles : field ivec2) : nat :=
  length (live_cycles cycles).

(** ** Conditions on the fields the stitching engine relies on *)

(** The neighbourhood of every edge with a label lies in the fields. *)
Definition neighbourhoods_in_bounds (shape : ivec2) (cycle_index : field Z)
  : Prop :=
  forall I o,
    labelled cycle_index I -> In o neighbour_offsets ->
    let I3 := edge_1d_to_3d_index shape I in
    0 <= edge_3d_to_1d_index shape (x3 I3 + x3 o - 2) (y3 I3 + y3 o - 2)
           (z3 o)
      < size cycle_index.

(** The patching energy of any two pairs of edges with a label is a number
    below +inf. *)
Definition finite_energies (points : field vec2) (cycle_index : field Z)
  : Prop :=
  forall a b c d pa pb pc pd,
    labelled cycle_index a -> labelled cycle_index b ->
    labelled cycle_index c -> labelled cycle_index d ->
    get points a = Some pa -> get points b = Some pb ->
    get points c = Some pc -> get points d = Some pd ->
    flt (patching_energy pa pb pc pd) inf = true.

(** Floats carry the integers from -2 to [N] exactly, and compare those
    from 0 to [N] as integers (in single precision, up to 2^24). *)
Definition exact_floats (N : Z) : Prop :=
  (forall z, -2 <= z <= N -> through_float z = z) /\
  (forall a b, 0 <= a <= N -> 0 <= b <= N ->
     flt (itof a) inf = true /\ flt (itof a) (itof b) = (a <? b)).

(** A pair that joins the ring of record [m] to another ring: its first
    edge has label [m], its second edge another label. *)
Definition joins_two_rings (cycle_index : field Z) (m : Z) (pair : ivec2)
  : Prop :=
  exists c,
    get cycle_index (x2 pair) = Some m /\
    get cycle_index (y2 pair) = Some c /\ c <> m /\ c <> -1.

(** The state of the stitching loop on a graph that starts with the points
    [points0] and the labels [cycle_index0]: a catalogue describes the
    fields, the sizes and the points are those of the start, and the same
    edges have a label. *)
Definition stitching_invariant (points0 : field vec2) (cycle_index0 : field Z)
    (nb_cycles : Z) (g : graph) : Prop :=
  (exists rings,
     catalogue (next_edge g) (cycle_index g) (cycles g) rings) /\
  size (previous_edge g) = size (next_edge g) /\
  points g = points0 /\
  size (cycle_index g) = size cycle_index0 /\
  size (cycles g) = nb_cycles /\
  (forall e, labelled (cycle_index g) e <-> labelled cycle_index0 e).

(** The test of [labelled]. *)
Definition has_label (cycle_index : field Z) (e : Z) : bool :=
  match get cycle_index e with
  | Some c => negb (c =? -1)
  | None => false
  end.

(** ** The discovery of the rings *)

(** The edges [L] the loop of [flood] visits from [current] until it meets
    [first]. *)
Definition chain_to (next_edge : field Z) (current : Z) (L : list Z)
    (first : Z) : Prop :=
  match L with
  | [] => current = first
  | a :: T => a = current /\ chained next_edge current (T ++ [first])
  end.

(** The state of [browse_grid] after some cells: the rings found so far are
    those of the records before [cycle_number], every label is that of a
    ring, and the records from [cycle_number] on are still empty. *)
Definition browse_invariant (next_edge : field Z) (s : browse_state)
    (rings : field (list Z)) : Prop :=
  size (b_cycle_index s) = size next_edge /\
  size rings = b_cycle_number s /\
  (forall k r, get rings k = Some r ->
     exists record,
       get (b_cycles s) k = Some record /\ y2 record <> 0 /\
       record_ring next_edge (b_cycle_index s) k record r) /\
  (forall e c, get (b_cycle_index s) e = Some c -> c <> -1 ->
     exists r, get rings c = Some r /\ In e r) /\
  (forall k record, b_cycle_number s <= k ->
     get (b_cycles s) k = Some record -> y2 record = 0) /\
  live_count (b_cycles s) = Z.to_nat (b_cycle_number s).

(** * Tests of the conditions on given fields *)

Definition neighbourhoods_check (shape : ivec2) (cycle_index : field Z)
  : bool :=
  forallb
    (fun I =>
       negb (has_label cycle_index I) ||
       forallb
         (fun o =>
            let I3 := edge_1d_to_3d_index shape I in
            in_range
              (edge_3d_to_1d_index shape (x3 I3 + x3 o - 2)
                 (y3 I3 + y3 o - 2) (z3 o))
              (size cycle_index))
         neighbour_offsets)
    (range (size cycle_index)).

Definition finite_energies_check (points : field vec2)
    (cycle_index : field Z) : bool :=
  let edges := filter (has_label cycle_index) (range (size cycle_index)) in
  forallb (fun a => forallb (fun b => forallb (fun c => forallb (fun d =>
    match get points a, get points b, get points c, get points d with
    | Some pa, Some pb, Some pc, Some pd =>
        flt (patching_energy pa pb pc pd) inf
    | _, _, _, _ => true
    end) edges) edges) edges) edges.

Definition exact_floats_check (N : Z) : bool :=
  forallb (fun k => through_float (k - 2) =? k - 2) (range (N + 3)) &&
  forallb
    (fun a =>
       flt (itof a) inf &&
       forallb (fun b => Bool.eqb (flt (itof a) (itof b)) (a <? b))
               (range (N + 1)))
    (range (N + 1)).

(** ** stitch.py: the engine without neighbourhoods *)

(** The loop body of [find_edges_with_minimum_energy] is the one of the
    second loop of [find_edges_with_minimum_energy_with_neighbours],
    [all_edges_step]. *)
Definition find_edges_with_minimum_energy
    (points : field vec2) (next_edge cycle_index : field Z)
    (cycles : field ivec2) (energies : field float)
    (minimal_cycle_index : Z) : option ivec2 :=
  minimal_cycle <- get cycles minimal_cycle_index ;;
  s <- for_each (range (y2 minimal_cycle))
         (all_edges_step points next_edge cycle_index energies)
         (SearchState (x2 minimal_cycle) inf (Ivec2 0 0)) ;;
  Some (s_minimal_energy_edges s).

(** One iteration of the loop of [compiled_stitching_algorithm]. *)
Definition stitching_step_all_edges (fuel : nat) (energies : field float)
    (g : graph) (_ : Z) : option graph :=
  let nb_cycles := size (cycles g) in
  minimal_cycle_index <- find_minimal_cycle (cycles g) nb_cycles ;;
  minimal_energy_edges <-
    find_edges_with_minimum_energy
      (points g) (next_edge g) (cycle_index g) (cycles g) energies
      minimal_cycle_index ;;
  stitch_two_cycles fuel g minimal_energy_edges.

Definition compiled_stitching_algorithm (fuel : nat) (g : graph)
    (energies : field float) : option graph :=
  let nb_cycles := size (cycles g) in
  for_each (range (nb_cycles - 1)) (stitching_step_all_edges fuel energies) g.

Definition stitch_all_cycles (fuel : nat) (g : graph) : option graph :=
  let energies := fill (size (points g)) zero in
  compiled_stitching_algorithm fuel g energies.

(** The choice of [find_edges_with_minimum_energy] for the target record
    [target]: the first pair of lowest cost of the scan of all [size] edges
    from every edge of the walk, or the pair (0, 0) when the scan finds
    nothing. *)
Definition scan_choice (points : field vec2)
    (next_edge cycle_index : field Z) (size : Z) (target : ivec2)
    (pair : ivec2) : Prop :=
  let pairs :=
    all_pairs points next_edge cycle_index size
      (ring_walk next_edge (Z.to_nat (y2 target)) (x2 target)) in
  first_lowest all_pair_cost all_chosen_pair pairs pair \/
  (no_candidate all_pair_cost pairs /\ pair = Ivec2 0 0).

(** The walk of a record: following [next_edge] from its start edge for its
    length. It is a tour of the set [edges] when it visits every edge of the
    set once, no other edge, and ends on the start edge. *)
Definition record_walk (next_edge : field Z) (record : ivec2) : list Z :=
  ring_walk next_edge (Z.to_nat (y2 record)) (x2 record).

Definition tour (next_edge : field Z) (record : ivec2) (edges : Z -> Prop)
  : Prop :=
  NoDup (record_walk next_edge record) /\
  (forall e, In e (record_walk next_edge record) <-> edges e) /\
  Z.of_nat (length (record_walk next_edge record)) = y2 record /\
  ring_end next_edge (Z.to_nat (y2 record)) (x2 record) = x2 record.

(** ** polylines.py *)

(** State of the loops of [compute_lines]. *)
Record lines_state : Type :=
  LinesState { l_lines : field vec2; l_line_index : Z; l_point_index : Z }.

(** The body of the inner loop: the segment of one edge. *)
Definition compute_lines_edge (points : field vec2) (next_edge : field Z)
    (s : lines_state) (_ : Z) : option lines_state :=
  let line_index := l_line_index s in
  let point_index := l_point_index s in
  p <- get points point_index ;;
  lines <- set (l_lines s) line_index p ;;
  n <- get next_edge point_index ;;
  q <- get points n ;;
  lines <- set lines (line_index + 1) q ;;
  next_point <- get next_edge point_index ;;
  Some (LinesState lines (line_index + 2) next_point).

(** The body of the outer loop: the segments of one record. *)
Definition compute_lines_cycle (points : field vec2) (next_edge : field Z)
    (cycles : field ivec2) (s : lines_state) (cycle_index : Z)
  : option lines_state :=
  cycle <- get cycles cycle_index ;;
  for_each (range (y2 cycle)) (compute_lines_edge points next_edge)
           (LinesState (l_lines s) (l_line_index s) (x2 cycle)).

Definition compute_lines (lines points : field vec2) (next_edge : field Z)
    (cycles : field ivec2) : option (field vec2) :=
  s <- for_each (range (size cycles))
         (compute_lines_cycle points next_edge cycles)
         (LinesState lines 0 0) ;;
  Some (l_lines s).

Definition graph_to_polylines (points : field vec2) (next_edge : field Z)
    (cycles : field ivec2) : option (field vec2) :=
  let lines := fill (size points) (Vec2 nan nan) in
  compute_lines lines points next_edge cycles.

(** ** The polylines of a graph *)

(** The two ends of the segment of an edge: its point and the point of its
    next edge. *)
Definition segment (points : field vec2) (next_edge : field Z) (e : Z)
  : list vec2 :=
  match get points e, (n <- get next_edge e ;; get points n) with
  | Some p, Some q => [p; q]
  | _, _ => []
  end.

(** The segments of a record, along its walk, and those of a catalogue. *)
Definition polyline (points : field vec2) (next_edge : field Z)
    (record : ivec2) : list vec2 :=
  flat_map (segment points next_edge) (record_walk next_edge record).

Definition polylines (points : field vec2) (next_edge : field Z)
    (cycles : field ivec2) : list vec2 :=
  flat_map (polyline points next_edge) cycles.



(** The sum of the lengths of the records. *)
Definition total_length (cycles : field ivec2) : Z :=
  fold_right (fun record n => Z.max 0 (y2 record) + n) 0 cycles.


(** A ring of three edges and a fourth edge without pointer. *)
Definition triangle_points : field vec2 :=
  [Vec2 (itof 0) (itof 0); Vec2 (itof 1) (itof 0); Vec2 (itof 0) (itof 1);
   Vec2 nan nan].

Definition triangle_next : field Z := [1; 2; 0; -1].
(** * Edge indexing *)

Lemma edge_3d_to_1d_horizontal shape x y :
  0 <= x <= x2 shape -> 0 <= y < y2 shape ->
  edge_3d_to_1d_index shape x y 0 = x * y2 shape + y.
Proof.
  intros Hx Hy. unfold edge_3d_to_1d_index. cbn [Z.eqb].
  replace (x <? 0) with false by (symmetry; apply Z.ltb_ge; lia).
  replace (x >? x2 shape) with false by (symmetry; rewrite Z.gtb_ltb; apply Z.ltb_ge; lia).
  replace (y <? 0) with false by (symmetry; apply Z.ltb_ge; lia).
  replace (y >=? y2 shape) with false by (symmetry; rewrite Z.geb_leb; apply Z.leb_gt; lia).
  reflexivity.
Qed.

Lemma edge_3d_to_1d_vertical shape x y :
  0 <= x < x2 shape -> 0 <= y <= y2 shape ->
  edge_3d_to_1d_index shape x y 1 =
  y2 shape * (x2 shape + 1) + x * (y2 shape + 1) + y.
Proof.
  intros Hx Hy. unfold edge_3d_to_1d_index. cbn [Z.eqb].
  replace (x <? 0) with false by (symmetry; apply Z.ltb_ge; lia).
  replace (x >=? x2 shape) with false by (symmetry; rewrite Z.geb_leb; apply Z.leb_gt; lia).
  replace (y <? 0) with false by (symmetry; apply Z.ltb_ge; lia).
  replace (y >? y2 shape) with false by (symmetry; rewrite Z.gtb_ltb; apply Z.ltb_ge; lia).
  reflexivity.
Qed.

(** C7: converting a valid edge triple to its flat index and back returns the
    triple. *)
Theorem edge_index_round_trip shape x y z :
  valid_edge_3d shape x y z ->
  edge_1d_to_3d_index shape (edge_3d_to_1d_index shape x y z) = Ivec3 x y z.
Proof.
  intros [(-> & Hx & Hy) | (-> & Hx & Hy)].
  - rewrite edge_3d_to_1d_horizontal by assumption.
    unfold edge_1d_to_3d_index.
    assert (Hlt : x * y2 shape + y < y2 shape * (x2 shape + 1)) by nia.
    apply Z.ltb_lt in Hlt. rewrite Hlt.
    f_equal.
    + symmetry. apply Z.div_unique with (r := y); lia.
    + symmetry. apply Z.mod_unique with (q := x); lia.
  - rewrite edge_3d_to_1d_vertical by assumption.
    unfold edge_1d_to_3d_index.
    set (m := y2 shape * (x2 shape + 1)).
    assert (Hge : (m + x * (y2 shape + 1) + y <? m) = false)
      by (apply Z.ltb_ge; nia).
    rewrite Hge.
    replace (m + x * (y2 shape + 1) + y - m) with (x * (y2 shape + 1) + y) by lia.
    f_equal.
    + symmetry. apply Z.div_unique with (r := y); lia.
    + symmetry. apply Z.mod_unique with (q := x); lia.
Qed.

Lemma edge_index_round_trip_witness :
  valid_edge_3d (Ivec2 6 8) 5 8 1 /\
  edge_1d_to_3d_index (Ivec2 6 8) (edge_3d_to_1d_index (Ivec2 6 8) 5 8 1)
  = Ivec3 5 8 1.
Proof.
  assert (H : valid_edge_3d (Ivec2 6 8) 5 8 1) by (right; cbn; lia).
  split; [exact H | exact (edge_index_round_trip (Ivec2 6 8) 5 8 1 H)].
Defined.




(** * Binarisation *)

Lemma binarize_sign (v : float) :
  (if feq (sign v) (itof (-1)) then 0
   else if feq (sign v) (itof 0) then 1 else 1) = binary_of v.
Proof.
  unfold binary_of, sign.
  destruct v as [[] | [] | | [] m e]; reflexivity.
Qed.

(** C9: every sample is binarised on its own: 0 when it is strictly negative,
    1 otherwise; zero (of either sign) and NaN map to 1. *)
Theorem compute_binary_grid_spec (grid : field2 float) (x y : Z) :
  get2 (compute_binary_grid grid) x y = option_map binary_of (get2 grid x y)
  /\ binary_of zero = 1
  /\ binary_of (S754_zero true) = 1
  /\ binary_of nan = 1.
Proof.
  split; [| repeat split; reflexivity].
  unfold get2, compute_binary_grid. cbn [shape at2].
  destruct (in_range x (x2 (shape grid)) && in_range y (y2 (shape grid)));
    [| reflexivity].
  cbn [option_map]. f_equal. apply binarize_sign.
Qed.

(** * Fields: accesses and loops *)

Lemma in_range_iff i n : in_range i n = true <-> 0 <= i < n.
Proof. unfold in_range. rewrite andb_true_iff, Z.leb_le, Z.ltb_lt. tauto. Qed.

Lemma in_range_false i n : in_range i n = false <-> ~ (0 <= i < n).
Proof.
  rewrite <- in_range_iff. destruct (in_range i n); split; congruence.
Qed.

Lemma length_replace_nth {A} n (l : list A) v :
  length (replace_nth n l v) = length l.
Proof.
  revert n; induction l as [| h t IH]; intros [| n]; cbn; auto.
Qed.

Lemma nth_error_replace_nth_same {A} n (l : list A) v :
  (n < length l)%nat -> nth_error (replace_nth n l v) n = Some v.
Proof.
  revert n; induction l as [| h t IH]; intros [| n] Hn; cbn in *;
    try lia; auto. apply IH. lia.
Qed.

Lemma nth_error_replace_nth_other {A} n m (l : list A) v :
  n <> m -> nth_error (replace_nth n l v) m = nth_error l m.
Proof.
  revert n m; induction l as [| h t IH]; intros [| n] [| m] Hn; cbn;
    try congruence; auto.
Qed.

Lemma size_nonneg {A} (f : field A) : 0 <= size f.
Proof. unfold size. lia. Qed.

Lemma get_Some_range {A} (f : field A) i v :
  get f i = Some v -> 0 <= i < size f.
Proof.
  unfold get. destruct (in_range i (size f)) eqn:E; [| discriminate].
  intros _. now apply in_range_iff.
Qed.

Lemma get_in_range {A} (f : field A) i :
  0 <= i < size f -> exists v, get f i = Some v.
Proof.
  intros H. unfold get. rewrite (proj2 (in_range_iff _ _) H).
  destruct (nth_error f (Z.to_nat i)) eqn:E; [eauto |].
  apply nth_error_None in E. unfold size in H. lia.
Qed.

Lemma get_out_of_range {A} (f : field A) i :
  ~ (0 <= i < size f) -> get f i = None.
Proof.
  intros H. unfold get. now rewrite (proj2 (in_range_false _ _) H).
Qed.

Lemma set_Some_range {A} (f f' : field A) i v :
  set f i v = Some f' -> 0 <= i < size f.
Proof.
  unfold set. destruct (in_range i (size f)) eqn:E; [| discriminate].
  intros _. now apply in_range_iff.
Qed.

Lemma set_in_range {A} (f : field A) i v :
  0 <= i < size f -> exists f', set f i v = Some f'.
Proof.
  intros H. unfold set. rewrite (proj2 (in_range_iff _ _) H). eauto.
Qed.

Lemma size_set {A} (f f' : field A) i v :
  set f i v = Some f' -> size f' = size f.
Proof.
  unfold set. destruct (in_range i (size f)); [| discriminate].
  intros [= <-]. unfold size. now rewrite length_replace_nth.
Qed.

Lemma get_set_same {A} (f f' : field A) i v :
  set f i v = Some f' -> get f' i = Some v.
Proof.
  intros H. pose proof (set_Some_range _ _ _ _ H) as Hr.
  pose proof (size_set _ _ _ _ H) as Hs.
  unfold set in H. rewrite (proj2 (in_range_iff _ _) Hr) in H.
  injection H as <-. unfold get. rewrite Hs.
  rewrite (proj2 (in_range_iff _ _) Hr).
  apply nth_error_replace_nth_same. unfold size in Hr. lia.
Qed.

Lemma get_set_other {A} (f f' : field A) i j v :
  set f i v = Some f' -> j <> i -> get f' j = get f j.
Proof.
  intros H Hij. pose proof (set_Some_range _ _ _ _ H) as Hr.
  pose proof (size_set _ _ _ _ H) as Hs.
  unfold set in H. rewrite (proj2 (in_range_iff _ _) Hr) in H.
  injection H as <-. unfold get. rewrite Hs.
  destruct (in_range j (size f)) eqn:E; [| reflexivity].
  apply in_range_iff in E.
  apply nth_error_replace_nth_other. lia.
Qed.

Lemma size_fill {A} n (v : A) : 0 <= n -> size (fill n v) = n.
Proof. intros H. unfold size, fill. rewrite repeat_length. lia. Qed.

Lemma get_fill {A} n (v : A) i : 0 <= i < n -> get (fill n v) i = Some v.
Proof.
  intros H. unfold get. rewrite size_fill by lia.
  rewrite (proj2 (in_range_iff _ _) H). unfold fill.
  apply nth_error_repeat. lia.
Qed.

Lemma in_range_list i n : In i (range n) <-> 0 <= i < n.
Proof.
  unfold range. rewrite in_map_iff. split.
  - intros (k & <- & Hk). apply in_seq in Hk. lia.
  - intros H. exists (Z.to_nat i). split; [lia |]. apply in_seq. lia.
Qed.

Lemma in_cells sh c :
  In c (cells sh) <-> 0 <= x2 c < x2 sh /\ 0 <= y2 c < y2 sh.
Proof.
  unfold cells. rewrite in_flat_map. split.
  - intros (x & Hx & Hc). apply in_map_iff in Hc as (y & <- & Hy).
    apply in_range_list in Hx, Hy. cbn. lia.
  - intros [Hx Hy]. exists (x2 c). split; [now apply in_range_list |].
    apply in_map_iff. exists (y2 c). split; [now destruct c |].
    now apply in_range_list.
Qed.

Lemma for_each_app {A S} (l1 l2 : list A) (body : S -> A -> option S) s :
  for_each (l1 ++ l2) body s =
  (s' <- for_each l1 body s ;; for_each l2 body s').
Proof.
  revert s; induction l1 as [| a l1 IH]; intros s; cbn; [reflexivity |].
  destruct (body s a); cbn; auto.
Qed.

(** A loop whose body keeps an invariant keeps it, when it returns. *)
Lemma for_each_invariant {A S} (P : S -> Prop) (l : list A)
    (body : S -> A -> option S) s s' :
  (forall s a s', In a l -> P s -> body s a = Some s' -> P s') ->
  P s -> for_each l body s = Some s' -> P s'.
Proof.
  revert s; induction l as [| a l IH]; intros s Hb Hs; cbn.
  - now intros [= <-].
  - destruct (body s a) as [s1 |] eqn:E; cbn; [| discriminate].
    apply IH.
    + intros s2 b s3 Hin. apply Hb. now right.
    + eapply Hb; eauto. now left.
Qed.

(** A loop whose body never fails on states of the invariant returns. *)
Lemma for_each_total {A S} (P : S -> Prop) (l : list A)
    (body : S -> A -> option S) s :
  (forall s a, In a l -> P s -> exists s', body s a = Some s' /\ P s') ->
  P s -> exists s', for_each l body s = Some s' /\ P s'.
Proof.
  revert s; induction l as [| a l IH]; intros s Hb Hs; cbn.
  - eauto.
  - destruct (Hb s a (or_introl eq_refl) Hs) as (s1 & -> & H1). cbn.
    apply IH; [| assumption].
    intros s2 b Hin. apply Hb. now right.
Qed.

(** * Adjacency: the assignments of [compute_adajcency] *)

Lemma exec_sized n g a g' : sized n g -> exec g a = Some g' -> sized n g'.
Proof.
  intros [Hp Hn]. destruct a as [i v | i v]; cbn.
  - destruct (set (adj_next g) i v) as [f |] eqn:E; cbn; [| discriminate].
    intros [= <-]. split; cbn; [assumption |].
    now rewrite (size_set _ _ _ _ E).
  - destruct (set (adj_previous g) i v) as [f |] eqn:E; cbn; [| discriminate].
    intros [= <-]. split; cbn; [| assumption].
    now rewrite (size_set _ _ _ _ E).
Qed.

Lemma exec_total n g a :
  sized n g -> 0 <= snd (slot_of a) < n -> exists g', exec g a = Some g'.
Proof.
  intros [Hp Hn] Hr. destruct a as [i v | i v]; cbn in *.
  - destruct (set_in_range (adj_next g) i v) as [f ->]; [lia |]. cbn. eauto.
  - destruct (set_in_range (adj_previous g) i v) as [f ->]; [lia |]. cbn. eauto.
Qed.

Lemma exec_same g a g' :
  exec g a = Some g' -> read g' (slot_of a) = Some (value_of a).
Proof.
  destruct a as [i v | i v]; cbn.
  - destruct (set (adj_next g) i v) as [f |] eqn:E; cbn; [| discriminate].
    intros [= <-]. unfold read. cbn. eapply get_set_same; eauto.
  - destruct (set (adj_previous g) i v) as [f |] eqn:E; cbn; [| discriminate].
    intros [= <-]. unfold read. cbn. eapply get_set_same; eauto.
Qed.

Lemma exec_other g a g' s :
  exec g a = Some g' -> slot_of a <> s -> read g' s = read g s.
Proof.
  destruct s as [b j]. destruct a as [i v | i v]; cbn.
  - destruct (set (adj_next g) i v) as [f |] eqn:E; cbn; [| discriminate].
    intros [= <-] Hs. unfold read. destruct b; cbn; [| reflexivity].
    eapply get_set_other; eauto. congruence.
  - destruct (set (adj_previous g) i v) as [f |] eqn:E; cbn; [| discriminate].
    intros [= <-] Hs. unfold read. destruct b; cbn; [reflexivity |].
    eapply get_set_other; eauto. congruence.
Qed.

Lemma slot_eq_dec (s t : bool * Z) : {s = t} + {s <> t}.
Proof. decide equality; [apply Z.eq_dec | apply bool_dec]. Qed.

(** A slot no assignment of the list writes keeps its value. *)
Lemma exec_all_frame ws : forall g g' s,
  for_each ws exec g = Some g' ->
  (forall a, In a ws -> slot_of a <> s) ->
  read g' s = read g s.
Proof.
  induction ws as [| a ws IH]; intros g g' s; cbn.
  - now intros [= <-].
  - destruct (exec g a) as [g1 |] eqn:E; cbn; [| discriminate].
    intros H Hs. rewrite (IH _ _ _ H) by (intros; apply Hs; now right).
    eapply exec_other; eauto.
Qed.

(** When all the assignments to a slot agree on the value, the slot holds
    that value in the end. *)
Lemma exec_all_last ws : forall g g' a,
  for_each ws exec g = Some g' ->
  In a ws ->
  (forall a', In a' ws -> slot_of a' = slot_of a -> value_of a' = value_of a) ->
  read g' (slot_of a) = Some (value_of a).
Proof.
  induction ws as [| w ws IH]; intros g g' a; cbn; [contradiction |].
  destruct (exec g w) as [g1 |] eqn:E; cbn; [| discriminate].
  intros H Hin Hag.
  destruct (in_dec slot_eq_dec (slot_of a) (map slot_of ws)) as [Hw | Hw].
  - apply in_map_iff in Hw as (a' & Hs & Ha').
    rewrite <- Hs, <- (Hag a' (or_intror Ha') Hs).
    apply (IH g1); auto.
    intros a'' Hin'' Hs''. rewrite (Hag a' (or_intror Ha') Hs).
    apply Hag; [now right | congruence].
  - rewrite (exec_all_frame _ _ _ _ H).
    + destruct Hin as [<- | Hin].
      * eapply exec_same; eauto.
      * exfalso. apply Hw. now apply in_map.
    + intros a' Ha' Hs. apply Hw. rewrite <- Hs. now apply in_map.
Qed.

Lemma exec_all_total n ws : forall g,
  sized n g ->
  (forall a, In a ws -> 0 <= snd (slot_of a) < n) ->
  exists g', for_each ws exec g = Some g' /\ sized n g'.
Proof.
  intros g Hg Hr.
  apply for_each_total with (P := sized n); [| assumption].
  intros s a Hin Hs. destruct (exec_total n s a Hs (Hr a Hin)) as [s' E].
  exists s'. split; [assumption |]. eapply exec_sized; eauto.
Qed.

(** ** The case table *)

Lemma bit_cases (b : Z) : b = 0 \/ b = 1 -> {b = 0} + {b = 1}.
Proof. intros H. destruct (Z.eq_dec b 0); [left | right]; lia. Qed.

Ltac split_bits :=
  repeat match goal with
         | H : ?b = 0 \/ ?b = 1 |- _ =>
             destruct (bit_cases b H); clear H; subst b
         end.

(** The side a link leaves from and the side it goes to carry the patterns of
    their role. *)
Lemma links_patterns b0 b1 b2 b3 gt0 lt0 a b :
  (b0 = 0 \/ b0 = 1) -> (b1 = 0 \/ b1 = 1) ->
  (b2 = 0 \/ b2 = 1) -> (b3 = 0 \/ b3 = 1) ->
  In (a, b) (links (configuration_of b0 b1 b2 b3) gt0 lt0) ->
  ends_bits a b0 b1 b2 b3 = source_bits a /\
  ends_bits b b0 b1 b2 b3 = target_bits b.
Proof.
  intros H0 H1 H2 H3. split_bits; destruct gt0, lt0; cbn;
    intros Hin; repeat destruct Hin as [[= <- <-] | Hin];
    try contradiction; split; reflexivity.
Qed.

(** In one configuration no two links leave from the same side and no two
    go to the same side. *)
Lemma links_functional c gt0 lt0 a b a' b' :
  0 <= c <= 15 ->
  In (a, b) (links c gt0 lt0) -> In (a', b') (links c gt0 lt0) ->
  (a = a' -> b = b') /\ (b = b' -> a = a').
Proof.
  intros Hc.
  assert (Hcases : c = 0 \/ c = 1 \/ c = 2 \/ c = 3 \/ c = 4 \/ c = 5 \/
                   c = 6 \/ c = 7 \/ c = 8 \/ c = 9 \/ c = 10 \/ c = 11 \/
                   c = 12 \/ c = 13 \/ c = 14 \/ c = 15) by lia.
  repeat destruct Hcases as [-> | Hcases]; try subst c;
    destruct gt0, lt0; cbn;
    intros Hin Hin';
    repeat destruct Hin as [[= <- <-] | Hin]; try contradiction;
    repeat destruct Hin' as [[= <- <-] | Hin']; try contradiction;
    split; congruence.
Qed.

(** In the configurations 0 and 15 the two ends of every side agree. *)
Lemma uniform_bits b0 b1 b2 b3 s :
  (b0 = 0 \/ b0 = 1) -> (b1 = 0 \/ b1 = 1) ->
  (b2 = 0 \/ b2 = 1) -> (b3 = 0 \/ b3 = 1) ->
  configuration_of b0 b1 b2 b3 = 0 \/ configuration_of b0 b1 b2 b3 = 15 ->
  fst (ends_bits s b0 b1 b2 b3) = snd (ends_bits s b0 b1 b2 b3).
Proof.
  intros H0 H1 H2 H3. split_bits; cbn; intros [H | H]; try discriminate H;
    destruct s; reflexivity.
Qed.

Lemma side_eq_dec (s t : side) : {s = t} + {s <> t}.
Proof. decide equality. Qed.

Lemma source_target_distinct s : source_bits s <> target_bits s.
Proof. destruct s; discriminate. Qed.

Lemma source_bits_differ s : fst (source_bits s) <> snd (source_bits s).
Proof. destruct s; discriminate. Qed.

Lemma target_bits_differ s : fst (target_bits s) <> snd (target_bits s).
Proof. destruct s; discriminate. Qed.

(** ** Geometry of the flat edge indices *)

Lemma edge_of_in_range sh cell s :
  interior_cell sh cell -> 0 <= edge_of sh cell s < edge_fields_shape sh.
Proof.
  intros [Hx Hy]. unfold edge_of, edge_fields_shape, index2d_to_edge_index.
  destruct s; cbn; nia.
Qed.

Lemma euclid_unique n a b a' b' :
  0 <= b < n -> 0 <= b' < n -> a * n + b = a' * n + b' -> a = a' /\ b = b'.
Proof.
  intros Hb Hb' E.
  assert (a = a') by nia. subst. lia.
Qed.

(** Two sides of two cells with the same flat index are the same edge of the
    grid; they are the same side of the same cell, or opposite sides of two
    neighbours. *)
Lemma edge_of_collision sh A B s t :
  interior_cell sh A -> interior_cell sh B ->
  edge_of sh A s = edge_of sh B t ->
  edge_ends A s = edge_ends B t /\
  (s = t -> A = B) /\
  (s <> t -> forward s <> forward t).
Proof.
  intros [HxA HyA] [HxB HyB].
  destruct A as [x y], B as [x' y'], sh as [W H]. cbn in *.
  unfold edge_of, index2d_to_edge_index, edge_ends.
  assert (Hh : forall u v, 0 <= u <= W - 1 -> 0 <= v < H - 1 ->
                           u * H + v < H * (W + 1)) by (intros; nia).
  pose proof (Hh x y ltac:(lia) ltac:(lia)) as H1.
  pose proof (Hh (x + 1) y ltac:(lia) ltac:(lia)) as H2.
  pose proof (Hh x' y' ltac:(lia) ltac:(lia)) as H3.
  pose proof (Hh (x' + 1) y' ltac:(lia) ltac:(lia)) as H4.
  destruct s, t; cbn; intros E.
  (* a horizontal and a vertical edge never share an index *)
  all: try (exfalso; nia).
  (* two horizontal edges *)
  all: try (destruct (euclid_unique H x y x' y') as [-> ->];
            [lia | lia | lia |]).
  all: try (destruct (euclid_unique H x y (x' + 1) y') as [-> ->];
            [lia | lia | lia |]).
  all: try (destruct (euclid_unique H (x + 1) y x' y') as [<- ->];
            [lia | lia | lia |]).
  all: try (destruct (euclid_unique H (x + 1) y (x' + 1) y') as [Hx ->];
            [lia | lia | lia |]; assert (x = x') by lia; subst x').
  (* two vertical edges *)
  all: try (destruct (euclid_unique (H + 1) x y x' y') as [-> ->];
            [lia | lia | lia |]).
  all: try (destruct (euclid_unique (H + 1) x y x' (y' + 1)) as [-> ->];
            [lia | lia | lia |]).
  all: try (destruct (euclid_unique (H + 1) x (y + 1) x' y') as [-> <-];
            [lia | lia | lia |]).
  all: try (destruct (euclid_unique (H + 1) x (y + 1) x' (y' + 1)) as [-> Hy];
            [lia | lia | lia |]; assert (y = y') by lia; subst y').
  all: repeat split; try congruence; try discriminate.
Qed.

(** ** The cells of a grid *)

Lemma bit_at_cases grid p : bit_at grid p = 0 \/ bit_at grid p = 1.
Proof. unfold bit_at, binary_of. destruct (flt _ _); auto. Qed.

Lemma get2_binary grid x y :
  0 <= x < x2 (shape grid) -> 0 <= y < y2 (shape grid) ->
  get2 (compute_binary_grid grid) x y = Some (bit_at grid (x, y)).
Proof.
  intros Hx Hy. unfold get2, compute_binary_grid. cbn [shape at2].
  rewrite (proj2 (in_range_iff _ _) Hx), (proj2 (in_range_iff _ _) Hy).
  cbn. f_equal. apply binarize_sign.
Qed.

Lemma get2_grid (grid : field2 float) x y :
  0 <= x < x2 (shape grid) -> 0 <= y < y2 (shape grid) ->
  get2 grid x y = Some (at2 grid x y).
Proof.
  intros Hx Hy. unfold get2.
  now rewrite (proj2 (in_range_iff _ _) Hx), (proj2 (in_range_iff _ _) Hy).
Qed.

Lemma cell_configuration_interior grid cell :
  interior_cell (shape grid) cell ->
  cell_configuration (compute_binary_grid grid) cell
  = Some (configuration_at grid cell).
Proof.
  intros [Hx Hy]. unfold cell_configuration.
  rewrite !get2_binary by lia. reflexivity.
Qed.

Lemma average_value_interior grid cell :
  interior_cell (shape grid) cell ->
  exists average, average_value grid cell = Some average.
Proof.
  intros [Hx Hy]. unfold average_value.
  rewrite !get2_grid by lia. cbn. eauto.
Qed.

Lemma configuration_at_range grid cell :
  0 <= configuration_at grid cell <= 15.
Proof.
  unfold configuration_at, configuration_of.
  pose proof (bit_at_cases grid (x2 cell, y2 cell)).
  pose proof (bit_at_cases grid (x2 cell, y2 cell + 1)).
  pose proof (bit_at_cases grid (x2 cell + 1, y2 cell + 1)).
  pose proof (bit_at_cases grid (x2 cell + 1, y2 cell)).
  lia.
Qed.

(** The branches of [compute_adajcency], read as a table. *)
Lemma adjacency_assigns_form grid cell average :
  interior_cell (shape grid) cell ->
  average_value grid cell = Some average ->
  adjacency_assigns grid (compute_binary_grid grid) cell =
  Some (let c := configuration_at grid cell in
        if (c =? 0) || (c =? 15) then clear_assigns (shape grid) cell
        else flat_map (link_assigns (shape grid) cell)
                      (links c (flt zero average) (flt average zero))).
Proof.
  intros Hi Ha. unfold adjacency_assigns.
  rewrite (cell_configuration_interior _ _ Hi). cbn [bind].
  pose proof (configuration_at_range grid cell) as Hc.
  set (c := configuration_at grid cell) in *. clearbody c.
  assert (Hcases : c = 0 \/ c = 1 \/ c = 2 \/ c = 3 \/ c = 4 \/ c = 5 \/
                   c = 6 \/ c = 7 \/ c = 8 \/ c = 9 \/ c = 10 \/ c = 11 \/
                   c = 12 \/ c = 13 \/ c = 14 \/ c = 15) by lia.
  repeat destruct Hcases as [-> | Hcases]; try subst c;
    cbn -[average_value flt]; try reflexivity;
    rewrite Ha; cbn -[flt]; destruct (flt _ _); reflexivity.
Qed.

Lemma interior_of_loop sh cell :
  In cell (cells sh) -> not_border sh cell = true -> interior_cell sh cell.
Proof.
  intros Hin Hb. apply in_cells in Hin. unfold not_border in Hb.
  apply andb_true_iff in Hb as [Hx Hy].
  apply negb_true_iff, Z.eqb_neq in Hx, Hy. unfold interior_cell. lia.
Qed.

Lemma interior_in_loop sh cell :
  interior_cell sh cell -> In cell (cells sh) /\ not_border sh cell = true.
Proof.
  intros [Hx Hy]. split; [apply in_cells; lia |].
  unfold not_border. apply andb_true_iff.
  split; apply negb_true_iff, Z.eqb_neq; lia.
Qed.

Lemma cell_assigns_written grid cell a :
  In cell (cells (shape grid)) ->
  In a (cell_assigns grid (compute_binary_grid grid) cell) ->
  interior_cell (shape grid) cell /\ written_by grid cell a.
Proof.
  intros Hin. unfold cell_assigns. cbn [compute_binary_grid shape].
  destruct (not_border (shape grid) cell) eqn:Hb; [| contradiction].
  pose proof (interior_of_loop _ _ Hin Hb) as Hi.
  destruct (average_value_interior grid cell Hi) as [average Ha].
  rewrite (adjacency_assigns_form grid cell average Hi Ha).
  cbv zeta. intros Hw. split; [assumption |]. unfold written_by. cbv zeta.
  destruct ((configuration_at grid cell =? 0) || (configuration_at grid cell =? 15)) eqn:E.
  - left. split.
    + apply orb_true_iff in E as [E | E]; apply Z.eqb_eq in E; auto.
    + unfold clear_assigns in Hw. apply in_flat_map in Hw as (s & _ & Hs).
      exists s. destruct Hs as [<- | [<- | []]]; auto.
  - right. apply in_flat_map in Hw as (l & Hl & Hs).
    exists l, average. split; [assumption |]. split; [assumption |].
    destruct Hs as [<- | [<- | []]]; auto.
Qed.

Lemma all_assigns_written grid a :
  In a (all_assigns grid (compute_binary_grid grid)) ->
  exists cell, interior_cell (shape grid) cell /\ written_by grid cell a.
Proof.
  unfold all_assigns. cbn [compute_binary_grid shape].
  intros H. apply in_flat_map in H as (cell & Hc & Ha).
  exists cell. now apply cell_assigns_written.
Qed.

Lemma written_in_all grid cell a :
  interior_cell (shape grid) cell ->
  (exists ws, adjacency_assigns grid (compute_binary_grid grid) cell = Some ws
              /\ In a ws) ->
  In a (all_assigns grid (compute_binary_grid grid)).
Proof.
  intros Hi (ws & Hws & Ha). unfold all_assigns. apply in_flat_map.
  exists cell. destruct (interior_in_loop _ _ Hi) as [Hc Hb].
  split; [exact Hc |]. unfold cell_assigns. cbn [compute_binary_grid shape].
  rewrite Hb, Hws. exact Ha.
Qed.

(** ** All the assignments to one slot agree *)

Lemma side_bits_ends grid cell s :
  side_bits grid cell s =
  ends_bits s (bit_at grid (x2 cell, y2 cell))
              (bit_at grid (x2 cell, y2 cell + 1))
              (bit_at grid (x2 cell + 1, y2 cell + 1))
              (bit_at grid (x2 cell + 1, y2 cell)).
Proof. destruct s; reflexivity. Qed.

Lemma side_bits_uniform grid cell s :
  configuration_at grid cell = 0 \/ configuration_at grid cell = 15 ->
  fst (side_bits grid cell s) = snd (side_bits grid cell s).
Proof.
  intros H. rewrite side_bits_ends.
  apply uniform_bits; auto using bit_at_cases.
Qed.

Lemma side_bits_link grid cell gt0 lt0 a b :
  In (a, b) (links (configuration_at grid cell) gt0 lt0) ->
  side_bits grid cell a = source_bits a /\
  side_bits grid cell b = target_bits b.
Proof.
  intros H. rewrite !side_bits_ends.
  eapply links_patterns; eauto using bit_at_cases.
Qed.

Lemma side_bits_collision grid A B s t :
  interior_cell (shape grid) A -> interior_cell (shape grid) B ->
  edge_of (shape grid) A s = edge_of (shape grid) B t ->
  side_bits grid A s = side_bits grid B t.
Proof.
  intros HA HB E. unfold side_bits.
  now destruct (edge_of_collision _ _ _ _ _ HA HB E) as (-> & _).
Qed.

Lemma source_bits_forward s t : source_bits s = source_bits t -> forward s = forward t.
Proof. destruct s, t; cbn; congruence. Qed.

Lemma target_bits_forward s t : target_bits s = target_bits t -> forward s = forward t.
Proof. destruct s, t; cbn; congruence. Qed.

(** Two links that leave from the same edge of the grid are the same link of
    the same cell. *)
Lemma links_same_source grid A B avA avB a b a' b' :
  interior_cell (shape grid) A -> interior_cell (shape grid) B ->
  average_value grid A = Some avA -> average_value grid B = Some avB ->
  In (a, b) (links (configuration_at grid A) (flt zero avA) (flt avA zero)) ->
  In (a', b') (links (configuration_at grid B) (flt zero avB) (flt avB zero)) ->
  edge_of (shape grid) A a = edge_of (shape grid) B a' ->
  A = B /\ a = a' /\ b = b'.
Proof.
  intros HA HB EA EB La Lb E.
  pose proof (side_bits_collision grid A B a a' HA HB E) as Hbits.
  destruct (side_bits_link _ _ _ _ _ _ La) as [Sa _].
  destruct (side_bits_link _ _ _ _ _ _ Lb) as [Sb _].
  destruct (edge_of_collision _ _ _ _ _ HA HB E) as (_ & Hsame & Hdiff).
  assert (Haa : a = a').
  { destruct (side_eq_dec a a') as [? | Hne]; [assumption |].
    exfalso. apply (Hdiff Hne). apply source_bits_forward. congruence. }
  subst a'. specialize (Hsame eq_refl). subst B.
  assert (avA = avB) by congruence. subst avB.
  repeat split.
  now apply (proj1 (links_functional _ _ _ _ _ _ _
                      (configuration_at_range grid A) La Lb)).
Qed.

(** Two links that go to the same edge of the grid are the same link of the
    same cell. *)
Lemma links_same_target grid A B avA avB a b a' b' :
  interior_cell (shape grid) A -> interior_cell (shape grid) B ->
  average_value grid A = Some avA -> average_value grid B = Some avB ->
  In (a, b) (links (configuration_at grid A) (flt zero avA) (flt avA zero)) ->
  In (a', b') (links (configuration_at grid B) (flt zero avB) (flt avB zero)) ->
  edge_of (shape grid) A b = edge_of (shape grid) B b' ->
  A = B /\ a = a' /\ b = b'.
Proof.
  intros HA HB EA EB La Lb E.
  pose proof (side_bits_collision grid A B b b' HA HB E) as Hbits.
  destruct (side_bits_link _ _ _ _ _ _ La) as [_ Sa].
  destruct (side_bits_link _ _ _ _ _ _ Lb) as [_ Sb].
  destruct (edge_of_collision _ _ _ _ _ HA HB E) as (_ & Hsame & Hdiff).
  assert (Hbb : b = b').
  { destruct (side_eq_dec b b') as [? | Hne]; [assumption |].
    exfalso. apply (Hdiff Hne). apply target_bits_forward. congruence. }
  subst b'. specialize (Hsame eq_refl). subst B.
  assert (avA = avB) by congruence. subst avB.
  repeat split.
  now apply (proj2 (links_functional _ _ _ _ _ _ _
                      (configuration_at_range grid A) La Lb)).
Qed.

(** An edge of a cell in configuration 0 or 15 is the end of no link. *)
Lemma uniform_no_link grid A B avB s a b :
  interior_cell (shape grid) A -> interior_cell (shape grid) B ->
  configuration_at grid A = 0 \/ configuration_at grid A = 15 ->
  In (a, b) (links (configuration_at grid B) (flt zero avB) (flt avB zero)) ->
  edge_of (shape grid) A s <> edge_of (shape grid) B a /\
  edge_of (shape grid) A s <> edge_of (shape grid) B b.
Proof.
  intros HA HB Hu Lb.
  pose proof (side_bits_uniform grid A s Hu) as Hs.
  destruct (side_bits_link _ _ _ _ _ _ Lb) as [Sa Sb].
  split; intros E;
    rewrite (side_bits_collision grid A B _ _ HA HB E) in Hs.
  - rewrite Sa in Hs. now apply (source_bits_differ a).
  - rewrite Sb in Hs. now apply (target_bits_differ b).
Qed.

Lemma written_consistent grid A B a a' :
  interior_cell (shape grid) A -> interior_cell (shape grid) B ->
  written_by grid A a -> written_by grid B a' ->
  slot_of a = slot_of a' -> value_of a = value_of a'.
Proof.
  intros HA HB WA WB.
  destruct WA as [(Hu & s & Hs) | ([la lb] & avA & EA & La & Hl)];
  destruct WB as [(Hu' & s' & Hs') | ([la' lb'] & avB & EB & Lb & Hl')];
  cbn [fst snd] in *.
  - destruct Hs as [-> | ->], Hs' as [-> | ->]; cbn; congruence.
  - destruct (uniform_no_link grid A B avB s la' lb' HA HB Hu Lb) as [N1 N2].
    destruct Hs as [-> | ->], Hl' as [-> | ->]; cbn; congruence.
  - destruct (uniform_no_link grid B A avA s' la lb HB HA Hu' La) as [N1 N2].
    destruct Hl as [-> | ->], Hs' as [-> | ->]; cbn; congruence.
  - destruct Hl as [-> | ->], Hl' as [-> | ->]; cbn; try congruence;
      intros [= E].
    + destruct (links_same_source grid A B avA avB _ _ _ _ HA HB EA EB La Lb E)
        as (-> & -> & ->). reflexivity.
    + destruct (links_same_target grid A B avA avB _ _ _ _ HA HB EA EB La Lb E)
        as (-> & -> & ->). reflexivity.
Qed.

Lemma all_assigns_consistent grid a a' :
  In a (all_assigns grid (compute_binary_grid grid)) ->
  In a' (all_assigns grid (compute_binary_grid grid)) ->
  slot_of a' = slot_of a -> value_of a' = value_of a.
Proof.
  intros Ha Ha' Hs.
  destruct (all_assigns_written grid a Ha) as (A & HA & WA).
  destruct (all_assigns_written grid a' Ha') as (B & HB & WB).
  exact (written_consistent grid B A a' a HB HA WB WA Hs).
Qed.

(** ** The final state of the kernel *)

Lemma compute_adajcency_flat grid binary_grid l : forall g,
  (forall cell, In cell l -> not_border (shape binary_grid) cell = true ->
                exists ws, adjacency_assigns grid binary_grid cell = Some ws) ->
  for_each l (compute_adajcency_cell grid binary_grid) g =
  for_each (flat_map (cell_assigns grid binary_grid) l) exec g.
Proof.
  induction l as [| cell l IH]; intros g Hl; cbn; [reflexivity |].
  rewrite for_each_app.
  unfold compute_adajcency_cell at 1, cell_assigns at 1.
  destruct (not_border (shape binary_grid) cell) eqn:Hb.
  - destruct (Hl cell (or_introl eq_refl) Hb) as [ws ->]. cbn [bind].
    destruct (for_each ws exec g) as [g1 |]; cbn; [| reflexivity].
    apply IH. intros c Hc. apply Hl. now right.
  - cbn. apply IH. intros c Hc. apply Hl. now right.
Qed.

Lemma written_in_range grid cell a :
  interior_cell (shape grid) cell -> written_by grid cell a ->
  0 <= snd (slot_of a) < edge_fields_shape (shape grid).
Proof.
  intros Hi [(_ & s & [-> | ->]) | (l & av & _ & _ & [-> | ->])]; cbn;
    now apply edge_of_in_range.
Qed.

(** [compute_adajcency] returns on every grid; a slot some cell assigns holds
    the value assigned, and every other slot keeps the initial -1. *)
Lemma extract_adjacency_final grid :
  exists g,
    extract_adjacency grid = Some g /\
    sized (size (fill (edge_fields_shape (shape grid)) (-1))) g /\
    (forall a, In a (all_assigns grid (compute_binary_grid grid)) ->
               read g (slot_of a) = Some (value_of a)) /\
    (forall s, 0 <= snd s < edge_fields_shape (shape grid) ->
               (forall a, In a (all_assigns grid (compute_binary_grid grid)) ->
                          slot_of a <> s) ->
               read g s = Some (-1)).
Proof.
  unfold extract_adjacency, compute_adajcency. cbn [compute_binary_grid shape].
  set (E := edge_fields_shape (shape grid)).
  set (g0 := Adjacency (fill E (-1)) (fill E (-1))).
  rewrite (compute_adajcency_flat grid (compute_binary_grid grid)).
  2:{ intros cell Hc Hb. cbn [compute_binary_grid shape] in Hb.
      pose proof (interior_of_loop _ _ Hc Hb) as Hi.
      destruct (average_value_interior grid cell Hi) as [av Ha].
      rewrite (adjacency_assigns_form grid cell av Hi Ha). eauto. }
  fold (all_assigns grid (compute_binary_grid grid)).
  assert (Hsz : sized (size (fill E (-1))) g0) by (split; reflexivity).
  assert (Hr : forall a, In a (all_assigns grid (compute_binary_grid grid)) ->
                         0 <= snd (slot_of a) < size (fill E (-1))).
  { intros a Ha. destruct (all_assigns_written grid a Ha) as (cell & Hi & Hw).
    pose proof (written_in_range grid cell a Hi Hw) as Hlt. fold E in Hlt.
    rewrite size_fill by lia. exact Hlt. }
  destruct (exec_all_total _ _ g0 Hsz Hr) as (g & Hg & Hsg).
  exists g. split; [exact Hg |]. split; [exact Hsg |]. split.
  - intros a Ha. apply (exec_all_last _ _ _ _ Hg Ha).
    intros a' Ha'. exact (all_assigns_consistent grid a a' Ha Ha').
  - intros s Hs Hn. rewrite (exec_all_frame _ _ _ _ Hg Hn).
    unfold read, g0. destruct (fst s); cbn; apply get_fill; lia.
Qed.

(** * The marching-squares table *)





(** * The saddle cells *)




(** * The pair invariant *)

Lemma written_by_in_all grid cell a :
  interior_cell (shape grid) cell -> written_by grid cell a ->
  In a (all_assigns grid (compute_binary_grid grid)).
Proof.
  intros Hi Hw. apply (written_in_all grid cell a Hi).
  destruct Hw as [(Hu & s & Hs) | (l & av & Hav & Hl & Hs)].
  - destruct (average_value_interior grid cell Hi) as [av Hav].
    eexists. split; [apply (adjacency_assigns_form grid cell av Hi Hav) |].
    cbv zeta.
    replace ((configuration_at grid cell =? 0)
             || (configuration_at grid cell =? 15)) with true
      by (symmetry; apply orb_true_iff; destruct Hu as [-> | ->]; auto).
    unfold clear_assigns. apply in_flat_map. exists s.
    split; [destruct s; cbn; tauto |].
    destruct Hs as [-> | ->]; cbn; tauto.
  - eexists. split; [apply (adjacency_assigns_form grid cell av Hi Hav) |].
    cbv zeta.
    destruct ((configuration_at grid cell =? 0)
              || (configuration_at grid cell =? 15)) eqn:E.
    + exfalso. apply orb_true_iff in E.
      destruct E as [E | E]; apply Z.eqb_eq in E; rewrite E in Hl;
        destruct (flt zero av), (flt av zero); cbn in Hl; contradiction.
    + apply in_flat_map. exists l. split; [assumption |].
      unfold link_assigns. destruct Hs as [-> | ->]; cbn; tauto.
Qed.

(** A pointer that is set in the final fields was assigned by a link. *)
Lemma final_pointer_link grid g s v :
  (forall a, In a (all_assigns grid (compute_binary_grid grid)) ->
             read g (slot_of a) = Some (value_of a)) ->
  (forall s, 0 <= snd s < edge_fields_shape (shape grid) ->
             (forall a, In a (all_assigns grid (compute_binary_grid grid)) ->
                        slot_of a <> s) ->
             read g s = Some (-1)) ->
  0 <= snd s < edge_fields_shape (shape grid) ->
  read g s = Some v -> v <> -1 ->
  exists cell l average,
    interior_cell (shape grid) cell /\
    average_value grid cell = Some average /\
    In l (links (configuration_at grid cell)
                (flt zero average) (flt average zero)) /\
    ((s = (true, edge_of (shape grid) cell (fst l)) /\
      v = edge_of (shape grid) cell (snd l)) \/
     (s = (false, edge_of (shape grid) cell (snd l)) /\
      v = edge_of (shape grid) cell (fst l))).
Proof.
  intros Hw Hf Hr Hv Hne.
  destruct (in_dec slot_eq_dec s
              (map slot_of (all_assigns grid (compute_binary_grid grid))))
    as [Hin | Hout].
  - apply in_map_iff in Hin as (a & Hs & Ha).
    pose proof (Hw a Ha) as Hread. rewrite Hs, Hv in Hread.
    injection Hread as Hval.
    destruct (all_assigns_written grid a Ha) as (cell & Hi & Hwr).
    destruct Hwr as [(_ & t & [-> | ->]) | (l & av & Hav & Hl & Hcase)];
      try (cbn in Hval; congruence).
    exists cell, l, av. repeat (split; [assumption |]).
    destruct Hcase as [-> | ->]; cbn in Hs, Hval; subst; auto.
  - exfalso. apply Hne.
    assert (E : read g s = Some (-1)).
    { apply Hf; [assumption |]. intros a Ha E. apply Hout.
      rewrite <- E. now apply in_map. }
    congruence.
Qed.

Lemma extract_adjacency_pair_invariant grid :
  exists g, extract_adjacency grid = Some g /\
            pair_invariant (adj_next g) (adj_previous g).
Proof.
  destruct (extract_adjacency_final grid) as (g & Hg & Hsz & Hw & Hf).
  exists g. split; [exact Hg |].
  assert (Hrange : forall b i v, read g (b, i) = Some v ->
            v <> -1 -> 0 <= i < edge_fields_shape (shape grid)).
  { intros b i v Hv Hne. unfold read in Hv. cbn in Hv.
    apply get_Some_range in Hv. destruct Hsz as [Hp Hn].
    assert (Hi : 0 <= i < size (fill (edge_fields_shape (shape grid)) (-1) : field Z))
      by (destruct b; [rewrite <- Hn | rewrite <- Hp]; exact Hv).
    unfold size, fill in Hi. rewrite repeat_length in Hi. lia. }
  split.
  - intros i j Hij Hne.
    assert (Hr := Hrange true i j Hij Hne).
    destruct (final_pointer_link grid g (true, i) j Hw Hf Hr Hij Hne)
      as (cell & l & av & Hi & Hav & Hl & [[Hs ->] | [Hs _]]);
      [| discriminate Hs].
    injection Hs as ->.
    apply (Hw (SetPrev (edge_of (shape grid) cell (snd l))
                       (edge_of (shape grid) cell (fst l)))).
    apply (written_by_in_all grid cell _ Hi). right. exists l, av. auto.
  - intros i p Hip Hne.
    assert (Hr := Hrange false i p Hip Hne).
    destruct (final_pointer_link grid g (false, i) p Hw Hf Hr Hip Hne)
      as (cell & l & av & Hi & Hav & Hl & [[Hs _] | [Hs ->]]);
      [discriminate Hs |].
    injection Hs as ->.
    apply (Hw (SetNext (edge_of (shape grid) cell (fst l))
                       (edge_of (shape grid) cell (snd l)))).
    apply (written_by_in_all grid cell _ Hi). right. exists l, av. auto.
Qed.

(** ** The splice of [stitch_two_cycles] *)

Ltac inv_bind H :=
  repeat match type of H with
         | bind ?m _ = Some _ =>
             let E := fresh "E" in
             destruct m eqn:E; cbn [bind] in H; [| discriminate H]
         end.

Lemma get_set_set {A} (f f1 f2 : field A) a b v w k :
  set f a v = Some f1 -> set f1 b w = Some f2 ->
  get f2 k = if k =? b then Some w
             else if k =? a then Some v else get f k.
Proof.
  intros H1 H2.
  destruct (Z.eqb_spec k b) as [-> | Hb];
    [now apply (get_set_same _ _ _ _ H2) |].
  rewrite (get_set_other _ _ _ _ _ H2 Hb).
  destruct (Z.eqb_spec k a) as [-> | Ha];
    [now apply (get_set_same _ _ _ _ H1) |].
  now apply (get_set_other _ _ _ _ _ H1 Ha).
Qed.

(** The four pointer assignments of a splice keep the pair invariant. *)
Lemma splice_pair_invariant (next prev n1 n2 p1 p2 : field Z) i1 i2 j1 j2 :
  pair_invariant next prev ->
  get next i1 = Some i2 -> get next j1 = Some j2 ->
  set next i1 j2 = Some n1 -> set prev i2 j1 = Some p1 ->
  set n1 j1 i2 = Some n2 -> set p1 j2 i1 = Some p2 ->
  pair_invariant n2 p2.
Proof.
  intros [Hnp Hpn] Hi Hj Sn1 Sp1 Sn2 Sp2.
  pose proof (set_Some_range _ _ _ _ Sp1) as Ri2.
  pose proof (set_Some_range _ _ _ _ Sp2) as Rj2.
  rewrite (size_set _ _ _ _ Sp1) in Rj2.
  assert (Pi : get prev i2 = Some i1) by (apply Hnp; [assumption | lia]).
  assert (Pj : get prev j2 = Some j1) by (apply Hnp; [assumption | lia]).
  split.
  - intros k m Hk Hm.
    rewrite (get_set_set _ _ _ _ _ _ _ _ Sn1 Sn2) in Hk.
    rewrite (get_set_set _ _ _ _ _ _ _ _ Sp1 Sp2).
    destruct (Z.eqb_spec k j1) as [-> | Hkj].
    + injection Hk as <-.
      destruct (Z.eqb_spec i2 j2) as [E | _]; [| now rewrite Z.eqb_refl].
      f_equal. rewrite E in Pi. congruence.
    + destruct (Z.eqb_spec k i1) as [-> | Hki].
      * injection Hk as <-. now rewrite Z.eqb_refl.
      * pose proof (Hnp _ _ Hk Hm) as Pm.
        destruct (Z.eqb_spec m j2) as [-> | _]; [congruence |].
        destruct (Z.eqb_spec m i2) as [-> | _]; [congruence |].
        exact Pm.
  - intros k p Hk Hp.
    rewrite (get_set_set _ _ _ _ _ _ _ _ Sp1 Sp2) in Hk.
    rewrite (get_set_set _ _ _ _ _ _ _ _ Sn1 Sn2).
    destruct (Z.eqb_spec k j2) as [-> | Hkj].
    + injection Hk as <-.
      destruct (Z.eqb_spec i1 j1) as [E | _]; [| now rewrite Z.eqb_refl].
      f_equal. rewrite E in Hi. congruence.
    + destruct (Z.eqb_spec k i2) as [-> | Hki].
      * injection Hk as <-. now rewrite Z.eqb_refl.
      * pose proof (Hpn _ _ Hk Hp) as Np.
        destruct (Z.eqb_spec p j1) as [-> | _]; [congruence |].
        destruct (Z.eqb_spec p i1) as [-> | _]; [congruence |].
        exact Np.
Qed.

Lemma stitch_two_cycles_pair_invariant fuel g edges g' :
  pair_invariant (next_edge g) (previous_edge g) ->
  stitch_two_cycles fuel g edges = Some g' ->
  pair_invariant (next_edge g') (previous_edge g').
Proof.
  intros Hinv H. unfold stitch_two_cycles in H. cbn [x2 y2] in H.
  inv_bind H. injection H as <-. cbn [next_edge previous_edge].
  match goal with
  | Hi : get (next_edge g) (x2 edges) = Some ?i2,
    Hj : get (next_edge g) (y2 edges) = Some ?j2,
    Sn1 : set (next_edge g) (x2 edges) ?j2 = Some ?n1,
    Sp1 : set (previous_edge g) ?i2 (y2 edges) = Some ?p1,
    Sn2 : set ?n1 (y2 edges) ?i2 = Some ?n2,
    Sp2 : set ?p1 ?j2 (x2 edges) = Some ?p2 |- _ =>
      exact (splice_pair_invariant _ _ _ _ _ _ _ _ _ _ Hinv Hi Hj Sn1 Sp1 Sn2 Sp2)
  end.
Qed.

Lemma stitching_step_pair_invariant fuel energies shape g k g' :
  pair_invariant (next_edge g) (previous_edge g) ->
  stitching_step fuel energies shape g k = Some g' ->
  pair_invariant (next_edge g') (previous_edge g').
Proof.
  intros Hinv H. unfold stitching_step in H. inv_bind H.
  eapply stitch_two_cycles_pair_invariant; eauto.
Qed.

(** C4, as stated, after the extraction of a contour that enters through the
    border: the left edge of the only cell has a next pointer and no previous
    one, so that [next_edge[prev_edge[i]] == i] fails on it. *)
Lemma stated_pair_invariant_fails :
  exists g,
    extract_adjacency open_corner_grid = Some g /\
    get (adj_next g) 6 = Some 0 /\
    get (adj_previous g) 6 = Some (-1) /\
    ~ stated_pair_invariant (adj_next g) (adj_previous g).
Proof.
  eexists.
  split; [vm_compute; reflexivity |].
  split; [vm_compute; reflexivity |].
  split; [vm_compute; reflexivity |].
  intros H.
  destruct (H 6 0) as [_ (p & Hp & Hn)];
    [vm_compute; reflexivity | discriminate |].
  vm_compute in Hp. injection Hp as <-.
  vm_compute in Hn. discriminate Hn.
Qed.

(** C4, amended: after the extraction, and after every iteration of the
    stitching loop that starts from fields with the property, every edge [i]
    with [next_edge[i] != NONE] has [prev_edge[next_edge[i]] == i], and every
    edge [i] with [prev_edge[i] != NONE] has [next_edge[prev_edge[i]] == i]. *)
Theorem pair_invariant_kept :
  (forall grid : field2 float,
     exists g, extract_adjacency grid = Some g /\
               pair_invariant (adj_next g) (adj_previous g)) /\
  (forall fuel energies shape g k g',
     pair_invariant (next_edge g) (previous_edge g) ->
     stitching_step fuel energies shape g k = Some g' ->
     pair_invariant (next_edge g') (previous_edge g')).
Proof.
  split.
  - exact extract_adjacency_pair_invariant.
  - exact stitching_step_pair_invariant.
Qed.

Lemma pair_invariant_kept_witness :
  exists g g',
    to_graph oob_zero 200 two_diamonds_grid = Some g /\
    pair_invariant (next_edge g) (previous_edge g) /\
    stitching_step 200 (fill (size (points g)) zero) (Ivec2 6 8) g 0 = Some g' /\
    pair_invariant (next_edge g') (previous_edge g').
Proof.
  destruct pair_invariant_kept as [Hext Hstep].
  destruct (Hext two_diamonds_grid) as (a & Ha & Hinv).
  vm_compute in Ha. injection Ha as <-.
  cbn [adj_next adj_previous] in Hinv.
  eexists. eexists.
  split.
  { vm_compute. reflexivity. }
  split.
  { cbn [next_edge previous_edge]. exact Hinv. }
  match goal with
  | |- ?step = Some ?g' /\ _ =>
      assert (Hs : step = Some g') by (vm_compute; reflexivity)
  end.
  split; [exact Hs |].
  refine (Hstep _ _ _ _ _ _ _ Hs). exact Hinv.
Defined.

(** * The kernels on the sample grids *)

(** C5 on the grid [open_corner_grid]: the left edge of the only cell (flat
    index 6, a vertical edge of the first column) has a next pointer, and its
    slot of [points] still holds the NaN the field was filled with:
    [compute_points] only assigns the right and the bottom edge of a cell. *)
Lemma compute_points_misses_first_column :
  exists g points,
    extract_adjacency open_corner_grid = Some g /\
    compute_points open_corner_grid (compute_binary_grid open_corner_grid)
      (fill (edge_fields_shape (shape open_corner_grid)) (Vec2 nan nan))
    = Some points /\
    edge_of (shape open_corner_grid) (Ivec2 0 0) Left = 6 /\
    edge_1d_to_3d_index (shape open_corner_grid) 6 = Ivec3 0 0 1 /\
    get (adj_next g) 6 = Some 0 /\
    get points 6 = Some (Vec2 nan nan).
Proof.
  eexists. eexists.
  split. { vm_compute. reflexivity. }
  split. { vm_compute. reflexivity. }
  repeat split; vm_compute; reflexivity.
Qed.

(** C10 on the grid [open_corner_grid]: at the iteration [(1, 0)] of its
    loops [browse_grid] loads the sample [(2, 1)], outside the 2 x 2 grid. *)
Lemma browse_grid_loads_out_of_bounds :
  In (Ivec2 1 0) (cells (shape (compute_binary_grid open_corner_grid))) /\
  In (Ivec2 2 1) (browse_grid_loads (Ivec2 1 0)) /\
  get2 (compute_binary_grid open_corner_grid) 2 1 = None.
Proof.
  split; [vm_compute; tauto |].
  split; [vm_compute; tauto |].
  vm_compute. reflexivity.
Qed.

(** C10 on the grid [border_diamonds_grid]: the extraction finds two cycles;
    the first neighbour of the start edge of the smallest one has the
    x-coordinate -2, [edge_3d_to_1d_index] returns -1 for it, and
    [compute_neighbours_energies] indexes [cycle_index] with this -1. *)
Lemma neighbour_search_out_of_bounds :
  exists g,
    to_graph oob_zero 200 border_diamonds_grid = Some g /\
    size (cycles g) = 2 /\
    find_minimal_cycle (cycles g) (size (cycles g)) = Some 0 /\
    get (cycles g) 0 = Some (Ivec2 31 4) /\
    edge_1d_to_3d_index (Ivec2 4 6) 31 = Ivec3 0 1 1 /\
    edge_3d_to_1d_index (Ivec2 4 6) (0 + 0 - 2) (1 + 0 - 2) 0 = -1 /\
    get (cycle_index g) (-1) = None /\
    compute_neighbours_energies (points g) (next_edge g) (cycle_index g)
      (Ivec2 4 6) 31 = None /\
    stitch_all_cycles_with_neighbourhood 200 g (Ivec2 4 6) = None.
Proof.
  eexists.
  split. { vm_compute. reflexivity. }
  repeat split; vm_compute; reflexivity.
Qed.

(** C2, as stated, on the grid [hidden_diamond_grid]: the extraction finds
    one cycle, the engine runs no iteration, and the record that remains has
    length 12 while 16 edges have a next pointer: the four edges around the
    centre cross saddle cells only and belong to no cycle of the catalogue. *)
Lemma stitching_misses_hidden_cycle :
  exists g g',
    to_graph oob_zero 200 hidden_diamond_grid = Some g /\
    size (cycles g) = 1 /\
    stitch_all_cycles_with_neighbourhood 200 g (Ivec2 5 5) = Some g' /\
    live_cycles (cycles g') = [Ivec2 32 12] /\
    count_set (next_edge g') = 16 /\
    count_set (cycle_index g') = 12.
Proof.
  eexists. eexists.
  split. { vm_compute. reflexivity. }
  split. { vm_compute. reflexivity. }
  split. { vm_compute. reflexivity. }
  repeat split; vm_compute; reflexivity.
Qed.

(** * The order of the floating point comparisons *)

(** [SFcompare] orders the numbers by class and sign, then by exponent and
    mantissa: [flt] is a strict order, and it is total on the numbers. *)
Ltac float_cases :=
  repeat match goal with
         | H : context [Pos.compare_cont Eq ?a ?b] |- _ =>
             change (Pos.compare_cont Eq a b) with (Pos.compare a b) in H
         | |- context [Pos.compare_cont Eq ?a ?b] =>
             change (Pos.compare_cont Eq a b) with (Pos.compare a b)
         end;
  repeat match goal with
         | H : context [Z.compare ?a ?b] |- _ => destruct (Z.compare_spec a b); subst
         | H : context [Pos.compare ?a ?b] |- _ => destruct (Pos.compare_spec a b); subst
         | |- context [Z.compare ?a ?b] => destruct (Z.compare_spec a b); subst
         | |- context [Pos.compare ?a ?b] => destruct (Pos.compare_spec a b); subst
         end;
  cbn in *; try discriminate; try reflexivity; try lia.

Lemma flt_trans a b c : flt a b = true -> flt b c = true -> flt a c = true.
Proof.
  unfold flt, SFltb, SFcompare.
  destruct a as [[] | [] | | [] ma ea], b as [[] | [] | | [] mb eb],
           c as [[] | [] | | [] mc ec];
    try discriminate; try reflexivity; intros H1 H2; float_cases.
Qed.

(** [a < b] and not [c < b] for a number [c] give [a < c]. *)
Lemma flt_le_trans a b c :
  flt a b = true -> flt c b = false -> c <> S754_nan -> flt a c = true.
Proof.
  unfold flt, SFltb, SFcompare.
  destruct a as [[] | [] | | [] ma ea], b as [[] | [] | | [] mb eb],
           c as [[] | [] | | [] mc ec];
    try discriminate; try reflexivity; try congruence; intros H1 H2 _; float_cases.
Qed.

Lemma flt_irrefl a : flt a a = false.
Proof.
  unfold flt, SFltb, SFcompare.
  destruct a as [[] | [] | | [] ma ea]; try reflexivity; float_cases.
Qed.

Lemma flt_asym a b : flt a b = true -> flt b a = false.
Proof.
  intros H. destruct (flt b a) eqn:E; [| reflexivity].
  pose proof (flt_trans _ _ _ H E) as F. now rewrite flt_irrefl in F.
Qed.

Lemma flt_inf_number a : flt a inf = true -> a <> S754_nan /\ fne a inf = true.
Proof.
  unfold flt, fne, inf, SFltb, SFeqb, SFcompare.
  destruct a as [[] | [] | | [] ma ea]; try discriminate; intros _;
    (split; [discriminate | reflexivity]).
Qed.

Lemma flt_below_inf a b : flt a b = true -> flt a inf = true.
Proof.
  unfold flt, inf, SFltb, SFcompare.
  destruct a as [[] | [] | | [] ma ea], b as [[] | [] | | [] mb eb];
    try discriminate; reflexivity.
Qed.

Lemma feq_inf a : feq a inf = true -> a = inf.
Proof.
  unfold feq, inf, SFeqb, SFcompare.
  destruct a as [[] | [] | | [] ma ea]; try discriminate; reflexivity.
Qed.

Lemma flt_inf_left a : flt inf a = false.
Proof.
  unfold flt, inf, SFltb, SFcompare.
  destruct a as [[] | [] | | [] ma ea]; reflexivity.
Qed.

(** * Scans for a first minimum *)

Section Scan.

Context {A : Type} (cost : A -> float) (d : A).

Lemma keep_lower_flt best x :
  flt (fst best) inf = true \/ fst best = inf ->
  keep_lower cost best x =
  if flt (cost x) (fst best) then (cost x, x) else best.
Proof.
  intros Hb. unfold keep_lower.
  destruct (flt (cost x) (fst best)) eqn:E; [| reflexivity].
  cbn. apply flt_below_inf in E.
  now rewrite (proj2 (flt_inf_number _ E)).
Qed.

Lemma scanned_step seen best x :
  scanned cost d seen best ->
  scanned cost d (seen ++ [x]) (keep_lower cost best x).
Proof.
  intros [[-> Hnone] | [(pre & post & -> & Hv & Hpre & Hpost) Hm]].
  - rewrite keep_lower_flt by (now right). cbn [fst].
    destruct (flt (cost x) inf) eqn:E.
    + right. split; [| reflexivity]. cbn [snd].
      exists seen, []. repeat split; auto.
      * intros y Hy Hvy. rewrite (Hnone y Hy) in Hvy. discriminate.
      * intros y [].
    + left. split; [reflexivity |].
      intros y Hy. apply in_app_or in Hy as [Hy | [<- | []]]; auto.
  - rewrite keep_lower_flt by (left; now rewrite Hm). rewrite Hm.
    destruct (flt (cost x) (cost (snd best))) eqn:E.
    + right. split; [| reflexivity]. cbn [snd].
      exists (pre ++ snd best :: post), []. repeat split.
      * now apply flt_below_inf in E.
      * intros y Hy Hvy.
        apply in_app_or in Hy as [Hy | [<- | Hy]].
        -- apply flt_trans with (cost (snd best)); auto.
        -- exact E.
        -- apply flt_le_trans with (cost (snd best)); auto.
           now apply flt_inf_number.
      * intros y [].
    + right. split; [| exact Hm].
      exists pre, (post ++ [x]). repeat split; auto.
      * now rewrite <- app_assoc.
      * intros y Hy. apply in_app_or in Hy as [Hy | [<- | []]]; auto.
Qed.

Lemma scanned_fold l : forall seen best,
  scanned cost d seen best ->
  scanned cost d (seen ++ l) (fold_left (keep_lower cost) l best).
Proof.
  induction l as [| x l IH]; intros seen best H; cbn.
  - now rewrite app_nil_r.
  - replace (seen ++ x :: l) with ((seen ++ [x]) ++ l)
      by (now rewrite <- app_assoc).
    apply IH. now apply scanned_step.
Qed.

(** A scan from nothing ends with nothing, when no element has a cost below
    +inf, or with the first minimum of the list. *)
Lemma scan_first_minimum l :
  scanned cost d l (fold_left (keep_lower cost) l (inf, d)).
Proof.
  apply (scanned_fold l [] (inf, d)). left. split; [reflexivity |].
  intros y [].
Qed.

Lemma first_minimum_in l x : first_minimum cost l x -> In x l.
Proof.
  intros (pre & post & -> & _). apply in_or_app. right. now left.
Qed.

Lemma scanned_below_inf l best :
  scanned cost d l best -> flt (fst best) inf = true \/ fst best = inf.
Proof.
  intros [[-> _] | [(pre & post & _ & Hv & _) Hm]]; [now right |].
  left. now rewrite Hm.
Qed.

(** ** Merging the scan of a block into a running scan *)

Lemma no_candidate_app l l' :
  no_candidate cost l -> no_candidate cost l' -> no_candidate cost (l ++ l').
Proof.
  intros H H' y Hy. apply in_app_or in Hy as [Hy | Hy]; auto.
Qed.

Lemma first_minimum_cost_below l x y :
  first_minimum cost l x -> In y l -> flt (cost y) (cost x) = false.
Proof.
  intros (pre & post & -> & Hv & Hpre & Hpost) Hy.
  apply in_app_or in Hy as [Hy | [<- | Hy]].
  - destruct (flt (cost y) (cost x)) eqn:E; [| reflexivity].
    pose proof (flt_trans _ _ _ E Hv) as Hy'.
    pose proof (flt_asym _ _ (Hpre y Hy Hy')) as F. congruence.
  - apply flt_irrefl.
  - now apply Hpost.
Qed.

(** The running minimum is kept when the block has nothing lower. *)
Lemma first_minimum_keep l l' x :
  first_minimum cost l x ->
  (forall y, In y l' -> flt (cost y) (cost x) = false) ->
  first_minimum cost (l ++ l') x.
Proof.
  intros (pre & post & -> & Hv & Hpre & Hpost) H'.
  exists pre, (post ++ l'). repeat split; auto.
  - now rewrite <- app_assoc.
  - intros y Hy. apply in_app_or in Hy as [Hy | Hy]; auto.
Qed.

(** The minimum of the block replaces the running minimum when it is lower
    than every number seen. *)
Lemma first_minimum_replace l l' x :
  first_minimum cost l' x ->
  (forall y, In y l -> flt (cost y) inf = true ->
             flt (cost x) (cost y) = true) ->
  first_minimum cost (l ++ l') x.
Proof.
  intros (pre & post & -> & Hv & Hpre & Hpost) H.
  exists (l ++ pre), post. repeat split; auto.
  - now rewrite <- app_assoc.
  - intros y Hy Hvy. apply in_app_or in Hy as [Hy | Hy]; auto.
Qed.

(** Nothing in a block is below its first minimum, so nothing is below a
    number the first minimum is not below. *)
Lemma block_not_below l' x b :
  first_minimum cost l' x -> b <> S754_nan ->
  flt (cost x) b = false ->
  forall y, In y l' -> flt (cost y) b = false.
Proof.
  intros Hx Hb Hxb y Hy.
  destruct (flt (cost y) b) eqn:E; [| reflexivity].
  assert (Hnan : cost x <> S754_nan).
  { destruct Hx as (_ & _ & _ & Hv & _). now apply flt_inf_number. }
  pose proof (flt_le_trans _ _ _ E Hxb Hnan) as F.
  rewrite (first_minimum_cost_below _ _ _ Hx Hy) in F. discriminate.
Qed.

(** A first minimum below the running minimum is below every number seen. *)
Lemma below_all_seen l x b :
  first_minimum cost l b ->
  flt x (cost b) = true ->
  forall y, In y l -> flt (cost y) inf = true -> flt x (cost y) = true.
Proof.
  intros Hb Hx y Hy Hvy.
  apply flt_le_trans with (cost b); auto.
  - now apply first_minimum_cost_below with l.
  - now apply flt_inf_number.
Qed.

Lemma no_candidate_not_below l b :
  no_candidate cost l -> flt b inf = true ->
  forall y, In y l -> flt (cost y) b = false.
Proof.
  intros Hl Hb y Hy.
  destruct (flt (cost y) b) eqn:E; [| reflexivity].
  pose proof (flt_trans _ _ _ E Hb) as F. rewrite (Hl y Hy) in F. discriminate.
Qed.

(** The test [e < best and e != inf] is the test [e < best] on the result
    of a scan. *)
Lemma scanned_test l best e :
  scanned cost d l best ->
  flt (fst best) e && fne (fst best) inf = flt (fst best) e.
Proof.
  intros [[-> _] | [(pre & post & _ & Hv & _) Hm]]; cbn [fst].
  - now rewrite flt_inf_left.
  - rewrite Hm, (proj2 (flt_inf_number _ Hv)). apply andb_true_r.
Qed.

(** The update of a running result by the result of the scan of a block. *)
Lemma running_merge {P} (chosen : A -> P) init seen block best e pair :
  running cost chosen init seen e pair ->
  scanned cost d block best ->
  running cost chosen init (seen ++ block)
    (if flt (fst best) e then fst best else e)
    (if flt (fst best) e then chosen (snd best) else pair).
Proof.
  intros Hrun [[-> Hnone] | [Hmin Hcost]].
  - (* nothing in the block *)
    cbn [fst]. rewrite flt_inf_left.
    destruct Hrun as [(He & Hp & Hseen) | (p & Hp & He & Hpair)].
    + left. repeat split; auto. now apply no_candidate_app.
    + right. exists p. repeat split; auto.
      apply first_minimum_keep; auto.
      apply no_candidate_not_below; auto.
      now destruct Hp as (_ & _ & _ & Hb & _).
  - (* a first minimum in the block *)
    assert (Hb : flt (fst best) inf = true).
    { rewrite Hcost. now destruct Hmin as (_ & _ & _ & Hb & _). }
    destruct Hrun as [(He & Hp & Hseen) | (p & Hp & He & Hpair)].
    + rewrite He, Hb. right. exists (snd best). repeat split; auto.
      apply first_minimum_replace; auto.
      intros y Hy Hvy. rewrite (Hseen y Hy) in Hvy. discriminate.
    + rewrite He. destruct (flt (fst best) (cost p)) eqn:E.
      * right. exists (snd best). repeat split; auto.
        apply first_minimum_replace; auto.
        apply below_all_seen with p; auto. now rewrite <- Hcost.
      * right. exists p. repeat split; auto.
        apply first_minimum_keep; auto.
        apply block_not_below with (snd best); auto.
        -- apply flt_inf_number.
           now destruct Hp as (_ & _ & _ & Hb' & _).
        -- now rewrite <- Hcost.
Qed.

End Scan.

Lemma first_minimum_map {A B} (cost : A -> float) (cost' : B -> float)
    (f : A -> B) l x :
  (forall a, cost' (f a) = cost a) ->
  first_minimum cost l x -> first_minimum cost' (map f l) (f x).
Proof.
  intros Hc (pre & post & -> & Hv & Hpre & Hpost).
  exists (map f pre), (map f post). rewrite map_app. cbn [map].
  repeat split; auto.
  - now rewrite Hc.
  - intros y Hy. apply in_map_iff in Hy as (a & <- & Ha).
    rewrite !Hc. auto.
  - intros y Hy. apply in_map_iff in Hy as (a & <- & Ha).
    rewrite !Hc. auto.
Qed.

Lemma no_candidate_map {A B} (cost : A -> float) (cost' : B -> float)
    (f : A -> B) l :
  (forall a, cost' (f a) = cost a) ->
  no_candidate cost l -> no_candidate cost' (map f l).
Proof.
  intros Hc H y Hy. apply in_map_iff in Hy as (a & <- & Ha).
  rewrite Hc. auto.
Qed.

Lemma scanned_map {A B} (cost : A -> float) (cost' : B -> float)
    (f : A -> B) d l best :
  (forall a, cost' (f a) = cost a) ->
  scanned cost d l best ->
  scanned cost' (f d) (map f l) (fst best, f (snd best)).
Proof.
  intros Hc [[-> Hnone] | [Hmin Hcost]].
  - left. split; [reflexivity |]. now apply no_candidate_map with cost.
  - right. cbn [fst snd]. split.
    + now apply first_minimum_map with cost.
    + now rewrite Hc.
Qed.

(** * Loops over the indices of a field *)

Lemma get_app_length {A} (pre : list A) a rest :
  get (pre ++ a :: rest) (Z.of_nat (length pre)) = Some a.
Proof.
  unfold get, size. rewrite length_app. cbn [length].
  rewrite (proj2 (in_range_iff _ _)) by lia.
  rewrite Nat2Z.id, nth_error_app2 by lia.
  now rewrite Nat.sub_diag.
Qed.

Lemma for_each_indexed_aux {A St} (body : St -> Z -> A -> option St) l :
  forall (pre : list A) s,
    for_each (map Z.of_nat (seq (length pre) (length l)))
             (fun s i => x <- get (pre ++ l) i ;; body s i x) s =
    for_each (indexed_from (Z.of_nat (length pre)) l)
             (fun s p => body s (fst p) (snd p)) s.
Proof.
  induction l as [| a l IH]; intros pre s; cbn; [reflexivity |].
  rewrite get_app_length. cbn [bind].
  destruct (body s (Z.of_nat (length pre)) a) as [s' |]; cbn; [| reflexivity].
  specialize (IH (pre ++ [a]) s').
  rewrite <- app_assoc, length_app in IH. cbn in IH.
  replace (length pre + 1)%nat with (S (length pre)) in IH by lia.
  replace (Z.of_nat (S (length pre))) with (Z.of_nat (length pre) + 1) in IH
    by lia.
  exact IH.
Qed.

(** A loop over [range(f.shape[0])] that reads [f[i]] is a loop over the
    elements of [f] with their indices. *)
Lemma for_each_indexed {A S} (body : S -> Z -> A -> option S) (f : field A) s :
  for_each (range (size f)) (fun s i => x <- get f i ;; body s i x) s =
  for_each (indexed_from 0 f) (fun s p => body s (fst p) (snd p)) s.
Proof.
  unfold range, size. rewrite Nat2Z.id.
  exact (for_each_indexed_aux body f [] s).
Qed.

Lemma for_each_pure {A S} (step : S -> A -> S) l : forall s,
  for_each l (fun s a => Some (step s a)) s = Some (fold_left step l s).
Proof. induction l as [| a l IH]; intros s; cbn; auto. Qed.

Lemma for_each_ext {A S} (f g : S -> A -> option S) l :
  (forall s a, In a l -> f s a = g s a) ->
  forall s, for_each l f s = for_each l g s.
Proof.
  induction l as [| a l IH]; intros H s; cbn; [reflexivity |].
  rewrite (H s a) by now left.
  destruct (g s a); cbn; [| reflexivity].
  apply IH. intros s' b Hb. apply H. now right.
Qed.

Lemma indexed_from_lower {A} (l : list A) : forall i p,
  In p (indexed_from i l) -> i <= fst p.
Proof.
  induction l as [| a l IH]; intros i p; cbn; [intros [] |].
  intros [<- | Hp]; [cbn; lia |]. specialize (IH _ _ Hp). lia.
Qed.

Lemma indexed_from_split {A} (l : list A) : forall i pre k c post,
  indexed_from i l = pre ++ (k, c) :: post ->
  k = i + Z.of_nat (length pre) /\
  (forall p, In p pre -> i <= fst p < k) /\
  (forall p, In p post -> k < fst p).
Proof.
  induction l as [| a l IH]; intros i pre k c post H; cbn in H.
  - destruct pre; discriminate H.
  - destruct pre as [| p pre]; cbn in H.
    + injection H as <- <- Hpost. split; [cbn [length]; lia |].
      split; [intros p [] |].
      intros p Hp. rewrite <- Hpost in Hp.
      apply indexed_from_lower in Hp. lia.
    + injection H as <- H.
      destruct (IH _ _ _ _ _ H) as (-> & Hpre & Hpost).
      split; [cbn [length]; lia |]. split.
      * intros q [<- | Hq]; [cbn; lia |]. specialize (Hpre q Hq). lia.
      * exact Hpost.
Qed.

Lemma indexed_from_get {A} (l : list A) : forall (pre : list A) k c,
  In (k, c) (indexed_from (Z.of_nat (length pre)) l) <->
  get (pre ++ l) k = Some c /\ Z.of_nat (length pre) <= k.
Proof.
  induction l as [| a l IH]; intros pre k c; cbn.
  - split; [intros [] |]. intros [H Hk]. rewrite app_nil_r in H.
    apply get_Some_range in H. unfold size in H. lia.
  - specialize (IH (pre ++ [a]) k c).
    rewrite <- app_assoc, length_app in IH. cbn in IH.
    replace (Z.of_nat (length pre + 1)) with (Z.of_nat (length pre) + 1) in IH
      by lia.
    rewrite IH. split.
    + intros [[= <- <-] | [H Hk]].
      * split; [apply get_app_length | lia].
      * split; [exact H | lia].
    + intros [H Hk].
      destruct (Z.eq_dec k (Z.of_nat (length pre))) as [-> | Hne].
      * left. rewrite get_app_length in H. congruence.
      * right. split; [exact H | lia].
Qed.

Lemma indexed_get {A} (f : field A) k c :
  In (k, c) (indexed_from 0 f) <-> get f k = Some c.
Proof.
  rewrite (indexed_from_get f [] k c). cbn. split; [tauto |].
  intros H. split; [exact H |]. apply get_Some_range in H. lia.
Qed.

(** * The target of an iteration: [find_minimal_cycle] *)

Lemma record_scan_step best p :
  flt (fst best) inf = true \/ fst best = inf ->
  (let '(minimal_cycle_index, minimal_cycle_lenght) :=
     (fst (snd best), fst best) in
   if flt (itof (y2 (snd p))) minimal_cycle_lenght && negb (y2 (snd p) =? 0)
   then (fst p, itof (y2 (snd p)))
   else (minimal_cycle_index, minimal_cycle_lenght))
  = (fst (snd (keep_lower record_cost best p)),
     fst (keep_lower record_cost best p)).
Proof.
  intros Hb. rewrite (keep_lower_flt record_cost best p Hb).
  unfold record_cost. cbv zeta iota beta.
  destruct (y2 (snd p) =? 0) eqn:E; cbn [negb].
  - rewrite andb_false_r.
    replace (flt inf (fst best)) with false; [reflexivity |].
    symmetry. destruct Hb as [Hb | ->];
      [now apply flt_asym | apply flt_irrefl].
  - rewrite andb_true_r.
    destruct (flt (itof (y2 (snd p))) (fst best)); reflexivity.
Qed.

Lemma find_minimal_cycle_scan (cycles : field ivec2) :
  find_minimal_cycle cycles (size cycles) =
  Some (fst (snd (fold_left (keep_lower record_cost)
                            (indexed_from 0 cycles) (inf, (0, Ivec2 0 0))))).
Proof.
  unfold find_minimal_cycle.
  rewrite (for_each_ext _
             (fun s i => x <- get cycles i ;;
                Some (let '(minimal_cycle_index, minimal_cycle_lenght) := s in
                      if flt (itof (y2 x)) minimal_cycle_lenght
                         && negb (y2 x =? 0)
                      then (i, itof (y2 x))
                      else (minimal_cycle_index, minimal_cycle_lenght)))).
  2:{ intros [mi ml] i _. destruct (get cycles i); cbn; [| reflexivity].
      destruct (_ && _); reflexivity. }
  rewrite (for_each_indexed
             (fun s i x =>
                Some (let '(minimal_cycle_index, minimal_cycle_lenght) := s in
                      if flt (itof (y2 x)) minimal_cycle_lenght
                         && negb (y2 x =? 0)
                      then (i, itof (y2 x))
                      else (minimal_cycle_index, minimal_cycle_lenght)))).
  rewrite (for_each_pure
             (fun s (p : Z * ivec2) =>
                let '(minimal_cycle_index, minimal_cycle_lenght) := s in
                if flt (itof (y2 (snd p))) minimal_cycle_lenght
                   && negb (y2 (snd p) =? 0)
                then (fst p, itof (y2 (snd p)))
                else (minimal_cycle_index, minimal_cycle_lenght))).
  cbn [bind]. f_equal.
  assert (H : forall l seen best,
             scanned record_cost (0, Ivec2 0 0) seen best ->
             fold_left
               (fun s (p : Z * ivec2) =>
                  let '(minimal_cycle_index, minimal_cycle_lenght) := s in
                  if flt (itof (y2 (snd p))) minimal_cycle_lenght
                     && negb (y2 (snd p) =? 0)
                  then (fst p, itof (y2 (snd p)))
                  else (minimal_cycle_index, minimal_cycle_lenght))
               l (fst (snd best), fst best)
             = (fst (snd (fold_left (keep_lower record_cost) l best)),
                fst (fold_left (keep_lower record_cost) l best))).
  { induction l as [| p l IH]; intros seen best Hs; cbn [fold_left];
      [reflexivity |].
    rewrite (record_scan_step best p (scanned_below_inf _ _ _ _ Hs)).
    apply (IH (seen ++ [p])). now apply scanned_step. }
  refine (f_equal fst (H (indexed_from 0 cycles) [] (inf, (0, Ivec2 0 0)) _)).
  left. split; [reflexivity | intros y []].
Qed.

(** [find_minimal_cycle] returns; when some record is not a tombstone and the
    lengths are exact as floats, it returns the smallest cycle, the one of
    smallest id among those of the same length. *)
Lemma find_minimal_cycle_spec (cycles : field ivec2) :
  exists m,
    find_minimal_cycle cycles (size cycles) = Some m /\
    (exact_lengths cycles ->
     (exists k c, get cycles k = Some c /\ y2 c <> 0) ->
     smallest_cycle cycles m).
Proof.
  rewrite find_minimal_cycle_scan. eexists. split; [reflexivity |].
  intros Hex (k0 & c0 & Hk0 & Hc0).
  pose proof (scan_first_minimum record_cost (0, Ivec2 0 0)
                (indexed_from 0 cycles)) as Hscan.
  set (best := fold_left (keep_lower record_cost) (indexed_from 0 cycles)
                         (inf, (0, Ivec2 0 0))) in *.
  assert (Hin : forall k c, get cycles k = Some c -> In c cycles).
  { intros k c H. unfold get in H.
    destruct (in_range k (size cycles)); [| discriminate].
    now apply nth_error_In in H. }
  assert (Hvalid : forall k c, get cycles k = Some c -> y2 c <> 0 ->
                               flt (record_cost (k, c)) inf = true).
  { intros k c H Hc. unfold record_cost. cbn [snd].
    rewrite (proj2 (Z.eqb_neq _ _) Hc).
    exact (proj1 (Hex c c (Hin _ _ H) (Hin _ _ H))). }
  destruct Hscan as [[_ Hnone] | [Hmin _]].
  - exfalso. pose proof (Hnone (k0, c0) (proj2 (indexed_get _ _ _) Hk0)) as F.
    rewrite (Hvalid _ _ Hk0 Hc0) in F. discriminate.
  - destruct (snd best) as [m cm] eqn:Eb. cbn [fst].
    pose proof (first_minimum_in _ _ _ Hmin) as Hm.
    apply indexed_get in Hm.
    destruct Hmin as (pre & post & Hl & Hv & Hpre & Hpost).
    assert (Hcm : y2 cm <> 0).
    { intros E. unfold record_cost in Hv. cbn [snd] in Hv.
      rewrite E in Hv. cbn in Hv. discriminate. }
    exists cm. split; [exact Hm |]. split; [exact Hcm |].
    intros k c Hk Hc.
    destruct (indexed_from_split _ _ _ _ _ _ Hl) as (_ & Ipre & Ipost).
    pose proof (proj2 (indexed_get _ _ _) Hk) as Hkin.
    rewrite Hl in Hkin.
    assert (Hcost : forall k c, y2 c <> 0 -> record_cost (k, c) = itof (y2 c)).
    { intros k' c' H'. unfold record_cost. cbn [snd].
      now rewrite (proj2 (Z.eqb_neq _ _) H'). }
    apply in_app_or in Hkin as [Hkin | [[= -> ->] | Hkin]].
    + left. pose proof (Hpre _ Hkin (Hvalid _ _ Hk Hc)) as F.
      rewrite (Hcost m cm Hcm), (Hcost k c Hc) in F.
      rewrite (proj2 (Hex cm c (Hin _ _ Hm) (Hin _ _ Hk))) in F.
      now apply Z.ltb_lt.
    + right. split; [reflexivity | lia].
    + pose proof (Hpost _ Hkin) as F. pose proof (Ipost _ Hkin) as G.
      cbn [fst] in G.
      rewrite (Hcost m cm Hcm), (Hcost k c Hc) in F.
      rewrite (proj2 (Hex c cm (Hin _ _ Hk) (Hin _ _ Hm))) in F.
      apply Z.ltb_ge in F. lia.
Qed.

(** * The search for the pair to splice *)

(** ** The neighbourhood of one reference edge *)

Lemma neighbour_candidate_eq points next_edge cycle_index shape I n cI o :
  get next_edge I = Some n -> get cycle_index I = Some cI ->
  neighbour_candidate points next_edge cycle_index shape I o =
  let I3 := edge_1d_to_3d_index shape I in
  let J := edge_3d_to_1d_index shape (x3 I3 + x3 o - 2)
                               (y3 I3 + y3 o - 2) (z3 o) in
  c <- get cycle_index J ;;
  if (c =? cI) || (c =? -1) then None
  else
    energy <- edge_pair_energy points next_edge (Ivec2 I n) J ;;
    Some (Candidate o J energy).
Proof.
  intros Hn HcI. unfold neighbour_candidate. now rewrite Hn, HcI.
Qed.

Lemma neighbours_loop points next_edge cycle_index shape I n cI l :
  get next_edge I = Some n -> get cycle_index I = Some cI ->
  forall best s,
    for_each l
      (neighbours_energies_step points next_edge cycle_index shape
         (Ivec2 I n) cI (edge_1d_to_3d_index shape I))
      (fst best, cand_offset (snd best)) = Some s ->
    s = (fst (fold_left (keep_lower cand_energy)
                (flat_map
                   (fun offset =>
                      match neighbour_candidate points next_edge cycle_index
                              shape I offset with
                      | Some c => [c]
                      | None => []
                      end) l) best),
         cand_offset
           (snd (fold_left (keep_lower cand_energy)
                   (flat_map
                      (fun offset =>
                         match neighbour_candidate points next_edge cycle_index
                                 shape I offset with
                         | Some c => [c]
                         | None => []
                         end) l) best))).
Proof.
  intros Hn HcI.
  set (F := fun offset =>
              match neighbour_candidate points next_edge cycle_index
                      shape I offset with
              | Some c => [c]
              | None => []
              end).
  induction l as [| o l IH]; intros best s; cbn [for_each flat_map].
  - intros [= <-]. reflexivity.
  - unfold F at 1 3.
    rewrite (neighbour_candidate_eq points next_edge cycle_index shape I n cI o
               Hn HcI).
    unfold neighbours_energies_step at 1. cbv zeta.
    set (J := edge_3d_to_1d_index shape _ _ _).
    destruct (get cycle_index J) as [c |]; cbn [bind]; [| discriminate].
    destruct ((c =? cI) || (c =? -1)).
    + cbn [app bind]. intros H. exact (IH _ _ H).
    + destruct (edge_pair_energy _ _ _ J) as [e |]; cbn [bind];
        [| discriminate].
      cbn [app fold_left fst].
      set (x := Candidate o J e).
      replace (if flt e (fst best) && fne e inf
               then Some (e, o) else Some (fst best, cand_offset (snd best)))
        with (Some (fst (keep_lower cand_energy best x),
                    cand_offset (snd (keep_lower cand_energy best x)))).
      2:{ unfold keep_lower, x. cbn [cand_energy].
          destruct (flt e (fst best) && fne e inf); reflexivity. }
      cbn [bind]. intros H. exact (IH _ _ H).
Qed.

Lemma compute_neighbours_energies_spec points next_edge cycle_index shape I v :
  compute_neighbours_energies points next_edge cycle_index shape I = Some v ->
  exists best,
    scanned cand_energy no_candidate_yet
      (neighbour_candidates points next_edge cycle_index shape I) best /\
    fx v = fst best /\
    ftoi (fy v) = returned_edge shape I (cand_offset (snd best)).
Proof.
  unfold compute_neighbours_energies.
  destruct (get next_edge I) as [n |] eqn:Hn; cbn [bind]; [| discriminate].
  destruct (get cycle_index I) as [cI |] eqn:HcI; cbn [bind]; [| discriminate].
  cbv zeta.
  destruct (for_each _ _ _) as [s |] eqn:Hs; cbn [bind]; [| discriminate].
  apply (neighbours_loop points next_edge cycle_index shape I n cI
           neighbour_offsets Hn HcI (inf, no_candidate_yet) s) in Hs.
  fold (neighbour_candidates points next_edge cycle_index shape I) in Hs.
  subst s. intros [= <-].
  eexists. split; [apply scan_first_minimum |].
  split; reflexivity.
Qed.

(** ** The walk along the target ring *)

Lemma pair_cost_pair I c : pair_cost (pair I c) = cand_energy c.
Proof. reflexivity. Qed.

Lemma neighbours_step_invariant points next_edge cycle_index shape seen s i s' :
  search_invariant shape seen s ->
  neighbours_step points next_edge cycle_index shape s i = Some s' ->
  get next_edge (s_current_edge s) = Some (s_current_edge s') /\
  search_invariant shape
    (seen ++ map (pair (s_current_edge s))
                 (neighbour_candidates points next_edge cycle_index shape
                    (s_current_edge s)))
    s'.
Proof.
  intros Hinv. unfold neighbours_step. cbv zeta.
  set (I := s_current_edge s).
  destruct (compute_neighbours_energies _ _ _ _ I) as [v |] eqn:Hv;
    cbn [bind]; [| discriminate].
  apply compute_neighbours_energies_spec in Hv
    as (best & Hbest & Hfx & Hfy).
  set (cands := neighbour_candidates points next_edge cycle_index shape I)
    in *.
  rewrite Hfx, Hfy.
  destruct (get next_edge I) as [n |] eqn:Hn;
    [| destruct (_ && _); discriminate].
  rewrite (scanned_test _ _ _ _ _ Hbest).
  apply (scanned_map cand_energy pair_cost (pair I)) in Hbest;
    [| apply pair_cost_pair].
  pose proof (running_merge pair_cost _ (chosen_pair shape) _ _ _ _ _ _
                Hinv Hbest) as Hstep.
  cbn [fst snd] in Hstep.
  destruct (flt (fst best) (s_minimal_energy s));
    cbn [bind]; intros [= <-]; (split; [reflexivity | exact Hstep]).
Qed.

Lemma neighbours_walk points next_edge cycle_index shape l :
  forall seen s s',
    search_invariant shape seen s ->
    for_each l (neighbours_step points next_edge cycle_index shape) s
      = Some s' ->
    s_current_edge s' = ring_end next_edge (length l) (s_current_edge s) /\
    search_invariant shape
      (seen ++ neighbour_pairs points next_edge cycle_index shape
                 (ring_walk next_edge (length l) (s_current_edge s)))
      s'.
Proof.
  induction l as [| i l IH]; intros seen s s' Hinv; cbn [for_each length].
  - intros [= <-]. cbn. now rewrite app_nil_r.
  - destruct (neighbours_step _ _ _ _ s i) as [s1 |] eqn:Hstep;
      cbn [bind]; [| discriminate].
    intros Hrest.
    destruct (neighbours_step_invariant _ _ _ _ _ _ _ _ Hinv Hstep)
      as [Hn Hinv1].
    cbn [ring_walk ring_end]. rewrite Hn.
    unfold neighbour_pairs. cbn [flat_map]. rewrite app_assoc.
    exact (IH _ _ _ Hinv1 Hrest).
Qed.

Lemma length_range n : length (range n) = Z.to_nat n.
Proof. unfold range. now rewrite length_map, length_seq. Qed.

(** The neighbourhood search of [find_edges_with_minimum_energy_with_neighbours]
    ends with nothing, or with the first pair of lowest cost in the order of
    the search. *)
Lemma neighbourhood_search points next_edge cycle_index shape start n s :
  for_each (range n) (neighbours_step points next_edge cycle_index shape)
    (SearchState start inf (Ivec2 0 0)) = Some s ->
  s_current_edge s = ring_end next_edge (Z.to_nat n) start /\
  search_invariant shape
    (neighbour_pairs points next_edge cycle_index shape
       (ring_walk next_edge (Z.to_nat n) start))
    s.
Proof.
  intros H.
  apply (neighbours_walk points next_edge cycle_index shape (range n) [])
    in H.
  - now rewrite length_range in H.
  - left. repeat split. intros y [].
Qed.

(** * The scan of all edges *)

Lemma set_app_length {A} (pre : list A) a rest v :
  set (pre ++ a :: rest) (Z.of_nat (length pre)) v = Some (pre ++ v :: rest).
Proof.
  unfold set, size. rewrite length_app. cbn [length].
  rewrite (proj2 (in_range_iff _ _)) by lia.
  rewrite Nat2Z.id. f_equal.
  induction pre as [| b pre IH]; cbn; [reflexivity |]. now rewrite IH.
Qed.

(** A loop that assigns [g k] to every index [k] of a field leaves the
    values of [g] in the order of the indices. *)
Lemma for_each_fill_aux {A} (g : Z -> option A) l :
  forall (pre : list A) f',
    for_each (map Z.of_nat (seq (length pre) (length l)))
             (fun f k => v <- g k ;; set f k v) (pre ++ l) = Some f' ->
    exists l',
      f' = pre ++ l' /\
      indexed_from (Z.of_nat (length pre)) l' =
      flat_map (fun k => match g k with
                         | Some v => [(k, v)]
                         | None => []
                         end)
               (map Z.of_nat (seq (length pre) (length l))).
Proof.
  induction l as [| a l IH]; intros pre f'; cbn [length seq map for_each].
  - intros [= <-]. exists []. split; reflexivity.
  - destruct (g (Z.of_nat (length pre))) as [v |] eqn:Hg;
      cbn [bind]; [| discriminate].
    rewrite set_app_length. cbn [bind].
    intros H. specialize (IH (pre ++ [v]) f').
    rewrite <- app_assoc, length_app in IH. cbn [app length] in IH.
    replace (length pre + 1)%nat with (S (length pre)) in IH by lia.
    destruct (IH H) as (l' & -> & Hl').
    exists (v :: l'). split; [now rewrite <- app_assoc |].
    cbn [indexed_from flat_map]. rewrite Hg. cbn [app]. f_equal.
    rewrite <- Hl'. f_equal. lia.
Qed.

Lemma for_each_fill {A} (g : Z -> option A) (f f' : field A) :
  for_each (range (size f)) (fun f k => v <- g k ;; set f k v) f = Some f' ->
  indexed_from 0 f' =
  flat_map (fun k => match g k with
                     | Some v => [(k, v)]
                     | None => []
                     end)
           (range (size f)).
Proof.
  unfold range, size. rewrite Nat2Z.id. intros H.
  destruct (for_each_fill_aux g f [] f' H) as (l' & -> & Hl').
  exact Hl'.
Qed.

Lemma flat_map_ext_in {A B} (f g : A -> list B) l :
  (forall a, In a l -> f a = g a) -> flat_map f l = flat_map g l.
Proof.
  induction l as [| a l IH]; intros H; cbn; [reflexivity |].
  rewrite (H a) by now left. f_equal. apply IH. intros b Hb. apply H. now right.
Qed.

Lemma compute_all_energies_spec points next_edge cycle_index energies I e' :
  compute_all_energies points next_edge cycle_index energies I = Some e' ->
  indexed_from 0 e' =
  all_candidates points next_edge cycle_index (size energies) I.
Proof.
  unfold compute_all_energies, all_candidates.
  destruct (get next_edge I) as [n |] eqn:Hn; cbn [bind]; [| discriminate].
  destruct (get cycle_index I) as [cI |] eqn:HcI; cbn [bind]; [| discriminate].
  set (g := fun J =>
              c <- get cycle_index J ;;
              if c =? cI then Some inf
              else if c =? -1 then Some inf
              else edge_pair_energy points next_edge (Ivec2 I n) J).
  rewrite (for_each_ext _ (fun f k => v <- g k ;; set f k v)).
  - intros H. rewrite (for_each_fill g energies e' H).
    apply flat_map_ext_in. intros J _.
    unfold recorded_energy. rewrite Hn, HcI. reflexivity.
  - intros f k _. unfold all_energies_step, g.
    destruct (get cycle_index k) as [c |]; cbn [bind]; [| reflexivity].
    destruct (c =? cI); [reflexivity |].
    destruct (c =? -1); reflexivity.
Qed.

Lemma find_minimum_from_fold f : forall i (best : float * (Z * float)),
  find_minimum_from f i (fst best) (fst (snd best)) =
  (fst (fold_left (keep_lower snd) (indexed_from i f) best),
   fst (snd (fold_left (keep_lower snd) (indexed_from i f) best))).
Proof.
  induction f as [| fi f IH]; intros i best; cbn [find_minimum_from
    indexed_from fold_left]; [reflexivity |].
  unfold keep_lower at 2 4. cbn [snd].
  destruct (flt fi (fst best) && fne fi inf).
  - exact (IH (i + 1) (fi, (i, fi))).
  - exact (IH (i + 1) best).
Qed.

Lemma find_minimum_in_field_spec (f : field float) :
  exists best,
    scanned snd (0, inf) (indexed_from 0 f) best /\
    fx (find_minimum_in_field f) = fst best /\
    ftoi (fy (find_minimum_in_field f)) = through_float (fst (snd best)).
Proof.
  exists (fold_left (keep_lower snd) (indexed_from 0 f) (inf, (0, inf))).
  split; [apply scan_first_minimum |].
  unfold find_minimum_in_field.
  change (find_minimum_from f 0 inf 0)
    with (find_minimum_from f 0 (fst (inf, (0, inf)))
            (fst (snd (inf, (0, inf))))).
  rewrite (find_minimum_from_fold f 0 (inf, (0, inf))).
  split; reflexivity.
Qed.

Lemma size_reset_energies energies :
  size (reset_energies energies) = size energies.
Proof. unfold reset_energies. apply size_fill, size_nonneg. Qed.

Lemma all_edges_step_invariant points next_edge cycle_index energies seen
    s i s' :
  all_edges_invariant seen s ->
  all_edges_step points next_edge cycle_index energies s i = Some s' ->
  get next_edge (s_current_edge s) = Some (s_current_edge s') /\
  all_edges_invariant
    (seen ++ map (pair (s_current_edge s))
                 (all_candidates points next_edge cycle_index (size energies)
                    (s_current_edge s)))
    s'.
Proof.
  intros Hinv. unfold all_edges_step. cbv zeta.
  set (I := s_current_edge s).
  destruct (compute_all_energies _ _ _ _ I) as [e' |] eqn:He';
    cbn [bind]; [| discriminate].
  apply compute_all_energies_spec in He'. rewrite size_reset_energies in He'.
  destruct (find_minimum_in_field_spec e') as (best & Hbest & Hfx & Hfy).
  rewrite He' in Hbest. rewrite Hfx, Hfy.
  destruct (get next_edge I) as [n |] eqn:Hn;
    [| destruct (flt _ _); discriminate].
  apply (scanned_map snd all_pair_cost (pair I)) in Hbest;
    [| reflexivity].
  pose proof (running_merge all_pair_cost _ all_chosen_pair _ _ _ _ _ _
                Hinv Hbest) as Hstep.
  cbn [fst snd] in Hstep.
  destruct (flt (fst best) (s_minimal_energy s));
    cbn [bind]; intros [= <-]; (split; [reflexivity | exact Hstep]).
Qed.

Lemma all_edges_walk points next_edge cycle_index energies l :
  forall seen s s',
    all_edges_invariant seen s ->
    for_each l (all_edges_step points next_edge cycle_index energies) s
      = Some s' ->
    all_edges_invariant
      (seen ++ all_pairs points next_edge cycle_index (size energies)
                 (ring_walk next_edge (length l) (s_current_edge s)))
      s'.
Proof.
  induction l as [| i l IH]; intros seen s s' Hinv; cbn [for_each length].
  - intros [= <-]. cbn. now rewrite app_nil_r.
  - destruct (all_edges_step _ _ _ _ s i) as [s1 |] eqn:Hstep;
      cbn [bind]; [| discriminate].
    intros Hrest.
    destruct (all_edges_step_invariant _ _ _ _ _ _ _ _ Hinv Hstep)
      as [Hn Hinv1].
    cbn [ring_walk]. rewrite Hn.
    unfold all_pairs. cbn [flat_map]. rewrite app_assoc.
    exact (IH _ _ _ Hinv1 Hrest).
Qed.

(** * The choice of an iteration of the stitching loop *)

Lemma find_edges_choice points next_edge cycle_index cycles energies m shape
    target pair :
  get cycles m = Some target ->
  find_edges_with_minimum_energy_with_neighbours points next_edge cycle_index
    cycles energies m shape = Some pair ->
  search_choice points next_edge cycle_index shape (size energies) target pair.
Proof.
  intros Hm. unfold find_edges_with_minimum_energy_with_neighbours.
  rewrite Hm. cbn [bind].
  destruct (for_each _ (neighbours_step _ _ _ _) _) as [s |] eqn:Hnear;
    cbn [bind]; [| discriminate].
  apply neighbourhood_search in Hnear as [Hend Hnear].
  unfold search_choice. cbv zeta.
  destruct (feq (s_minimal_energy s) inf) eqn:Einf.
  - (* nothing in the neighbourhoods *)
    apply feq_inf in Einf.
    destruct (for_each _ (all_edges_step _ _ _ _) s) as [s' |] eqn:Hfar;
      cbn [bind]; [| discriminate].
    intros [= <-]. right.
    destruct Hnear as [(_ & Hpair & Hnone) | (p & Hp & He & _)].
    + split; [exact Hnone |].
      apply (all_edges_walk points next_edge cycle_index energies _ [])
        in Hfar; [| left; repeat split; auto; intros y []].
      rewrite length_range, Hend in Hfar. cbn [app] in Hfar.
      destruct Hfar as [(_ & Hpair' & Hnone') | (q & Hq & _ & Hpair')].
      * right. now split.
      * left. now exists q.
    + destruct Hp as (_ & _ & _ & Hb & _).
      rewrite <- He, Einf in Hb. discriminate Hb.
  - intros [= <-]. left.
    destruct Hnear as [(He & _) | (p & Hp & _ & Hpair)].
    + rewrite He in Einf. discriminate Einf.
    + now exists p.
Qed.

(** C6, as stated, on the grid [two_diamonds_grid]: the target is cycle 0,
    the ring 77 -> 26 -> 86 -> 27, and the engine splices the pair (86, 28),
    the first pair of lowest cost of its walk; the pair (27, 79) has the same
    cost and a lower first edge. *)
Lemma stated_pair_choice_fails :
  exists g pair,
    to_graph oob_zero 200 two_diamonds_grid = Some g /\
    find_minimal_cycle (cycles g) (size (cycles g)) = Some 0 /\
    find_edges_with_minimum_energy_with_neighbours (points g) (next_edge g)
      (cycle_index g) (cycles g) (fill (size (points g)) zero) 0 (Ivec2 6 8)
      = Some pair /\
    pair = Ivec2 86 28 /\
    ~ stated_pair_choice (points g) (next_edge g) (cycle_index g) 0 pair.
Proof.
  eexists. eexists.
  split. { vm_compute. reflexivity. }
  split. { vm_compute. reflexivity. }
  split. { vm_compute. reflexivity. }
  split. { reflexivity. }
  intros H.
  edestruct (H 27 77 79 1) as (n & e & Hn & He & Hchoice);
    try (vm_compute; reflexivity); try discriminate.
  vm_compute in Hn. injection Hn as <-.
  vm_compute in He. injection He as <-.
  destruct Hchoice as [Hlt | [_ Hid]].
  - vm_compute in Hlt. discriminate Hlt.
  - cbn in Hid. lia.
Qed.

(** C6, amended: the target of an iteration is the record that is not a
    tombstone with the smallest length, the smallest id among those of that
    length (for lengths that floats compare exactly); the spliced pair, when
    the search returns, is the first pair of lowest cost in the order of the
    search, so that ties go to the pair met first: reference edges in ring
    order from the start edge of the record, neighbours in the order of the
    offsets (x, then y, then orientation), and only when no neighbourhood
    has a candidate, all edges by increasing index. *)
Theorem stitching_choice (g : graph) (energies : field float) (shape : ivec2) :
  exact_lengths (cycles g) ->
  (exists k c, get (cycles g) k = Some c /\ y2 c <> 0) ->
  exists m target,
    find_minimal_cycle (cycles g) (size (cycles g)) = Some m /\
    smallest_cycle (cycles g) m /\
    get (cycles g) m = Some target /\
    forall pair,
      find_edges_with_minimum_energy_with_neighbours (points g) (next_edge g)
        (cycle_index g) (cycles g) energies m shape = Some pair ->
      search_choice (points g) (next_edge g) (cycle_index g) shape
        (size energies) target pair.
Proof.
  intros Hexact Hlive.
  destruct (find_minimal_cycle_spec (cycles g)) as (m & Hm & Hsmall).
  specialize (Hsmall Hexact Hlive).
  destruct Hsmall as (target & Htarget & Hsmall).
  exists m, target. split; [exact Hm |].
  split; [now exists target |].
  split; [exact Htarget |].
  intros pair. now apply find_edges_choice.
Qed.

Lemma stitching_choice_witness :
  exists g,
    to_graph oob_zero 200 two_diamonds_grid = Some g /\
    exists m target,
      find_minimal_cycle (cycles g) (size (cycles g)) = Some m /\
      smallest_cycle (cycles g) m /\
      get (cycles g) m = Some target /\
      search_choice (points g) (next_edge g) (cycle_index g) (Ivec2 6 8)
        (size (fill (size (points g)) zero)) target (Ivec2 86 28).
Proof.
  eexists. split. { vm_compute. reflexivity. }
  match goal with
  | |- exists m target, find_minimal_cycle (cycles ?g) _ = _ /\ _ =>
      assert (Hcycles : cycles g = [Ivec2 77 4; Ivec2 79 4])
        by (vm_compute; reflexivity);
      destruct (stitching_choice g (fill (size (points g)) zero) (Ivec2 6 8))
        as (m & target & Hm & Hsmall & Htarget & Hpair)
  end.
  - rewrite Hcycles. intros c c' Hc Hc'.
    destruct Hc as [<- | [<- | []]], Hc' as [<- | [<- | []]];
      split; vm_compute; reflexivity.
  - exists 0, (Ivec2 77 4). split; [vm_compute; reflexivity | discriminate].
  - exists m, target.
    split; [exact Hm |]. split; [exact Hsmall |]. split; [exact Htarget |].
    apply Hpair.
    assert (E : m = 0).
    { vm_compute in Hm. now injection Hm as <-. }
    subst m. vm_compute. reflexivity.
Defined.

(** * Rings *)

Lemma chained_app next_edge l1 : forall a b l2,
  chained next_edge a (l1 ++ b :: l2) <->
  chained next_edge a (l1 ++ [b]) /\ chained next_edge b l2.
Proof.
  induction l1 as [| x l1 IH]; intros a b l2; cbn.
  - tauto.
  - rewrite (IH x b l2). tauto.
Qed.

Lemma ring_rotate next_edge A I B :
  ring next_edge (A ++ I :: B) -> ring next_edge (I :: B ++ A).
Proof.
  destruct A as [| a A]; [now rewrite app_nil_r |].
  cbn [ring app]. rewrite <- !app_assoc. cbn [app].
  rewrite (chained_app next_edge A a I (B ++ [a])).
  rewrite (chained_app next_edge B I a (A ++ [I])).
  tauto.
Qed.

(** The next pointer of an edge of a ring is on the ring. *)
Lemma ring_closed next_edge r e :
  ring next_edge r -> In e r ->
  exists e', get next_edge e = Some e' /\ In e' r.
Proof.
  intros Hr He. apply in_split in He as (A & B & ->).
  apply ring_rotate in Hr. cbn [ring] in Hr.
  destruct (B ++ A) as [| x t] eqn:E; cbn in Hr.
  - exists e. split; [tauto |]. apply in_or_app. right. now left.
  - exists x. split; [tauto |].
    assert (Hx : In x (B ++ A)) by (rewrite E; now left).
    apply in_app_or in Hx as [Hx | Hx]; apply in_or_app;
      [right; now right | now left].
Qed.

(** The links of a list depend on the pointers of its elements, the last
    one apart. *)
Lemma chained_snoc_ext next_edge next_edge' T : forall a z,
  (forall e, In e (a :: T) -> get next_edge' e = get next_edge e) ->
  chained next_edge a (T ++ [z]) -> chained next_edge' a (T ++ [z]).
Proof.
  induction T as [| t T IH]; intros a z H; cbn [app chained].
  - rewrite (H a) by now left. tauto.
  - rewrite (H a) by now left. intros [Ha Ht]. split; [exact Ha |].
    apply IH; [| exact Ht]. intros e He. apply H. now right.
Qed.

Lemma chained_snoc_change next_edge next_edge' T a a' z :
  get next_edge' a' = get next_edge a ->
  (forall e, In e T -> get next_edge' e = get next_edge e) ->
  chained next_edge a (T ++ [z]) -> chained next_edge' a' (T ++ [z]).
Proof.
  intros Ha H. destruct T as [| t T]; cbn [app chained].
  - now rewrite Ha.
  - rewrite Ha. intros [Hat Ht]. split; [exact Hat |].
    apply chained_snoc_ext with next_edge; [| exact Ht]. exact H.
Qed.

(** The splice of two rings, one read from [I] and the other from [J]:
    exchanging the next pointers of [I] and [J] makes one ring of them. *)
Lemma ring_splice next_edge next_edge' I T1 J T2 :
  ring next_edge (I :: T1) -> ring next_edge (J :: T2) ->
  get next_edge' I = get next_edge J ->
  get next_edge' J = get next_edge I ->
  (forall e, In e (T1 ++ T2) -> get next_edge' e = get next_edge e) ->
  ring next_edge' (I :: T2 ++ J :: T1).
Proof.
  cbn [ring]. intros H1 H2 HI HJ Hrest.
  rewrite <- app_assoc. cbn [app].
  apply (chained_app next_edge' T2 I J (T1 ++ [I])). split.
  - apply chained_snoc_change with next_edge J; auto.
    intros e He. apply Hrest. apply in_or_app. now right.
  - apply chained_snoc_change with next_edge I; auto.
    intros e He. apply Hrest. apply in_or_app. now left.
Qed.

Lemma ring_ext next_edge next_edge' r :
  (forall e, In e r -> get next_edge' e = get next_edge e) ->
  ring next_edge r -> ring next_edge' r.
Proof.
  destruct r as [| a t]; [easy |]. cbn [ring].
  apply chained_snoc_ext.
Qed.

(** A ring read from one of its edges. *)
Lemma ring_focus next_edge r I :
  ring next_edge r -> NoDup r -> In I r ->
  exists T,
    ring next_edge (I :: T) /\ NoDup (I :: T) /\
    (forall e, In e (I :: T) <-> In e r) /\
    length (I :: T) = length r.
Proof.
  intros Hr Hnd HI. apply in_split in HI as (A & B & ->).
  exists (B ++ A). split; [now apply ring_rotate |].
  assert (Hperm : Permutation (A ++ I :: B) (I :: B ++ A)).
  { symmetry. apply Permutation_cons_app. apply Permutation_app_comm. }
  split; [now apply (Permutation_NoDup Hperm) |]. split.
  - intros e. split; intros He.
    + now apply (Permutation_in e (Permutation_sym Hperm)).
    + now apply (Permutation_in e Hperm).
  - symmetry. now apply Permutation_length.
Qed.

(** Distinct edges of a field are not more than its slots. *)
Lemma NoDup_in_range_length (l : list Z) n :
  NoDup l -> (forall e, In e l -> 0 <= e < n) ->
  Z.of_nat (length l) <= Z.max 0 n.
Proof.
  intros Hnd Hr.
  assert (H : (length l <= length (range n))%nat).
  { apply NoDup_incl_length; [exact Hnd |].
    intros e He. apply in_range_list. now apply Hr. }
  rewrite length_range in H. lia.
Qed.

(** ** The number of live records *)

Lemma live_count_replace (cycles : list ivec2) v : forall n old,
  nth_error cycles n = Some old ->
  (length (live_cycles (replace_nth n cycles v))
   + (if (y2 old =? 0)%Z then 0 else 1)%nat
   = length (live_cycles cycles) + (if (y2 v =? 0)%Z then 0 else 1)%nat)%nat.
Proof.
  unfold live_cycles.
  induction cycles as [| c cycles IH]; intros [| n] old; cbn;
    try discriminate.
  - intros [= ->]. destruct (y2 old =? 0), (y2 v =? 0); cbn; lia.
  - intros H. specialize (IH n old H).
    destruct (y2 c =? 0); cbn; lia.
Qed.

Lemma live_count_set cycles cycles' k v old :
  set cycles k v = Some cycles' -> get cycles k = Some old ->
  (live_count cycles' + (if (y2 old =? 0)%Z then 0 else 1)%nat
   = live_count cycles + (if (y2 v =? 0)%Z then 0 else 1)%nat)%nat.
Proof.
  unfold set, get, live_count.
  destruct (in_range k (size cycles)); [| discriminate].
  intros [= <-] H. now apply live_count_replace.
Qed.

(** * The relabelling loop of [stitch_two_cycles] *)

Lemma relabel_loop_stop fuel next_edge cycle_index first c :
  relabel_loop fuel next_edge cycle_index first c first = Some cycle_index.
Proof. destruct fuel; cbn; now rewrite Z.eqb_refl. Qed.

(** From [point], along a chain that ends on [first], the loop gives the
    label to [point] and to the edges of the chain before [first]. *)
Lemma relabel_chain next_edge first c L :
  forall point cycle_index fuel,
    chained next_edge point (L ++ [first]) ->
    ~ In first (point :: L) ->
    (forall e, In e (point :: L) -> 0 <= e < size cycle_index) ->
    (length L < fuel)%nat ->
    exists cycle_index',
      relabel_loop fuel next_edge cycle_index first c point
        = Some cycle_index' /\
      size cycle_index' = size cycle_index /\
      (forall e, In e (point :: L) -> get cycle_index' e = Some c) /\
      (forall e, ~ In e (point :: L) ->
                 get cycle_index' e = get cycle_index e).
Proof.
  induction L as [| x L IH]; intros point cycle_index fuel Hch Hfirst Hrange
    Hfuel; (destruct fuel as [| fuel]; [cbn in Hfuel; lia |]);
    cbn [relabel_loop];
    (destruct (Z.eqb_spec point first) as [-> | _];
       [exfalso; apply Hfirst; now left |]);
    (destruct (set_in_range cycle_index point c
                 (Hrange point (or_introl eq_refl))) as (f1 & Hset));
    rewrite Hset; cbn [bind]; cbn [app chained] in Hch.
  - destruct Hch as [-> _]. cbn [bind]. rewrite relabel_loop_stop.
    exists f1. split; [reflexivity |].
    split; [now apply size_set in Hset |]. split.
    + intros e [<- | []]. now apply get_set_same in Hset.
    + intros e He. apply (get_set_other _ _ _ _ _ Hset).
      intros ->. apply He. now left.
  - destruct Hch as [-> Hch]. cbn [bind].
    pose proof (size_set _ _ _ _ Hset) as Hsize.
    destruct (IH x f1 fuel Hch) as (f2 & Hloop & Hsize2 & Hin & Hout).
    + intros H. apply Hfirst. now right.
    + intros e He. rewrite Hsize. apply Hrange. now right.
    + cbn in Hfuel. lia.
    + exists f2. split; [exact Hloop |].
      split; [congruence |]. split.
      * intros e [<- | He]; [| now apply Hin].
        destruct (in_dec Z.eq_dec point (x :: L)) as [Hp | Hp];
          [now apply Hin |].
        rewrite (Hout point Hp). now apply get_set_same in Hset.
      * intros e He. rewrite Hout by (intros H; apply He; now right).
        apply (get_set_other _ _ _ _ _ Hset).
        intros ->. apply He. now left.
Qed.

(** On a ring read from [I], the loop started on the next pointer of [I]
    gives the label to every other edge of the ring. *)
Lemma relabel_ring next_edge I P c cycle_index fuel point :
  ring next_edge (I :: P) -> NoDup (I :: P) ->
  (forall e, In e P -> 0 <= e < size cycle_index) ->
  (length P <= fuel)%nat ->
  get next_edge I = Some point ->
  exists cycle_index',
    relabel_loop fuel next_edge cycle_index I c point = Some cycle_index' /\
    size cycle_index' = size cycle_index /\
    (forall e, In e P -> get cycle_index' e = Some c) /\
    (forall e, ~ In e P -> get cycle_index' e = get cycle_index e).
Proof.
  intros Hring Hnd Hrange Hfuel Hpoint. cbn [ring] in Hring.
  destruct P as [| p P]; cbn [app chained] in Hring.
  - destruct Hring as [Hring _].
    assert (point = I) by congruence. subst point.
    rewrite relabel_loop_stop. exists cycle_index.
    repeat split; auto. intros e [].
  - destruct Hring as [Hp Hring].
    assert (point = p) by congruence. subst point.
    destruct (relabel_chain next_edge I c P p cycle_index fuel Hring)
      as (f' & Hloop & Hsize & Hin & Hout).
    + now apply NoDup_cons_iff in Hnd.
    + exact Hrange.
    + cbn in Hfuel. lia.
    + exists f'. auto.
Qed.

(** * The merge of two rings *)

Section Merge.

Variables (next_edge cycle_index : field Z) (cycles : field ivec2)
          (rings : field (list Z)).
Variables (next_edge' cycle_index' : field Z) (cycles' : field ivec2)
          (rings' : field (list Z)).
Variables (I J c1 c2 : Z) (T1 T2 r1 r2 : list Z) (rec1 rec2 : ivec2).

Hypothesis Hcat : catalogue next_edge cycle_index cycles rings.
Hypothesis Hc : c1 <> c2.
Hypothesis Hr1 : get rings c1 = Some r1.
Hypothesis Hr2 : get rings c2 = Some r2.
Hypothesis Hrec1 : get cycles c1 = Some rec1.
Hypothesis Hrec2 : get cycles c2 = Some rec2.

Hypothesis Hring1 : ring next_edge (I :: T1).
Hypothesis Hring2 : ring next_edge (J :: T2).
Hypothesis Hnd1 : NoDup (I :: T1).
Hypothesis Hnd2 : NoDup (J :: T2).
Hypothesis Hsame1 : forall e, In e (I :: T1) <-> In e r1.
Hypothesis Hsame2 : forall e, In e (J :: T2) <-> In e r2.
Hypothesis Hlab1 : forall e, In e r1 -> get cycle_index e = Some c1.
Hypothesis Hlab2 : forall e, In e r2 -> get cycle_index e = Some c2.
Hypothesis Hstart : In (x2 rec1) r1.
Hypothesis Hlen1 : y2 rec1 = Z.of_nat (length (I :: T1)).
Hypothesis Hlen2 : y2 rec2 = Z.of_nat (length (J :: T2)).

Hypothesis Hnext' :
  forall k, get next_edge' k =
            if k =? J then get next_edge I
            else if k =? I then get next_edge J else get next_edge k.
Hypothesis Hnext_size : size next_edge' = size next_edge.
Hypothesis Hlabel_in :
  forall e, In e (T2 ++ J :: T1) -> get cycle_index' e = Some c1.
Hypothesis Hlabel_out :
  forall e, ~ In e (T2 ++ J :: T1) -> get cycle_index' e = get cycle_index e.
Hypothesis Hlabel_size : size cycle_index' = size cycle_index.
Hypothesis Hcycles' :
  forall k, get cycles' k =
            if k =? c2 then Some (Ivec2 0 0)
            else if k =? c1
                 then Some (Ivec2 (x2 rec1) (y2 rec1 + y2 rec2))
                 else get cycles k.
Hypothesis Hcycles_size : size cycles' = size cycles.
Hypothesis Hrings' :
  forall k, get rings' k =
            if k =? c2 then Some []
            else if k =? c1 then Some (I :: T2 ++ J :: T1)
                 else get rings k.
Hypothesis Hrings_size : size rings' = size rings.

Lemma merge_labels_old e :
  In e (T2 ++ J :: T1) ->
  get cycle_index e = Some c1 \/ get cycle_index e = Some c2.
Proof.
  intros He. apply in_app_or in He as [He | [<- | He]].
  - right. apply Hlab2, Hsame2. now right.
  - right. apply Hlab2, Hsame2. now left.
  - left. apply Hlab1, Hsame1. now right.
Qed.

Lemma merge_distinct : I <> J.
Proof.
  intros E.
  assert (H1 : get cycle_index I = Some c1)
    by (apply Hlab1, Hsame1; now left).
  assert (H2 : get cycle_index J = Some c2)
    by (apply Hlab2, Hsame2; now left).
  congruence.
Qed.

Lemma merge_nodup : NoDup (I :: T2 ++ J :: T1).
Proof.
  assert (Hperm : Permutation ((I :: T1) ++ (J :: T2)) (I :: T2 ++ J :: T1)).
  { cbn [app]. apply perm_skip.
    transitivity (J :: T2 ++ T1).
    - exact (Permutation_app_comm T1 (J :: T2)).
    - apply Permutation_middle. }
  apply (Permutation_NoDup Hperm).
  apply NoDup_app; auto.
  intros e He1 He2.
  apply Hsame1, Hlab1 in He1. apply Hsame2, Hlab2 in He2. congruence.
Qed.

Lemma merge_ring : ring next_edge' (I :: T2 ++ J :: T1).
Proof.
  pose proof merge_distinct as HIJ.
  apply ring_splice with next_edge; auto.
  - rewrite Hnext'.
    destruct (Z.eqb_spec I J); [contradiction |]. now rewrite Z.eqb_refl.
  - rewrite Hnext'. now rewrite Z.eqb_refl.
  - intros e He. rewrite Hnext'.
    assert (HeJ : e <> J).
    { intros ->. apply in_app_or in He as [He | He].
      - assert (H1 : get cycle_index J = Some c1)
          by (apply Hlab1, Hsame1; now right).
        assert (H2 : get cycle_index J = Some c2)
          by (apply Hlab2, Hsame2; now left).
        congruence.
      - now apply NoDup_cons_iff in Hnd2. }
    assert (HeI : e <> I).
    { intros ->. apply in_app_or in He as [He | He].
      - now apply NoDup_cons_iff in Hnd1.
      - assert (H1 : get cycle_index I = Some c1)
          by (apply Hlab1, Hsame1; now left).
        assert (H2 : get cycle_index I = Some c2)
          by (apply Hlab2, Hsame2; now right).
        congruence. }
    destruct (Z.eqb_spec e J); [contradiction |].
    destruct (Z.eqb_spec e I); [contradiction | reflexivity].
Qed.

Lemma merge_label_ring e :
  In e (I :: T2 ++ J :: T1) -> get cycle_index' e = Some c1.
Proof.
  intros [<- | He]; [| now apply Hlabel_in].
  rewrite Hlabel_out; [apply Hlab1, Hsame1; now left |].
  pose proof merge_nodup as H. now apply NoDup_cons_iff in H.
Qed.

Lemma merge_in_ring1 e : In e r1 -> In e (I :: T2 ++ J :: T1).
Proof.
  intros He. apply Hsame1 in He as [<- | He]; [now left |].
  right. apply in_or_app. right. now right.
Qed.

Lemma merge_in_ring2 e : In e r2 -> In e (T2 ++ J :: T1).
Proof.
  intros He. apply Hsame2 in He as [<- | He]; apply in_or_app;
    [right; now left | now left].
Qed.

Lemma merge_catalogue : catalogue next_edge' cycle_index' cycles' rings'.
Proof.
  destruct Hcat as [Hsize Hrsize Hrecords Hlabels].
  constructor.
  - congruence.
  - congruence.
  - intros k record. rewrite Hcycles', Hrings'.
    destruct (Z.eqb_spec k c2) as [-> | Hk2].
    { intros [= <-]. exists []. split; [reflexivity |]. now left. }
    destruct (Z.eqb_spec k c1) as [-> | Hk1].
    { intros [= <-]. eexists. split; [reflexivity |]. right. cbn [x2 y2].
      split.
      { rewrite Hlen1, Hlen2. cbn [length]. rewrite length_app.
        cbn [length]. lia. }
      split; [now apply merge_in_ring1 |].
      split; [apply merge_ring |].
      split; [apply merge_nodup |].
      apply merge_label_ring. }
    intros Hrecord.
    destruct (Hrecords k record Hrecord) as (r & Hr & Hrr).
    exists r. split; [exact Hr |].
    destruct Hrr as [Htomb | (Hlen & Hin & Hring & Hnd & Hlab)];
      [now left | right].
    assert (Hout : forall e, In e r -> ~ In e (T2 ++ J :: T1)).
    { intros e He HeP. apply Hlab in He.
      destruct (merge_labels_old e HeP); congruence. }
    repeat split; auto.
    + apply ring_ext with next_edge; [| exact Hring].
      intros e He. rewrite Hnext'.
      destruct (Z.eqb_spec e J) as [-> | _].
      { exfalso. apply (Hout J He). apply in_or_app. right. now left. }
      destruct (Z.eqb_spec e I) as [-> | _]; [| reflexivity].
      exfalso. apply Hlab in He.
      assert (H1 : get cycle_index I = Some c1)
        by (apply Hlab1, Hsame1; now left).
      congruence.
    + intros e He. rewrite Hlabel_out by now apply Hout. now apply Hlab.
  - intros e c He Hne. rewrite Hrings'.
    destruct (in_dec Z.eq_dec e (T2 ++ J :: T1)) as [HeP | HeP].
    { rewrite (Hlabel_in e HeP) in He. injection He as <-.
      destruct (Z.eqb_spec c1 c2); [contradiction |].
      rewrite Z.eqb_refl. eexists. split; [reflexivity |]. now right. }
    rewrite (Hlabel_out e HeP) in He.
    destruct (Hlabels e c He Hne) as (r & Hr & Hin).
    destruct (Z.eqb_spec c c2) as [-> | Hk2].
    { exfalso. apply HeP. apply merge_in_ring2. congruence. }
    destruct (Z.eqb_spec c c1) as [-> | Hk1].
    { eexists. split; [reflexivity |]. apply merge_in_ring1. congruence. }
    now exists r.
Qed.

(** The edges with a label are the same after the merge. *)
Lemma merge_labelled e :
  c1 <> -1 -> (labelled cycle_index' e <-> labelled cycle_index e).
Proof.
  intros Hne. unfold labelled.
  destruct (in_dec Z.eq_dec e (T2 ++ J :: T1)) as [HeP | HeP].
  - rewrite (Hlabel_in e HeP). split; intros _.
    + destruct (merge_labels_old e HeP) as [H | H]; rewrite H.
      * now exists c1.
      * exists c2. split; [reflexivity |].
        intros E. pose proof (get_Some_range _ _ _ Hr2). lia.
    + now exists c1.
  - now rewrite (Hlabel_out e HeP).
Qed.

End Merge.

(** * [stitch_two_cycles] on two rings of a catalogue *)

(** The ring of a label, read from an edge with that label. *)
Lemma catalogue_ring next_edge cycle_index cycles rings I c :
  catalogue next_edge cycle_index cycles rings ->
  get cycle_index I = Some c -> c <> -1 ->
  exists r record T,
    get rings c = Some r /\ get cycles c = Some record /\
    In (x2 record) r /\
    (forall e, In e r -> get cycle_index e = Some c) /\
    ring next_edge (I :: T) /\ NoDup (I :: T) /\
    (forall e, In e (I :: T) <-> In e r) /\
    y2 record = Z.of_nat (length (I :: T)).
Proof.
  intros [Hsize Hrsize Hrecords Hlabels] HI Hne.
  destruct (Hlabels I c HI Hne) as (r & Hr & HIr).
  destruct (get_in_range cycles c) as (record & Hrecord).
  { rewrite <- Hrsize. now apply get_Some_range in Hr. }
  destruct (Hrecords c record Hrecord) as (r' & Hr' & Hrr).
  assert (r' = r) by congruence. subst r'.
  destruct Hrr as [[_ ->] | (Hlen & Hstart & Hring & Hnd & Hlab)];
    [destruct HIr |].
  destruct (ring_focus next_edge r I Hring Hnd HIr)
    as (T & HringT & HndT & Hsame & HlenT).
  exists r, record, T. repeat split; auto; try apply Hsame.
  now rewrite HlenT.
Qed.

Lemma stitch_two_cycles_catalogue fuel g rings I J c1 c2 :
  catalogue (next_edge g) (cycle_index g) (cycles g) rings ->
  size (previous_edge g) = size (next_edge g) ->
  get (cycle_index g) I = Some c1 -> get (cycle_index g) J = Some c2 ->
  c1 <> -1 -> c2 <> -1 -> c1 <> c2 ->
  size (next_edge g) <= Z.of_nat fuel ->
  exists g' rings',
    stitch_two_cycles fuel g (Ivec2 I J) = Some g' /\
    catalogue (next_edge g') (cycle_index g') (cycles g') rings' /\
    size (previous_edge g') = size (next_edge g') /\
    points g' = points g /\
    size (next_edge g') = size (next_edge g) /\
    size (cycles g') = size (cycles g) /\
    S (live_count (cycles g')) = live_count (cycles g) /\
    (forall e, labelled (cycle_index g') e <-> labelled (cycle_index g) e).
Proof.
  intros Hcat Hprev HI HJ Hne1 Hne2 Hc Hfuel.
  destruct (catalogue_ring _ _ _ _ I c1 Hcat HI Hne1)
    as (r1 & rec1 & T1 & Hr1 & Hrec1 & Hstart & Hlab1 & Hring1 & Hnd1
        & Hsame1 & Hlen1).
  destruct (catalogue_ring _ _ _ _ J c2 Hcat HJ Hne2)
    as (r2 & rec2 & T2 & Hr2 & Hrec2 & _ & Hlab2 & Hring2 & Hnd2
        & Hsame2 & Hlen2).
  pose proof (cat_size _ _ _ _ Hcat) as Hsize.
  pose proof (cat_rings _ _ _ _ Hcat) as Hrsize.
  (* the two next pointers *)
  destruct (ring_closed _ _ I Hring1 (or_introl eq_refl)) as (i2 & Hi2 & Hi2r).
  destruct (ring_closed _ _ J Hring2 (or_introl eq_refl)) as (j2 & Hj2 & Hj2r).
  assert (Hrange1 : forall e, In e (I :: T1) -> 0 <= e < size (next_edge g)).
  { intros e He. apply Hsame1, Hlab1, get_Some_range in He. lia. }
  assert (Hrange2 : forall e, In e (J :: T2) -> 0 <= e < size (next_edge g)).
  { intros e He. apply Hsame2, Hlab2, get_Some_range in He. lia. }
  assert (HIJ : I <> J) by congruence.
  (* the four pointer assignments *)
  destruct (set_in_range (next_edge g) I j2) as (n1 & Hn1);
    [apply Hrange1; now left |].
  destruct (set_in_range (previous_edge g) i2 J) as (p1 & Hp1);
    [rewrite Hprev; now apply Hrange1 |].
  destruct (set_in_range n1 J i2) as (n2 & Hn2);
    [rewrite (size_set _ _ _ _ Hn1); apply Hrange2; now left |].
  destruct (set_in_range p1 j2 I) as (p2 & Hp2);
    [rewrite (size_set _ _ _ _ Hp1), Hprev; now apply Hrange2 |].
  assert (Hnext' : forall k,
            get n2 k = if k =? J then get (next_edge g) I
                       else if k =? I then get (next_edge g) J
                            else get (next_edge g) k).
  { intros k. rewrite (get_set_set _ _ _ _ _ _ _ k Hn1 Hn2).
    now rewrite Hi2, Hj2. }
  assert (Hn2size : size n2 = size (next_edge g)).
  { rewrite (size_set _ _ _ _ Hn2). apply (size_set _ _ _ _ Hn1). }
  assert (Hpoint : get n2 I = Some j2).
  { rewrite Hnext'. destruct (Z.eqb_spec I J); [contradiction |].
    now rewrite Z.eqb_refl. }
  (* the labels *)
  assert (HringP : ring n2 (I :: T2 ++ J :: T1)).
  { apply (merge_ring (next_edge g) (cycle_index g) n2 I J c1 c2 T1 T2 r1 r2);
      assumption. }
  assert (HndP : NoDup (I :: T2 ++ J :: T1)).
  { apply (merge_nodup (cycle_index g) I J c1 c2 T1 T2 r1 r2); assumption. }
  assert (HrangeP : forall e, In e (I :: T2 ++ J :: T1) ->
                              0 <= e < size (cycle_index g)).
  { rewrite Hsize. intros e [<- | He]; [apply Hrange1; now left |].
    apply in_app_or in He as [He | He];
      [apply Hrange2; now right | ].
    destruct He as [<- | He]; [apply Hrange2; now left |].
    apply Hrange1; now right. }
  destruct (relabel_ring n2 I (T2 ++ J :: T1) c1 (cycle_index g) fuel j2
              HringP HndP) as (cyc' & Hloop & Hcsize & Hin & Hout).
  { intros e He. apply HrangeP. now right. }
  { pose proof (NoDup_in_range_length _ _ HndP HrangeP) as Hl.
    cbn [length] in Hl. lia. }
  { exact Hpoint. }
  (* the catalogue *)
  set (new_cycle := Ivec2 (x2 rec1) (y2 rec1 + y2 rec2)).
  destruct (set_in_range (cycles g) c1 new_cycle) as (cy1 & Hcy1);
    [now apply get_Some_range in Hrec1 |].
  destruct (set_in_range cy1 c2 (Ivec2 0 0)) as (cy2 & Hcy2);
    [rewrite (size_set _ _ _ _ Hcy1); now apply get_Some_range in Hrec2 |].
  destruct (set_in_range rings c1 (I :: T2 ++ J :: T1)) as (rg1 & Hrg1);
    [now apply get_Some_range in Hr1 |].
  destruct (set_in_range rg1 c2 []) as (rg2 & Hrg2);
    [rewrite (size_set _ _ _ _ Hrg1); now apply get_Some_range in Hr2 |].
  exists (Graph (points g) p2 n2 cyc' cy2), rg2.
  split.
  { unfold stitch_two_cycles. cbn [x2 y2].
    rewrite HI, HJ. cbn [bind]. rewrite Hi2, Hj2. cbn [bind x2 y2].
    rewrite Hn1. cbn [bind]. rewrite Hp1. cbn [bind].
    rewrite Hn2. cbn [bind]. rewrite Hp2. cbn [bind].
    rewrite Hpoint. cbn [bind]. rewrite Hloop. cbn [bind].
    rewrite Hrec1, Hrec2. cbn [bind]. fold new_cycle.
    rewrite Hcy1. cbn [bind]. rewrite Hcy2. reflexivity. }
  cbn [next_edge cycle_index cycles previous_edge points].
  assert (Hcy2size : size cy2 = size (cycles g)).
  { rewrite (size_set _ _ _ _ Hcy2). apply (size_set _ _ _ _ Hcy1). }
  split.
  { apply (merge_catalogue (next_edge g) (cycle_index g) (cycles g) rings
             n2 cyc' cy2 rg2 I J c1 c2 T1 T2 r1 r2 rec1 rec2);
      try assumption.
    - intros k. apply (get_set_set _ _ _ _ _ _ _ k Hcy1 Hcy2).
    - intros k. apply (get_set_set _ _ _ _ _ _ _ k Hrg1 Hrg2).
    - rewrite (size_set _ _ _ _ Hrg2). apply (size_set _ _ _ _ Hrg1). }
  split.
  { rewrite (size_set _ _ _ _ Hp2), (size_set _ _ _ _ Hp1). congruence. }
  split; [reflexivity |].
  split; [exact Hn2size |].
  split; [exact Hcy2size |].
  split.
  { pose proof (live_count_set _ _ _ _ _ Hcy1 Hrec1) as L1.
    assert (Hrec2' : get cy1 c2 = Some rec2).
    { rewrite (get_set_other _ _ _ _ _ Hcy1); auto. }
    pose proof (live_count_set _ _ _ _ _ Hcy2 Hrec2') as L2.
    unfold new_cycle in L1. cbn [y2] in L1, L2.
    cbn [length] in Hlen1, Hlen2.
    destruct (Z.eqb_spec (y2 rec1) 0); [lia |].
    destruct (Z.eqb_spec (y2 rec2) 0); [lia |].
    destruct (Z.eqb_spec (y2 rec1 + y2 rec2) 0); [lia |].
    rewrite Z.eqb_refl in L2. lia. }
  intros e.
  apply (merge_labelled (cycle_index g) rings cyc' I J c1 c2 T1 T2 r1 r2);
    assumption.
Qed.

(** * The search on a catalogue *)

(** ** Walks stay on their ring *)

Lemma ring_walk_in next_edge r n : forall I,
  ring next_edge r -> In I r ->
  forall e, In e (ring_walk next_edge n I) -> In e r.
Proof.
  induction n as [| n IH]; intros I Hr HI e; cbn [ring_walk]; [intros [] |].
  intros [<- | He]; [exact HI |].
  destruct (ring_closed next_edge r I Hr HI) as (I' & HI' & HI'r).
  rewrite HI' in He. now apply (IH I').
Qed.

Lemma ring_end_in next_edge r n : forall I,
  ring next_edge r -> In I r -> In (ring_end next_edge n I) r.
Proof.
  induction n as [| n IH]; intros I Hr HI; cbn [ring_end]; [exact HI |].
  destruct (ring_closed next_edge r I Hr HI) as (I' & HI' & HI'r).
  rewrite HI'. now apply IH.
Qed.

Lemma ring_walk_head next_edge n I :
  (0 < n)%nat -> exists t, ring_walk next_edge n I = I :: t.
Proof. destruct n; [lia |]. cbn. eauto. Qed.

(** ** Reads on the edges of a catalogue *)

Section Catalogue.

Variables (points : field vec2) (next_edge cycle_index : field Z)
          (cycles : field ivec2) (rings : field (list Z)).

Hypothesis Hcat : catalogue next_edge cycle_index cycles rings.
Hypothesis Hpoints : size points = size next_edge.

Lemma labelled_next e :
  labelled cycle_index e ->
  exists n, get next_edge e = Some n /\ labelled cycle_index n.
Proof.
  intros (c & He & Hne).
  destruct (catalogue_ring _ _ _ _ e c Hcat He Hne)
    as (r & record & T & _ & _ & _ & Hlab & Hring & _ & Hsame & _).
  destruct (ring_closed _ _ e Hring (or_introl eq_refl)) as (n & Hn & Hnr).
  exists n. split; [exact Hn |]. exists c. split; [| exact Hne].
  now apply Hlab, Hsame.
Qed.

Lemma labelled_point e :
  labelled cycle_index e -> exists p, get points e = Some p.
Proof.
  intros (c & He & _). apply get_in_range.
  apply get_Some_range in He.
  rewrite Hpoints, <- (cat_size _ _ _ _ Hcat). exact He.
Qed.

Lemma edge_pair_energy_total I n J :
  labelled cycle_index I -> get next_edge I = Some n ->
  labelled cycle_index J ->
  exists e, edge_pair_energy points next_edge (Ivec2 I n) J = Some e /\
            (finite_energies points cycle_index -> flt e inf = true).
Proof.
  intros HI Hn HJ. unfold edge_pair_energy. cbn [x2 y2].
  destruct (labelled_next I HI) as (n' & Hn' & Hnl).
  assert (n' = n) by congruence. subst n'.
  destruct (labelled_next J HJ) as (nj & Hnj & Hnjl).
  destruct (labelled_point I HI) as (pi & Hpi).
  destruct (labelled_point n Hnl) as (pn & Hpn).
  destruct (labelled_point J HJ) as (pj & Hpj).
  destruct (labelled_point nj Hnjl) as (pnj & Hpnj).
  rewrite Hnj. cbn [bind]. rewrite Hpi. cbn [bind].
  rewrite Hpn. cbn [bind]. rewrite Hpj. cbn [bind]. rewrite Hpnj. cbn [bind].
  eexists. split; [reflexivity |].
  intros Hfin. apply (Hfin I n J nj); assumption.
Qed.

(** ** The two searches return *)

Variable shape : ivec2.
Hypothesis Hbounds : neighbourhoods_in_bounds shape cycle_index.

Lemma compute_neighbours_energies_total I :
  labelled cycle_index I ->
  exists v,
    compute_neighbours_energies points next_edge cycle_index shape I = Some v.
Proof.
  intros HI. unfold compute_neighbours_energies.
  destruct (labelled_next I HI) as (n & Hn & _).
  pose proof HI as (cI & HcI & _).
  rewrite Hn, HcI. cbn [bind]. cbv zeta.
  destruct (for_each_total (fun _ => True) neighbour_offsets
              (neighbours_energies_step points next_edge cycle_index shape
                 (Ivec2 I n) cI (edge_1d_to_3d_index shape I))
              (inf, Ivec3 0 0 0)) as (best & -> & _); [| exact Logic.I |].
  - intros best o Ho _. unfold neighbours_energies_step. cbv zeta.
    set (J := edge_3d_to_1d_index shape _ _ _).
    destruct (get_in_range cycle_index J (Hbounds I o HI Ho)) as (c & Hc).
    rewrite Hc. cbn [bind].
    destruct ((c =? cI) || (c =? -1)) eqn:Eskip; [eauto |].
    apply orb_false_elim in Eskip as [_ Hne%Z.eqb_neq].
    destruct (edge_pair_energy_total I n J HI Hn) as (e & -> & _).
    { now exists c. }
    cbn [bind]. destruct (_ && _); eauto.
  - cbn [bind]. destruct best. eauto.
Qed.

Lemma neighbours_step_total s i :
  labelled cycle_index (s_current_edge s) ->
  exists s',
    neighbours_step points next_edge cycle_index shape s i = Some s' /\
    labelled cycle_index (s_current_edge s').
Proof.
  intros HI. unfold neighbours_step. cbv zeta.
  destruct (compute_neighbours_energies_total _ HI) as (v & ->).
  cbn [bind].
  destruct (labelled_next _ HI) as (n & Hn & Hnl).
  destruct (_ && _); rewrite Hn; cbn [bind]; eauto.
Qed.

Variable energies : field float.
Hypothesis Henergies : size energies = size cycle_index.

Lemma compute_all_energies_total I :
  labelled cycle_index I ->
  exists e',
    compute_all_energies points next_edge cycle_index
      (reset_energies energies) I = Some e'.
Proof.
  intros HI. unfold compute_all_energies.
  destruct (labelled_next I HI) as (n & Hn & _).
  pose proof HI as (cI & HcI & _).
  rewrite Hn, HcI. cbn [bind]. rewrite size_reset_energies.
  destruct (for_each_total (fun f : field float => size f = size energies)
              (range (size energies))
              (all_energies_step points next_edge cycle_index (Ivec2 I n) cI)
              (reset_energies energies)) as (e' & -> & _); eauto.
  - intros f k Hk Hf. unfold all_energies_step.
    apply in_range_list in Hk.
    destruct (get_in_range cycle_index k) as (c & Hc); [lia |].
    rewrite Hc. cbn [bind].
    assert (Hset : forall v, exists f', set f k v = Some f' /\
                                        size f' = size energies).
    { intros v. destruct (set_in_range f k v) as (f' & Hf'); [lia |].
      exists f'. split; [exact Hf' |].
      now rewrite (size_set _ _ _ _ Hf'). }
    destruct (c =? cI); [apply Hset |].
    destruct (Z.eqb_spec c (-1)) as [_ | Hne]; [apply Hset |].
    destruct (edge_pair_energy_total I n k HI Hn) as (e & -> & _).
    { now exists c. }
    cbn [bind]. apply Hset.
  - apply size_reset_energies.
Qed.

Lemma all_edges_step_total s i :
  labelled cycle_index (s_current_edge s) ->
  exists s',
    all_edges_step points next_edge cycle_index energies s i = Some s' /\
    labelled cycle_index (s_current_edge s').
Proof.
  intros HI. unfold all_edges_step. cbv zeta.
  destruct (compute_all_energies_total _ HI) as (e' & ->).
  cbn [bind].
  destruct (labelled_next _ HI) as (n & Hn & Hnl).
  destruct (flt _ _); rewrite Hn; cbn [bind]; eauto.
Qed.

Lemma find_edges_total m target :
  get cycles m = Some target -> y2 target <> 0 ->
  exists pair,
    find_edges_with_minimum_energy_with_neighbours points next_edge
      cycle_index cycles energies m shape = Some pair.
Proof.
  intros Hm Hlive.
  assert (Hstart : labelled cycle_index (x2 target)).
  { destruct (cat_records _ _ _ _ Hcat m target Hm) as (r & _ & Hrr).
    destruct Hrr as [[Hz _] | (_ & Hin & _ & _ & Hlab)]; [contradiction |].
    exists m. split; [now apply Hlab |].
    apply get_Some_range in Hm. lia. }
  unfold find_edges_with_minimum_energy_with_neighbours.
  rewrite Hm. cbn [bind].
  destruct (for_each_total
              (fun s => labelled cycle_index (s_current_edge s))
              (range (y2 target))
              (neighbours_step points next_edge cycle_index shape)
              (SearchState (x2 target) inf (Ivec2 0 0)))
    as (s & -> & Hs); [| exact Hstart |].
  { intros s i _. apply neighbours_step_total. }
  cbn [bind]. destruct (feq _ _); [| eauto].
  destruct (for_each_total
              (fun s => labelled cycle_index (s_current_edge s))
              (range (y2 target))
              (all_edges_step points next_edge cycle_index energies) s)
    as (s' & -> & _); [| exact Hs |].
  { intros s1 i _. apply all_edges_step_total. }
  cbn [bind]. eauto.
Qed.

End Catalogue.

(** * The pair the search returns *)

Lemma neighbour_offsets_range o :
  In o neighbour_offsets ->
  0 <= x3 o <= 4 /\ 0 <= y3 o <= 4 /\ 0 <= z3 o <= 1.
Proof.
  intros Ho.
  assert (H : forallb (fun o => (0 <=? x3 o) && (x3 o <=? 4) &&
                                (0 <=? y3 o) && (y3 o <=? 4) &&
                                (0 <=? z3 o) && (z3 o <=? 1))
                      neighbour_offsets = true) by (vm_compute; reflexivity).
  rewrite forallb_forall in H. specialize (H o Ho). lia.
Qed.

Lemma edge_1d_to_3d_index_range shape I :
  0 <= x2 shape -> 0 < y2 shape -> 0 <= I ->
  0 <= x3 (edge_1d_to_3d_index shape I) <= I /\
  0 <= y3 (edge_1d_to_3d_index shape I) <= I.
Proof.
  intros Hx Hy HI. unfold edge_1d_to_3d_index. cbv zeta.
  destruct (Z.ltb_spec I (y2 shape * (x2 shape + 1))); cbn [x3 y3].
  - pose proof (Z.mod_pos_bound I (y2 shape) Hy).
    pose proof (Z.mod_le I (y2 shape) HI Hy).
    pose proof (Z.div_pos I (y2 shape) HI Hy).
    pose proof (Z.div_le_upper_bound I (y2 shape) I Hy). nia.
  - set (K := I - y2 shape * (x2 shape + 1)) in *.
    assert (HK : 0 <= K) by (unfold K; lia).
    assert (Hy' : 0 < y2 shape + 1) by lia.
    pose proof (Z.mod_pos_bound K (y2 shape + 1) Hy').
    pose proof (Z.mod_le K (y2 shape + 1) HK Hy').
    pose proof (Z.div_pos K (y2 shape + 1) HK Hy').
    pose proof (Z.div_le_upper_bound K (y2 shape + 1) K Hy').
    assert (K <= I) by (unfold K; nia). nia.
Qed.

(** The edge the search returns is the neighbour it selected, when floats
    carry the indices exactly. *)
Lemma returned_edge_exact shape N I o :
  exact_floats N -> 0 <= x2 shape -> 0 < y2 shape ->
  0 <= I -> I + 2 <= N -> In o neighbour_offsets ->
  let I3 := edge_1d_to_3d_index shape I in
  let J := edge_3d_to_1d_index shape (x3 I3 + x3 o - 2) (y3 I3 + y3 o - 2)
             (z3 o) in
  -2 <= J <= N ->
  returned_edge shape I o = J.
Proof.
  intros [Hexact _] Hx Hy HI HN Ho I3 J HJ.
  destruct (neighbour_offsets_range o Ho) as (Hox & Hoy & Hoz).
  destruct (edge_1d_to_3d_index_range shape I Hx Hy HI) as [H3x H3y].
  fold I3 in H3x, H3y.
  unfold returned_edge. cbv zeta. fold I3.
  rewrite (Hexact (x3 I3 + x3 o - 2)) by lia.
  rewrite (Hexact (y3 I3 + y3 o - 2)) by lia.
  rewrite (Hexact (z3 o)) by lia.
  apply Hexact. exact HJ.
Qed.

(** ** Another live record *)

Lemma live_exists (l : list ivec2) :
  (1 <= length (live_cycles l))%nat ->
  exists k record, nth_error l k = Some record /\ y2 record <> 0.
Proof.
  unfold live_cycles.
  induction l as [| a l IH]; cbn; [lia |].
  destruct (Z.eqb_spec (y2 a) 0) as [_ | Ha]; cbn.
  - intros H. destruct (IH H) as (k & record & Hk & Hr).
    now exists (S k), record.
  - intros _. now exists O, a.
Qed.

Lemma live_elsewhere (l : list ivec2) : forall m : nat,
  (2 <= length (live_cycles l))%nat ->
  exists k record, k <> m /\ nth_error l k = Some record /\ y2 record <> 0.
Proof.
  induction l as [| a l IH]; intros m; [cbn; lia |].
  unfold live_cycles. cbn [filter].
  destruct (Z.eqb_spec (y2 a) 0) as [_ | Ha]; cbn [negb length]; intros H.
  - destruct m as [| m].
    + destruct (live_exists l) as (k & record & Hk & Hr);
        [unfold live_cycles; lia |].
      now exists (S k), record.
    + destruct (IH m H) as (k & record & Hkm & Hk & Hr).
      exists (S k), record. repeat split; auto.
  - destruct m as [| m].
    + destruct (live_exists l) as (k & record & Hk & Hr);
        [unfold live_cycles; lia |].
      now exists (S k), record.
    + exists O, a. repeat split; auto.
Qed.

Lemma other_live_record (cycles : field ivec2) m :
  (2 <= live_count cycles)%nat ->
  exists k record, k <> m /\ get cycles k = Some record /\ y2 record <> 0.
Proof.
  intros H.
  destruct (live_elsewhere cycles (Z.to_nat m) H)
    as (k & record & Hkm & Hk & Hr).
  exists (Z.of_nat k), record. repeat split; auto; [lia |].
  unfold get, size.
  assert (Hlt : (k < length cycles)%nat)
    by (apply nth_error_Some; congruence).
  rewrite (proj2 (in_range_iff _ _)) by lia.
  now rewrite Nat2Z.id.
Qed.

(** ** The pair joins the target ring to another ring *)

Lemma in_neighbour_pairs points next_edge cycle_index shape walk p :
  In p (neighbour_pairs points next_edge cycle_index shape walk) ->
  exists o,
    In (fst p) walk /\ In o neighbour_offsets /\
    neighbour_candidate points next_edge cycle_index shape (fst p) o
      = Some (snd p).
Proof.
  unfold neighbour_pairs, neighbour_candidates. intros Hp.
  apply in_flat_map in Hp as (I & HI & Hp).
  apply in_map_iff in Hp as (cand & <- & Hcand).
  apply in_flat_map in Hcand as (o & Ho & Hcand).
  exists o. cbn [fst snd]. repeat split; auto.
  destruct (neighbour_candidate _ _ _ _ I o) as [c |];
    [destruct Hcand as [-> | []]; reflexivity | destruct Hcand].
Qed.

Lemma in_all_pairs points next_edge cycle_index n walk q :
  In q (all_pairs points next_edge cycle_index n walk) <->
  In (fst q) walk /\ 0 <= fst (snd q) < n /\
  recorded_energy points next_edge cycle_index (fst q) (fst (snd q))
    = Some (snd (snd q)).
Proof.
  unfold all_pairs, all_candidates. split.
  - intros Hq.
    apply in_flat_map in Hq as (I & HI & Hq).
    apply in_map_iff in Hq as ([J e] & <- & HJ).
    apply in_flat_map in HJ as (J' & HJ' & HJ).
    cbn [fst snd]. apply in_range_list in HJ'.
    destruct (recorded_energy _ _ _ I J') as [e' |] eqn:E;
      [| destruct HJ].
    destruct HJ as [[= <- <-] | []]. auto.
  - destruct q as [I [J e]]. cbn [fst snd]. intros (HI & HJ & He).
    apply in_flat_map. exists I. split; [exact HI |].
    apply in_map. apply in_flat_map. exists J.
    split; [now apply in_range_list |]. rewrite He. now left.
Qed.

Section Valid.

Variables (points : field vec2) (next_edge cycle_index : field Z)
          (cycles : field ivec2) (rings : field (list Z)).
Variables (shape : ivec2) (energies : field float) (N : Z).

Hypothesis Hcat : catalogue next_edge cycle_index cycles rings.
Hypothesis Hpoints : size points = size next_edge.
Hypothesis Henergies : size energies = size cycle_index.
Hypothesis Hfinite : finite_energies points cycle_index.
Hypothesis Hexact : exact_floats N.
Hypothesis HN : size cycle_index + 2 <= N.
Hypothesis Hshape : 0 <= x2 shape /\ 0 < y2 shape.

Lemma near_pair_joins m walk p :
  (forall e, In e walk -> get cycle_index e = Some m) ->
  In p (neighbour_pairs points next_edge cycle_index shape walk) ->
  joins_two_rings cycle_index m (chosen_pair shape p).
Proof.
  intros Hwalk Hp.
  destruct (in_neighbour_pairs _ _ _ _ _ _ Hp) as (o & HI & Ho & Hcand).
  destruct p as [I cand]. cbn [fst snd] in *.
  pose proof (Hwalk I HI) as HcI.
  unfold neighbour_candidate in Hcand. rewrite HcI in Hcand.
  destruct (get next_edge I) as [n |]; cbn [bind] in Hcand;
    [| discriminate Hcand].
  cbv zeta in Hcand.
  set (J := edge_3d_to_1d_index shape _ _ _) in Hcand.
  destruct (get cycle_index J) as [c |] eqn:Hc; cbn [bind] in Hcand;
    [| discriminate Hcand].
  destruct ((c =? m) || (c =? -1)) eqn:Eskip; [discriminate Hcand |].
  apply orb_false_elim in Eskip as [Hm%Z.eqb_neq Hne%Z.eqb_neq].
  destruct (edge_pair_energy _ _ _ J) as [e |]; cbn [bind] in Hcand;
    [| discriminate Hcand].
  injection Hcand as <-.
  unfold chosen_pair. cbn [fst snd cand_offset].
  pose proof (get_Some_range _ _ _ HcI) as HrI.
  pose proof (get_Some_range _ _ _ Hc) as HrJ.
  assert (HJ : returned_edge shape I o = J).
  { apply (returned_edge_exact shape N I o Hexact); try tauto; lia. }
  rewrite HJ. exists c. cbn [x2 y2]. auto.
Qed.

Lemma far_pair_joins m walk q :
  (forall e, In e walk -> get cycle_index e = Some m) ->
  In q (all_pairs points next_edge cycle_index (size energies) walk) ->
  flt (all_pair_cost q) inf = true ->
  joins_two_rings cycle_index m (all_chosen_pair q).
Proof.
  intros Hwalk Hq Hcost.
  apply in_all_pairs in Hq as (HI & HJ & He).
  destruct q as [I [J e]]. unfold all_pair_cost in Hcost.
  cbn [fst snd] in *.
  pose proof (Hwalk I HI) as HcI.
  unfold recorded_energy in He. rewrite HcI in He.
  destruct (get next_edge I) as [n |]; cbn [bind] in He;
    [| discriminate He].
  destruct (get cycle_index J) as [c |] eqn:Hc; cbn [bind] in He;
    [| discriminate He].
  destruct (Z.eqb_spec c m) as [_ | Hm].
  { injection He as <-. rewrite flt_inf_left in Hcost. discriminate. }
  destruct (Z.eqb_spec c (-1)) as [_ | Hne].
  { injection He as <-. rewrite flt_inf_left in Hcost. discriminate. }
  unfold all_chosen_pair. cbn [fst snd].
  rewrite (proj1 Hexact J) by lia.
  exists c. cbn [x2 y2]. auto.
Qed.

Lemma find_edges_joins m target pair :
  get cycles m = Some target -> y2 target <> 0 ->
  (2 <= live_count cycles)%nat ->
  find_edges_with_minimum_energy_with_neighbours points next_edge
    cycle_index cycles energies m shape = Some pair ->
  joins_two_rings cycle_index m pair.
Proof.
  intros Hm Hlive Htwo Hpair.
  apply (find_edges_choice _ _ _ _ _ _ _ target) in Hpair; [| exact Hm].
  destruct (cat_records _ _ _ _ Hcat m target Hm) as (r & Hr & Hrr).
  destruct Hrr as [[Hz _] | (Hlen & Hstart & Hring & _ & Hlab)];
    [contradiction |].
  set (n := Z.to_nat (y2 target)) in *.
  unfold search_choice in Hpair. cbv zeta in Hpair. fold n in Hpair.
  assert (Hnear : forall e, In e (ring_walk next_edge n (x2 target)) ->
                            get cycle_index e = Some m).
  { intros e He. apply Hlab.
    now apply (ring_walk_in next_edge r n (x2 target)). }
  assert (Hend : In (ring_end next_edge n (x2 target)) r)
    by now apply ring_end_in.
  assert (Hfar : forall e,
            In e (ring_walk next_edge n
                    (ring_end next_edge n (x2 target))) ->
            get cycle_index e = Some m).
  { intros e He. apply Hlab.
    now apply (ring_walk_in next_edge r n
                 (ring_end next_edge n (x2 target))). }
  destruct Hpair as [(p & Hp & ->) | [Hnone [(q & Hq & ->) | [Hnone' _]]]].
  - apply near_pair_joins with (ring_walk next_edge n (x2 target)); auto.
    now apply first_minimum_in in Hp.
  - apply far_pair_joins
      with (ring_walk next_edge n (ring_end next_edge n (x2 target)));
      auto.
    + now apply first_minimum_in in Hq.
    + now destruct Hq as (_ & _ & _ & Hv & _).
  - (* some edge of another ring is a candidate of the scan of all edges *)
    exfalso.
    destruct (other_live_record cycles m Htwo) as (k & record & Hkm & Hk & Hrec).
    destruct (cat_records _ _ _ _ Hcat k record Hk) as (rk & Hrk & Hrrk).
    destruct Hrrk as [[Hz _] | (Hlenk & Hstartk & _ & _ & Hlabk)];
      [contradiction |].
    set (I0 := ring_end next_edge n (x2 target)) in *.
    set (J := x2 record) in *.
    assert (HI0 : labelled cycle_index I0).
    { exists m. split; [now apply Hlab |].
      apply get_Some_range in Hm. lia. }
    assert (HJ : labelled cycle_index J).
    { exists k. split; [now apply Hlabk |].
      apply get_Some_range in Hk. lia. }
    destruct (labelled_next _ _ _ _ Hcat I0 HI0) as (n0 & Hn0 & _).
    destruct (edge_pair_energy_total points _ _ _ _ Hcat Hpoints I0 n0 J
                HI0 Hn0 HJ) as (e & He & Hfin).
    specialize (Hfin Hfinite).
    assert (Hn : (0 < n)%nat).
    { unfold n. cbn [length] in Hlen.
      destruct r; [destruct Hstart |]. cbn [length] in Hlen. lia. }
    destruct (ring_walk_head next_edge n I0 Hn) as (t & Ht).
    assert (Hin : In (I0, (J, e))
                    (all_pairs points next_edge cycle_index (size energies)
                       (ring_walk next_edge n I0))).
    { apply in_all_pairs. cbn [fst snd]. split; [rewrite Ht; now left |].
      split.
      - rewrite Henergies. apply (get_Some_range cycle_index J k).
        now apply Hlabk.
      - unfold recorded_energy. rewrite Hn0. cbn [bind].
        rewrite (Hlab I0 Hend). cbn [bind].
        rewrite (Hlabk J Hstartk). cbn [bind].
        destruct (Z.eqb_spec k m); [contradiction |].
        destruct (Z.eqb_spec k (-1)); [| exact He].
        apply get_Some_range in Hk. lia. }
    specialize (Hnone' _ Hin). unfold all_pair_cost in Hnone'.
    cbn [snd] in Hnone'. congruence.
Qed.

End Valid.

(** * The stitching loop *)

Lemma in_field_get {A} (f : field A) a :
  In a f -> exists k, get f k = Some a.
Proof.
  intros Ha. apply In_nth_error in Ha as (n & Hn).
  exists (Z.of_nat n). unfold get, size.
  assert (Hlt : (n < length f)%nat) by (apply nth_error_Some; congruence).
  rewrite (proj2 (in_range_iff _ _)) by lia.
  now rewrite Nat2Z.id.
Qed.

(** The length of a record of a catalogue is at most the size of the
    fields. *)
Lemma catalogue_length next_edge cycle_index cycles rings k record :
  catalogue next_edge cycle_index cycles rings ->
  get cycles k = Some record ->
  0 <= y2 record <= size cycle_index.
Proof.
  intros Hcat Hk.
  destruct (cat_records _ _ _ _ Hcat k record Hk) as (r & _ & Hrr).
  destruct Hrr as [[-> _] | (Hlen & _ & _ & Hnd & Hlab)].
  - pose proof (size_nonneg cycle_index). lia.
  - assert (Hr : forall e, In e r -> 0 <= e < size cycle_index).
    { intros e He. now apply Hlab, get_Some_range in He. }
    pose proof (NoDup_in_range_length r _ Hnd Hr).
    pose proof (size_nonneg cycle_index). lia.
Qed.

Lemma catalogue_exact_lengths next_edge cycle_index cycles rings N :
  catalogue next_edge cycle_index cycles rings ->
  exact_floats N -> size cycle_index <= N ->
  exact_lengths cycles.
Proof.
  intros Hcat [_ Horder] HN c c' Hc Hc'.
  apply in_field_get in Hc as (k & Hk).
  apply in_field_get in Hc' as (k' & Hk').
  pose proof (catalogue_length _ _ _ _ _ _ Hcat Hk).
  pose proof (catalogue_length _ _ _ _ _ _ Hcat Hk').
  apply Horder; lia.
Qed.

Section Stitching.

Variables (points0 : field vec2) (cycle_index0 : field Z) (nb_cycles : Z).
Variables (shape : ivec2) (energies : field float) (N : Z) (fuel : nat).

Hypothesis Hpoints : size points0 = size cycle_index0.
Hypothesis Henergies : size energies = size cycle_index0.
Hypothesis Hbounds : neighbourhoods_in_bounds shape cycle_index0.
Hypothesis Hfinite : finite_energies points0 cycle_index0.
Hypothesis Hexact : exact_floats N.
Hypothesis HN : size cycle_index0 + 2 <= N.
Hypothesis Hshape : 0 <= x2 shape /\ 0 < y2 shape.
Hypothesis Hfuel : size cycle_index0 <= Z.of_nat fuel.

Lemma stitching_step_invariant g i :
  stitching_invariant points0 cycle_index0 nb_cycles g ->
  (2 <= live_count (cycles g))%nat ->
  exists g',
    stitching_step fuel energies shape g i = Some g' /\
    stitching_invariant points0 cycle_index0 nb_cycles g' /\
    S (live_count (cycles g')) = live_count (cycles g).
Proof.
  intros ((rings & Hcat) & Hprev & Hp & Hsize & Hnb & Hlab) Htwo.
  pose proof (cat_size _ _ _ _ Hcat) as Hcsize.
  unfold stitching_step. cbv zeta.
  (* the target *)
  destruct (find_minimal_cycle_spec (cycles g)) as (m & -> & Hsmall).
  cbn [bind].
  destruct Hsmall as (target & Htarget & Hlive & _).
  { apply (catalogue_exact_lengths _ _ _ _ N Hcat Hexact). lia. }
  { destruct (live_exists (cycles g)) as (k & record & Hk & Hr);
      [unfold live_count in Htwo; lia |].
    destruct (in_field_get (cycles g) record) as (k' & Hk');
      [now apply nth_error_In in Hk |].
    now exists k', record. }
  (* the pair *)
  assert (Hbounds' : neighbourhoods_in_bounds shape (cycle_index g)).
  { intros I o HI Ho. rewrite Hsize. apply Hbounds; [now apply Hlab | exact Ho]. }
  assert (Hfinite' : finite_energies (points g) (cycle_index g)).
  { rewrite Hp. intros a b c d pa pb pc pd Ha Hb Hc Hd.
    apply Hfinite; now apply Hlab. }
  destruct (find_edges_total (points g) (next_edge g) (cycle_index g)
              (cycles g) rings Hcat) with (shape := shape)
              (energies := energies) (m := m) (target := target)
    as (pair & Hpair); try assumption; try congruence.
  rewrite Hpair. cbn [bind].
  destruct (find_edges_joins (points g) (next_edge g) (cycle_index g)
              (cycles g) rings shape energies N Hcat)
    with (m := m) (target := target) (pair := pair)
    as (c & HI & HJ & Hcm & Hc); try assumption; try congruence; try lia.
  (* the splice *)
  destruct pair as [I J]. cbn [x2 y2] in HI, HJ.
  destruct (stitch_two_cycles_catalogue fuel g rings I J m c Hcat Hprev HI HJ)
    as (g' & rings' & Hg' & Hcat' & Hprev' & Hp' & Hn' & Hcy' & Hlive' & Hlab');
    auto; try lia.
  { apply get_Some_range in Htarget. lia. }
  exists g'. split; [exact Hg' |]. split; [| exact Hlive'].
  split; [now exists rings' |].
  split; [exact Hprev' |].
  split; [congruence |].
  split.
  { rewrite (cat_size _ _ _ _ Hcat'). congruence. }
  split; [congruence |].
  intros e. rewrite Hlab'. apply Hlab.
Qed.

Lemma stitching_loop l : forall g,
  stitching_invariant points0 cycle_index0 nb_cycles g ->
  live_count (cycles g) = S (length l) ->
  exists g',
    for_each l (stitching_step fuel energies shape) g = Some g' /\
    stitching_invariant points0 cycle_index0 nb_cycles g' /\
    live_count (cycles g') = 1%nat.
Proof.
  induction l as [| i l IH]; intros g Hinv Hlive; cbn [for_each length] in *.
  - exists g. auto.
  - destruct (stitching_step_invariant g i Hinv) as (g1 & -> & Hinv1 & Hlive1);
      [lia |].
    cbn [bind]. apply IH; [exact Hinv1 | lia].
Qed.

End Stitching.

(** ** The record that remains *)

Lemma has_label_spec cycle_index e :
  has_label cycle_index e = true <-> labelled cycle_index e.
Proof.
  unfold has_label, labelled. destruct (get cycle_index e) as [c |].
  - destruct (Z.eqb_spec c (-1)) as [-> | Hne]; cbn.
    + split; [discriminate | intros (c & [= <-] & Hc); contradiction].
    + split; [intros _; now exists c | reflexivity].
  - split; [discriminate | intros (c & Hc & _); discriminate].
Qed.

Lemma map_get_range_aux {A} (l : list A) : forall pre,
  map (get (pre ++ l)) (map Z.of_nat (seq (length pre) (length l)))
  = map Some l.
Proof.
  induction l as [| a l IH]; intros pre; cbn [length seq map];
    [reflexivity |].
  rewrite get_app_length. f_equal.
  specialize (IH (pre ++ [a])).
  rewrite <- app_assoc, length_app in IH. cbn [app length] in IH.
  replace (length pre + 1)%nat with (S (length pre)) in IH by lia.
  exact IH.
Qed.

Lemma map_get_range {A} (f : field A) :
  map (get f) (range (size f)) = map Some f.
Proof.
  unfold range, size. rewrite Nat2Z.id. exact (map_get_range_aux f []).
Qed.

Lemma length_filter_map {A B} (g : A -> B) (Q : B -> bool) l :
  length (filter Q (map g l)) = length (filter (fun a => Q (g a)) l).
Proof.
  induction l as [| a l IH]; cbn; [reflexivity |].
  destruct (Q (g a)); cbn; now rewrite IH.
Qed.

(** The number of labels of a field is the number of its indices with a
    label. *)
Lemma count_set_indices (f : field Z) :
  count_set f = Z.of_nat (length (filter (has_label f) (range (size f)))).
Proof.
  unfold count_set. f_equal.
  transitivity
    (length (filter (fun o : option Z =>
                       match o with
                       | Some c => negb (c =? -1)
                       | None => false
                       end) (map Some f))).
  - now rewrite length_filter_map.
  - rewrite <- map_get_range. now rewrite length_filter_map.
Qed.

Lemma NoDup_range n : NoDup (range n).
Proof.
  unfold range. apply Finite.Injective_map_NoDup; [| apply seq_NoDup].
  intros a b. apply Nat2Z.inj.
Qed.

Lemma two_live (l : list ivec2) : forall a b ra rb,
  nth_error l a = Some ra -> y2 ra <> 0 ->
  nth_error l b = Some rb -> y2 rb <> 0 -> a <> b ->
  (2 <= length (live_cycles l))%nat.
Proof.
  unfold live_cycles.
  induction l as [| c l IH]; intros [| a] [| b] ra rb; cbn;
    try discriminate; try (intros; lia).
  - intros [= ->] Ha Hb Hrb _.
    destruct (Z.eqb_spec (y2 ra) 0); [contradiction |]. cbn.
    assert (1 <= length (filter (fun c => negb (y2 c =? 0)%Z) l))%nat; [| lia].
    apply nth_error_In in Hb.
    assert (Hin : In rb (filter (fun c => negb (y2 c =? 0)) l)).
    { apply filter_In. split; [exact Hb |].
      now destruct (Z.eqb_spec (y2 rb) 0). }
    destruct (filter _ l); [destruct Hin | cbn; lia].
  - intros Ha Hra [= ->] Hb _.
    destruct (Z.eqb_spec (y2 rb) 0); [contradiction |]. cbn.
    assert (1 <= length (filter (fun c => negb (y2 c =? 0)%Z) l))%nat; [| lia].
    apply nth_error_In in Ha.
    assert (Hin : In ra (filter (fun c => negb (y2 c =? 0)) l)).
    { apply filter_In. split; [exact Ha |].
      now destruct (Z.eqb_spec (y2 ra) 0). }
    destruct (filter _ l); [destruct Hin | cbn; lia].
  - intros Ha Hra Hb Hrb Hab.
    assert (H : (2 <= length (filter (fun c => negb (y2 c =? 0)%Z) l))%nat)
      by (apply (IH a b ra rb); auto).
    destruct (negb (y2 c =? 0)); cbn; lia.
Qed.

Lemma get_nth_error {A} (f : field A) k a :
  get f k = Some a -> nth_error f (Z.to_nat k) = Some a.
Proof.
  unfold get. now destruct (in_range k (size f)).
Qed.

(** With one live record left, its length is the number of edges with a
    label. *)
Lemma single_record_length next_edge cycle_index cycles rings :
  catalogue next_edge cycle_index cycles rings ->
  live_count cycles = 1%nat ->
  exists record,
    live_cycles cycles = [record] /\ y2 record = count_set cycle_index.
Proof.
  intros Hcat Hone. unfold live_count in Hone.
  destruct (live_cycles cycles) as [| record [| ? ?]] eqn:Elive;
    try discriminate Hone.
  exists record. split; [reflexivity |].
  assert (Hin : In record (live_cycles cycles)) by (rewrite Elive; now left).
  apply filter_In in Hin as [Hin Hlive].
  apply in_field_get in Hin as (m & Hm).
  assert (Hy : y2 record <> 0) by now destruct (Z.eqb_spec (y2 record) 0).
  destruct (cat_records _ _ _ _ Hcat m record Hm) as (r & Hr & Hrr).
  destruct Hrr as [[Hz _] | (Hlen & _ & _ & Hnd & Hlab)]; [contradiction |].
  rewrite Hlen, count_set_indices. f_equal.
  apply Permutation_length, NoDup_Permutation;
    [exact Hnd | apply NoDup_filter, NoDup_range |].
  intros e. rewrite filter_In, in_range_list, has_label_spec. split.
  - intros He. pose proof (Hlab e He) as Hc. split.
    + now apply get_Some_range in Hc.
    + exists m. split; [exact Hc |]. apply get_Some_range in Hm. lia.
  - intros [_ (c & Hc & Hne)].
    destruct (cat_labels _ _ _ _ Hcat e c Hc Hne) as (rc & Hrc & Hec).
    destruct (Z.eq_dec c m) as [-> | Hcm]; [congruence |].
    exfalso.
    destruct (get_in_range cycles c) as (recc & Hrecc).
    { rewrite <- (cat_rings _ _ _ _ Hcat). now apply get_Some_range in Hrc. }
    destruct (cat_records _ _ _ _ Hcat c recc Hrecc) as (rc' & Hrc' & Hrrc).
    assert (rc' = rc) by congruence. subst rc'.
    destruct Hrrc as [[_ ->] | (Hlenc & _)]; [destruct Hec |].
    assert (Hyc : y2 recc <> 0).
    { destruct rc; [destruct Hec |]. cbn [length] in Hlenc. lia. }
    pose proof (two_live cycles (Z.to_nat c) (Z.to_nat m) recc record
                  (get_nth_error _ _ _ Hrecc) Hyc
                  (get_nth_error _ _ _ Hm) Hy) as Htwo.
    apply get_Some_range in Hrecc. apply get_Some_range in Hm.
    rewrite Elive in Htwo. cbn in Htwo. lia.
Qed.

Lemma count_set_labelled (f f' : field Z) :
  size f' = size f ->
  (forall e, labelled f' e <-> labelled f e) ->
  count_set f' = count_set f.
Proof.
  intros Hsize Hlab. rewrite !count_set_indices, Hsize. do 2 f_equal.
  apply filter_ext. intros e.
  apply eq_true_iff_eq. rewrite !has_label_spec. apply Hlab.
Qed.

(** * The tests are sound *)

Lemma labelled_in_range cycle_index e :
  labelled cycle_index e ->
  In e (filter (has_label cycle_index) (range (size cycle_index))).
Proof.
  intros He. apply filter_In. split; [| now apply has_label_spec].
  destruct He as (c & Hc & _). apply in_range_list.
  now apply get_Some_range in Hc.
Qed.

Lemma neighbourhoods_check_sound shape cycle_index :
  neighbourhoods_check shape cycle_index = true ->
  neighbourhoods_in_bounds shape cycle_index.
Proof.
  unfold neighbourhoods_check. rewrite forallb_forall.
  intros H I o HI Ho.
  pose proof (labelled_in_range _ _ HI) as [Hin Hlab]%filter_In.
  specialize (H I Hin). rewrite Hlab in H. cbn in H.
  rewrite forallb_forall in H. specialize (H o Ho).
  now apply in_range_iff in H.
Qed.

Lemma finite_energies_check_sound points cycle_index :
  finite_energies_check points cycle_index = true ->
  finite_energies points cycle_index.
Proof.
  unfold finite_energies_check. cbv zeta.
  intros H a b c d pa pb pc pd Ha Hb Hc Hd Hpa Hpb Hpc Hpd.
  apply labelled_in_range in Ha, Hb, Hc, Hd.
  rewrite forallb_forall in H. specialize (H a Ha).
  rewrite forallb_forall in H. specialize (H b Hb).
  rewrite forallb_forall in H. specialize (H c Hc).
  rewrite forallb_forall in H. specialize (H d Hd).
  now rewrite Hpa, Hpb, Hpc, Hpd in H.
Qed.

Lemma exact_floats_check_sound N :
  exact_floats_check N = true -> exact_floats N.
Proof.
  unfold exact_floats_check. intros [H1 H2]%andb_prop.
  rewrite forallb_forall in H1, H2. split.
  - intros z Hz.
    assert (Hin : In (z + 2) (range (N + 3))) by (apply in_range_list; lia).
    specialize (H1 _ Hin). apply Z.eqb_eq in H1.
    now replace (z + 2 - 2) with z in H1 by lia.
  - intros a b Ha Hb.
    assert (Hina : In a (range (N + 1))) by (apply in_range_list; lia).
    assert (Hinb : In b (range (N + 1))) by (apply in_range_list; lia).
    specialize (H2 a Hina). apply andb_prop in H2 as [Hinf H2].
    rewrite forallb_forall in H2. specialize (H2 b Hinb).
    split; [exact Hinf | now apply Bool.eqb_prop].
Qed.

(** * The discovery of a ring: [flood] *)

Lemma flood_loop_chain next_edge first k : forall fuel cycle_index current
    len cycle_index' len',
  flood_loop fuel next_edge cycle_index first k current len
    = Some (cycle_index', len') ->
  exists L,
    chain_to next_edge current L first /\
    ~ In first L /\
    len' = len + Z.of_nat (length L) /\
    size cycle_index' = size cycle_index /\
    (forall e, In e L -> get cycle_index' e = Some k) /\
    (forall e, ~ In e L -> get cycle_index' e = get cycle_index e).
Proof.
  induction fuel as [| fuel IH]; intros cycle_index current len cycle_index'
    len'; cbn [flood_loop];
    (destruct (Z.eqb_spec current first) as [-> | Hne];
       [intros [= <- <-]; exists []; cbn; repeat split; auto; lia |]);
    [discriminate |].
  destruct (set cycle_index current k) as [f1 |] eqn:Hset; cbn [bind];
    [| discriminate].
  destruct (get next_edge current) as [key |] eqn:Hkey; cbn [bind];
    [| discriminate].
  intros Hloop.
  destruct (IH _ _ _ _ _ Hloop) as (L & Hchain & Hfirst & Hlen & Hsize & Hin
                                     & Hout).
  exists (current :: L). split.
  { cbn [chain_to]. split; [reflexivity |].
    destruct L as [| a T]; cbn [chain_to app chained] in *.
    - subst key. auto.
    - destruct Hchain as [-> Hchain]. auto. }
  split.
  { intros [E | E]; [now apply Hne | now apply Hfirst]. }
  split; [cbn [length]; lia |].
  split; [rewrite Hsize; now apply size_set in Hset |].
  split.
  - intros e [<- | He]; [| now apply Hin].
    destruct (in_dec Z.eq_dec current L) as [Hc | Hc]; [now apply Hin |].
    rewrite (Hout current Hc). now apply get_set_same in Hset.
  - intros e He. rewrite Hout by (intros H; apply He; now right).
    apply (get_set_other _ _ _ _ _ Hset). intros ->. apply He. now left.
Qed.

(** ** A chain does not pass twice through an edge before its end *)

Lemma chained_prefix next_edge l1 : forall a l2,
  chained next_edge a (l1 ++ l2) -> chained next_edge a l1.
Proof.
  induction l1 as [| x l1 IH]; intros a l2; cbn; [easy |].
  intros [Ha H]. split; [exact Ha | now apply IH with l2].
Qed.

Lemma chained_suffix next_edge l1 : forall a b l2,
  chained next_edge a (l1 ++ b :: l2) -> chained next_edge b l2.
Proof.
  intros a b l2 H. now apply chained_app in H.
Qed.

Lemma chained_functional next_edge l1 : forall a l2,
  chained next_edge a l1 -> chained next_edge a l2 ->
  length l1 = length l2 -> l1 = l2.
Proof.
  induction l1 as [| x l1 IH]; intros a [| y l2]; cbn; try discriminate;
    [reflexivity |].
  intros [Hx H1] [Hy H2] [= Hlen].
  assert (x = y) by congruence. subst y. f_equal. now apply IH with x.
Qed.

Lemma chained_no_return next_edge T : forall a z,
  chained next_edge a (T ++ [z]) -> ~ In z (a :: T) -> ~ In a T.
Proof.
  intros a z Hch Hz Ha.
  apply in_split in Ha as (T1 & T2 & ->).
  rewrite <- app_assoc in Hch. cbn [app] in Hch.
  pose proof (chained_suffix _ _ _ _ _ Hch) as Hshort.
  (* the chain from [a] of the length of the short one *)
  assert (Hlen : (length (T2 ++ [z]) <= length (T1 ++ a :: T2 ++ [z]))%nat)
    by (rewrite !length_app; cbn [length]; rewrite length_app; lia).
  pose proof (firstn_skipn (length (T2 ++ [z])) (T1 ++ a :: T2 ++ [z]))
    as Hsplit.
  rewrite <- Hsplit in Hch. apply chained_prefix in Hch.
  assert (Heq : firstn (length (T2 ++ [z])) (T1 ++ a :: T2 ++ [z])
                = T2 ++ [z]).
  { apply chained_functional with next_edge a; auto.
    rewrite length_firstn. lia. }
  apply Hz. right.
  assert (Hin : In z (firstn (length (T2 ++ [z])) (T1 ++ a :: T2 ++ [z])))
    by (rewrite Heq; apply in_or_app; right; now left).
  (* the prefix lies before the last element *)
  assert (Hpre : firstn (length (T2 ++ [z])) (T1 ++ a :: T2 ++ [z])
                 = firstn (length (T2 ++ [z])) (T1 ++ a :: T2)).
  { replace (T1 ++ a :: T2 ++ [z]) with ((T1 ++ a :: T2) ++ [z])
      by (rewrite <- app_assoc; reflexivity).
    rewrite firstn_app.
    replace (length (T2 ++ [z]) - length (T1 ++ a :: T2))%nat with O
      by (rewrite !length_app; cbn [length]; lia).
    cbn [firstn]. apply app_nil_r. }
  rewrite Hpre in Hin.
  rewrite <- (firstn_skipn (length (T2 ++ [z])) (T1 ++ a :: T2)).
  apply in_or_app. now left.
Qed.

Lemma chained_NoDup next_edge T : forall a z,
  chained next_edge a (T ++ [z]) -> ~ In z (a :: T) -> NoDup (a :: T).
Proof.
  induction T as [| b T IH]; intros a z Hch Hz.
  - constructor; [intros [] | constructor].
  - constructor.
    + now apply (chained_no_return next_edge (b :: T) a z).
    + cbn [app chained] in Hch. apply (IH b z); [tauto |].
      intros H. apply Hz. now right.
Qed.

(** [flood] finds a ring, labels its edges and records it. *)
Lemma flood_ring fuel next_edge cycle_index cycles first k cycle_index'
    cycles' :
  flood fuel next_edge cycle_index cycles first k
    = Some (cycle_index', cycles') ->
  exists L,
    ring next_edge (first :: L) /\ NoDup (first :: L) /\
    size cycle_index' = size cycle_index /\
    (forall e, In e (first :: L) -> get cycle_index' e = Some k) /\
    (forall e, ~ In e (first :: L) ->
               get cycle_index' e = get cycle_index e) /\
    set cycles k (Ivec2 first (Z.of_nat (length (first :: L))))
      = Some cycles'.
Proof.
  unfold flood.
  destruct (get next_edge first) as [current |] eqn:Hcur; cbn [bind];
    [| discriminate].
  destruct (set cycle_index first k) as [f1 |] eqn:Hset; cbn [bind];
    [| discriminate].
  destruct (flood_loop _ _ _ _ _ _ _) as [[f2 len] |] eqn:Hloop;
    cbn [bind]; [| discriminate].
  destruct (set cycles k _) as [cy |] eqn:Hcy; cbn [bind]; [| discriminate].
  intros [= <- <-].
  destruct (flood_loop_chain _ _ _ _ _ _ _ _ _ Hloop)
    as (L & Hchain & Hfirst & Hlen & Hsize & Hin & Hout).
  exists L.
  assert (Hring : ring next_edge (first :: L)).
  { cbn [ring]. destruct L as [| a T]; cbn [chain_to app chained] in *.
    - subst current. auto.
    - destruct Hchain as [-> Hchain]. auto. }
  split; [exact Hring |].
  split.
  { constructor; [exact Hfirst |].
    destruct L as [| a T]; [constructor |].
    destruct Hchain as [-> Hchain].
    now apply chained_NoDup with next_edge first. }
  split; [rewrite Hsize; now apply size_set in Hset |].
  split.
  { intros e [<- | He]; [| now apply Hin].
    rewrite (Hout first Hfirst). now apply get_set_same in Hset. }
  split.
  { intros e He. rewrite Hout by (intros H; apply He; now right).
    apply (get_set_other _ _ _ _ _ Hset). intros ->. apply He. now left. }
  rewrite <- Hcy. do 3 f_equal. cbn [length]. lia.
Qed.

(** ** Sets closed under the next pointer *)

Lemma chained_closed next_edge (S : Z -> Prop) l : forall a,
  (forall x y, S x -> get next_edge x = Some y -> S y) ->
  chained next_edge a l -> S a -> forall y, In y l -> S y.
Proof.
  induction l as [| b l IH]; intros a Hclosed Hch Ha y; cbn; [intros [] |].
  destruct Hch as [Hab Hch].
  assert (Hb : S b) by now apply (Hclosed a).
  intros [<- | Hy]; [exact Hb |]. now apply (IH b).
Qed.

(** A closed set that meets a ring holds the ring. *)
Lemma ring_in_closed next_edge (S : Z -> Prop) r e x :
  (forall x y, S x -> get next_edge x = Some y -> S y) ->
  ring next_edge r -> In e r -> S e -> In x r -> S x.
Proof.
  intros Hclosed Hr He HS Hx.
  apply in_split in He as (A & B & ->).
  apply ring_rotate in Hr. cbn [ring] in Hr.
  assert (Hx' : In x (e :: B ++ A)).
  { apply in_app_or in Hx as [Hx | [<- | Hx]].
    - right. apply in_or_app. now right.
    - now left.
    - right. apply in_or_app. now left. }
  destruct Hx' as [<- | Hx']; [exact HS |].
  apply (chained_closed next_edge S _ e Hclosed Hr HS).
  apply in_or_app. now left.
Qed.

(** * The discovery of all rings: [browse_grid] *)

Lemma get_snoc {A} (f : field A) a k :
  get (f ++ [a]) k = if k =? size f then Some a else get f k.
Proof.
  destruct (Z.eqb_spec k (size f)) as [-> | Hk].
  - unfold size. apply get_app_length.
  - unfold get, size. rewrite length_app. cbn [length].
    destruct (in_range k (Z.of_nat (length f))) eqn:E.
    + apply in_range_iff in E.
      rewrite (proj2 (in_range_iff _ _)) by lia.
      apply nth_error_app1. lia.
    + apply in_range_false in E.
      destruct (in_range k _) eqn:E'; [| reflexivity].
      apply in_range_iff in E'. unfold size in Hk. lia.
Qed.

Lemma size_snoc {A} (f : field A) a : size (f ++ [a]) = size f + 1.
Proof. unfold size. rewrite length_app. cbn [length]. lia. Qed.

(** No cell edge has a label when [is_in_a_cycle] answers no. *)
Lemma is_in_a_cycle_false cycle_index grid_shape cell :
  is_in_a_cycle cycle_index grid_shape cell = Some false ->
  let edge_indexes := index2d_to_edge_index cell grid_shape in
  get cycle_index (c0 edge_indexes) = Some (-1) /\
  get cycle_index (c1 edge_indexes) = Some (-1) /\
  get cycle_index (c2 edge_indexes) = Some (-1) /\
  get cycle_index (c3 edge_indexes) = Some (-1).
Proof.
  unfold is_in_a_cycle. cbv zeta.
  set (ei := index2d_to_edge_index cell grid_shape).
  change (range 4) with [0; 1; 2; 3]. cbn [for_each].
  change (ivec4_get ei 0) with (c0 ei). change (ivec4_get ei 1) with (c1 ei).
  change (ivec4_get ei 2) with (c2 ei). change (ivec4_get ei 3) with (c3 ei).
  destruct (get cycle_index (c0 ei)) as [a |]; cbn [bind]; [| discriminate].
  destruct (Z.eqb_spec a (-1)) as [-> |]; cbn [negb bind];
    destruct (get cycle_index (c1 ei)) as [b |]; cbn [bind];
    try discriminate;
    destruct (Z.eqb_spec b (-1)) as [-> |]; cbn [negb bind];
    destruct (get cycle_index (c2 ei)) as [c |]; cbn [bind];
    try discriminate;
    destruct (Z.eqb_spec c (-1)) as [-> |]; cbn [negb bind];
    destruct (get cycle_index (c3 ei)) as [d |]; cbn [bind];
    try discriminate;
    destruct (Z.eqb_spec d (-1)) as [-> |]; cbn [negb bind];
    try discriminate; auto.
Qed.

(** The edges with a label are closed under the next pointer. *)
Lemma browse_labelled_closed next_edge s rings x y :
  browse_invariant next_edge s rings ->
  labelled (b_cycle_index s) x -> get next_edge x = Some y ->
  labelled (b_cycle_index s) y.
Proof.
  intros (_ & Hk & Hrecords & Hlabels & _) (c & Hc & Hne) Hy.
  destruct (Hlabels x c Hc Hne) as (r & Hr & Hx).
  destruct (Hrecords c r Hr) as (record & _ & Hlive & Hrr).
  destruct Hrr as [[Hz _] | (_ & _ & Hring & _ & Hlab)]; [contradiction |].
  destruct (ring_closed next_edge r x Hring Hx) as (y' & Hy' & Hin).
  assert (y' = y) by congruence. subst y'.
  exists c. split; [now apply Hlab | exact Hne].
Qed.

Lemma flood_invariant fuel next_edge s rings first cycle_index' cycles' :
  browse_invariant next_edge s rings ->
  get (b_cycle_index s) first = Some (-1) ->
  flood fuel next_edge (b_cycle_index s) (b_cycles s) first
        (b_cycle_number s) = Some (cycle_index', cycles') ->
  exists rings',
    browse_invariant next_edge
      (BrowseState cycle_index' cycles' (b_cycle_number s + 1)) rings'.
Proof.
  intros Hinv Hfirst Hflood.
  pose proof Hinv as (Hsize & Hk & Hrecords & Hlabels & Htomb & Hlive).
  destruct (flood_ring _ _ _ _ _ _ _ _ Hflood)
    as (L & Hring & Hnd & Hsize' & Hin & Hout & Hset).
  set (R := first :: L) in *.
  set (k := b_cycle_number s) in *.
  assert (Hk0 : 0 <= k) by (rewrite <- Hk; apply size_nonneg).
  (* the edges of the ring had no label *)
  assert (Hfresh : forall e, In e R -> ~ labelled (b_cycle_index s) e).
  { intros e He Hlab.
    assert (Hf : labelled (b_cycle_index s) first).
    { apply (ring_in_closed next_edge (labelled (b_cycle_index s)) R e first);
        auto; [| now left].
      intros x y. apply (browse_labelled_closed next_edge s rings x y Hinv). }
    destruct Hf as (c & Hc & Hne). congruence. }
  exists (rings ++ [R]).
  unfold browse_invariant.
  cbn [b_cycle_index b_cycles b_cycle_number].
  split; [congruence |].
  split; [rewrite size_snoc; lia |].
  split.
  { intros j r. rewrite get_snoc, Hk.
    destruct (Z.eqb_spec j k) as [-> | Hj].
    - intros [= <-]. eexists. split; [apply (get_set_same _ _ _ _ Hset) |].
      cbn [x2 y2]. split; [unfold R; cbn [length]; lia |].
      right. repeat split; auto. now left.
    - intros Hr. destruct (Hrecords j r Hr) as (record & Hrec & Hy & Hrr).
      exists record. split; [now rewrite (get_set_other _ _ _ _ _ Hset) |].
      split; [exact Hy |].
      destruct Hrr as [Hz | (Hlen & Hstart & Hrg & Hndr & Hlab)];
        [now left | right].
      repeat split; auto.
      intros e He. rewrite Hout; [now apply Hlab |].
      intros HeR. apply (Hfresh e HeR). exists j.
      split; [now apply Hlab |].
      apply get_Some_range in Hr. lia. }
  split.
  { intros e c Hc Hne. rewrite get_snoc, Hk.
    destruct (in_dec Z.eq_dec e R) as [HeR | HeR].
    - rewrite (Hin e HeR) in Hc. injection Hc as <-.
      rewrite Z.eqb_refl. now exists R.
    - rewrite (Hout e HeR) in Hc.
      destruct (Hlabels e c Hc Hne) as (r & Hr & Her).
      destruct (Z.eqb_spec c k) as [-> | _]; [| now exists r].
      apply get_Some_range in Hr. lia. }
  split.
  { intros j record Hj. rewrite (get_set_other _ _ _ _ _ Hset) by lia.
    apply Htomb. lia. }
  destruct (get_in_range (b_cycles s) k) as (old & Hold);
    [now apply set_Some_range in Hset |].
  pose proof (live_count_set _ _ _ _ _ Hset Hold) as Hcount.
  rewrite (Htomb k old (Z.le_refl k) Hold) in Hcount.
  cbn [y2 length] in Hcount.
  destruct (Z.eqb_spec (Z.of_nat (S (length L))) 0); [lia |].
  cbn in Hcount. lia.
Qed.

Lemma browse_grid_cell_invariant oob fuel grid binary_grid next_edge s cell
    s' rings :
  shape binary_grid = shape grid ->
  browse_invariant next_edge s rings ->
  browse_grid_cell oob fuel grid binary_grid next_edge s cell = Some s' ->
  exists rings', browse_invariant next_edge s' rings'.
Proof.
  intros Hshape Hinv. unfold browse_grid_cell. cbv zeta.
  destruct (_ && _); [| intros [= <-]; now exists rings].
  destruct (is_in_a_cycle _ _ _) as [[|] |] eqn:Hin; cbn [bind negb];
    [intros [= <-]; now exists rings | | discriminate].
  apply is_in_a_cycle_false in Hin. cbv zeta in Hin.
  rewrite <- Hshape in Hin. destruct Hin as (H0 & H1 & H2 & _).
  match goal with
  | |- context [flood fuel next_edge _ _ ?first _] =>
      set (first_edge := first);
      assert (Hfirst : get (b_cycle_index s) first_edge = Some (-1))
        by (unfold first_edge; destruct (_ || _); [exact H0 |];
            destruct (_ || _); assumption)
  end.
  destruct (flood _ _ _ _ _ _) as [[cycle_index' cycles'] |] eqn:Hflood;
    cbn [bind]; [| discriminate].
  intros [= <-]. cbn [fst snd].
  exact (flood_invariant _ _ _ _ _ _ _ Hinv Hfirst Hflood).
Qed.

Lemma live_count_fill n : live_count (fill n (Ivec2 0 0)) = 0%nat.
Proof.
  unfold live_count, live_cycles, fill.
  induction (Z.to_nat n) as [| m IH]; cbn; [reflexivity | exact IH].
Qed.

Lemma browse_grid_invariant oob fuel grid binary_grid next_edge E s :
  shape binary_grid = shape grid ->
  size next_edge = Z.max 0 E ->
  browse_grid oob fuel grid binary_grid next_edge (fill E (-1))
    (fill E (Ivec2 0 0)) = Some s ->
  exists rings, browse_invariant next_edge s rings.
Proof.
  intros Hshape Hsize. unfold browse_grid.
  apply (for_each_invariant
           (fun s => exists rings, browse_invariant next_edge s rings)).
  - intros s0 cell s1 _ (rings & Hinv).
    now apply browse_grid_cell_invariant with rings.
  - exists []. unfold browse_invariant.
    cbn [b_cycle_index b_cycles b_cycle_number].
    split.
    { unfold size at 1, fill. rewrite repeat_length. lia. }
    split; [reflexivity |].
    split; [intros k r Hr; apply get_Some_range in Hr; cbn in Hr; lia |].
    split.
    { intros e c Hc Hne. exfalso. apply Hne.
      unfold get in Hc. destruct (in_range _ _); [| discriminate].
      apply nth_error_In in Hc. unfold fill in Hc.
      now apply repeat_spec in Hc. }
    split.
    { intros k record _ Hrec.
      unfold get in Hrec. destruct (in_range _ _); [| discriminate].
      apply nth_error_In in Hrec. unfold fill in Hrec.
      apply repeat_spec in Hrec. now subst record. }
    apply live_count_fill.
Qed.

(** ** The graph of [to_graph] *)

Lemma compute_points_size grid binary_grid points points' :
  compute_points grid binary_grid points = Some points' ->
  size points' = size points.
Proof.
  unfold compute_points.
  apply (for_each_invariant (fun f => size f = size points));
    [| reflexivity].
  intros f cell f' _ Hf. unfold compute_points_cell. cbv zeta.
  destruct (not_border _ _); [| now intros [= <-]].
  destruct (get2 binary_grid _ _) as [b01 |]; cbn [bind]; [| discriminate].
  destruct (get2 binary_grid _ _) as [b11 |]; cbn [bind]; [| discriminate].
  assert (Hstep : forall (m : option (field vec2)) f1,
            m = Some f1 ->
            (m = Some f \/ exists i v, m = set f i v) ->
            size f1 = size points).
  { intros m f1 Hm [-> | (i & v & ->)].
    - now injection Hm as <-.
    - apply size_set in Hm. congruence. }
  destruct (negb (b01 =? b11)).
  - destruct (linear_interpolation _ _ _ _) as [p |]; cbn [bind];
      [| discriminate].
    destruct (set f _ p) as [f1 |] eqn:Hset; cbn [bind]; [| discriminate].
    apply size_set in Hset.
    destruct (get2 binary_grid _ _) as [b10 |]; cbn [bind]; [| discriminate].
    destruct (negb (b11 =? b10)); [| intros [= <-]; congruence].
    destruct (linear_interpolation _ _ _ _) as [q |]; cbn [bind];
      [| discriminate].
    intros Hq. apply size_set in Hq. congruence.
  - cbn [bind].
    destruct (get2 binary_grid _ _) as [b10 |]; cbn [bind]; [| discriminate].
    destruct (negb (b11 =? b10)); [| intros [= <-]; congruence].
    destruct (linear_interpolation _ _ _ _) as [q |]; cbn [bind];
      [| discriminate].
    intros Hq. apply size_set in Hq. congruence.
Qed.

Lemma fill_final_cycles_spec cycles final_cycles final_cycles' :
  fill_final_cycles cycles final_cycles = Some final_cycles' ->
  size final_cycles' = size final_cycles /\
  forall j, 0 <= j < size final_cycles ->
            get final_cycles' j = get cycles j.
Proof.
  unfold fill_final_cycles. intros H.
  assert (Hsize : size final_cycles' = size final_cycles).
  { revert H.
    apply (for_each_invariant (fun f => size f = size final_cycles));
      [| reflexivity].
    intros f i f' _ Hf.
    destruct (get cycles i) as [c |]; cbn [bind]; [| discriminate].
    intros Hset. apply size_set in Hset. congruence. }
  split; [exact Hsize |].
  intros j Hj.
  apply (for_each_fill (get cycles)) in H.
  destruct (get_in_range final_cycles' j) as (v & Hv); [lia |].
  rewrite Hv. apply indexed_get in Hv. rewrite H in Hv.
  apply in_flat_map in Hv as (k & _ & Hk).
  destruct (get cycles k) as [c |] eqn:Hc; [| destruct Hk].
  destruct Hk as [[= <- <-] | []]. now rewrite Hc.
Qed.

Lemma live_count_all (f : field ivec2) :
  (forall c, In c f -> y2 c <> 0) -> live_count f = length f.
Proof.
  unfold live_count, live_cycles.
  induction f as [| a f IH]; intros H; cbn; [reflexivity |].
  destruct (Z.eqb_spec (y2 a) 0) as [E | _].
  - exfalso. apply (H a); [now left | exact E].
  - cbn. f_equal. apply IH. intros c Hc. apply H. now right.
Qed.

(** The graph [to_graph] returns has a catalogue of live records that
    describes its labels. *)
Lemma to_graph_catalogue oob fuel grid g :
  to_graph oob fuel grid = Some g ->
  (exists rings,
     catalogue (next_edge g) (cycle_index g) (cycles g) rings) /\
  size (previous_edge g) = size (next_edge g) /\
  size (points g) = size (next_edge g) /\
  live_count (cycles g) = Z.to_nat (size (cycles g)).
Proof.
  unfold to_graph. cbv zeta.
  set (binary_grid := compute_binary_grid grid).
  set (E := edge_fields_shape (shape binary_grid)).
  destruct (compute_points _ _ _) as [pts |] eqn:Hpts; cbn [bind];
    [| discriminate].
  destruct (compute_adajcency _ _ _ _) as [adj |] eqn:Hadj; cbn [bind];
    [| discriminate].
  destruct (browse_grid _ _ _ _ _ _ _) as [s |] eqn:Hbrowse; cbn [bind];
    [| discriminate].
  destruct (fill_final_cycles _ _) as [final |] eqn:Hfinal; cbn [bind];
    [| discriminate].
  intros [= <-]. cbn [next_edge cycle_index cycles previous_edge points].
  (* sizes *)
  destruct (extract_adjacency_final grid) as (adj' & Hadj' & [Hp Hn] & _).
  unfold extract_adjacency in Hadj'. cbv zeta in Hadj'.
  fold binary_grid in Hadj'. fold E in Hadj'.
  assert (adj' = adj) by congruence. subst adj'.
  change (shape grid) with (shape binary_grid) in Hp, Hn. fold E in Hp, Hn.
  assert (HE : forall (A : Type) (v : A), size (fill E v) = Z.max 0 E).
  { intros A v. unfold size, fill. rewrite repeat_length. lia. }
  rewrite HE in Hp, Hn.
  apply compute_points_size in Hpts. rewrite HE in Hpts.
  (* the rings *)
  destruct (browse_grid_invariant oob fuel grid binary_grid (adj_next adj) E s)
    as (rings & Hsize & Hk & Hrecords & Hlabels & Htomb & Hlive);
    [reflexivity | exact Hn | exact Hbrowse |].
  apply fill_final_cycles_spec in Hfinal as [Hfsize Hfget].
  assert (Hcount : count_cycles (b_cycles s) = b_cycle_number s).
  { change (count_cycles (b_cycles s))
      with (Z.of_nat (live_count (b_cycles s))).
    rewrite Hlive, Z2Nat.id; [reflexivity |].
    rewrite <- Hk. apply size_nonneg. }
  rewrite size_fill in Hfsize, Hfget
    by (rewrite Hcount, <- Hk; apply size_nonneg).
  rewrite Hcount in Hfsize, Hfget.
  split; [| split; [congruence | split; [congruence |]]].
  - exists rings. constructor.
    + exact Hsize.
    + congruence.
    + intros j record Hj.
      assert (Hjr : 0 <= j < b_cycle_number s)
        by (rewrite <- Hfsize; now apply get_Some_range in Hj).
      rewrite (Hfget j Hjr) in Hj.
      destruct (get_in_range rings j) as (r & Hr); [lia |].
      destruct (Hrecords j r Hr) as (record' & Hrec' & _ & Hrr).
      assert (record' = record) by congruence. subst record'.
      now exists r.
    + exact Hlabels.
  - rewrite live_count_all.
    + unfold size. now rewrite Nat2Z.id.
    + intros c Hc. apply in_field_get in Hc as (j & Hj).
      assert (Hjr : 0 <= j < b_cycle_number s)
        by (rewrite <- Hfsize; now apply get_Some_range in Hj).
      rewrite (Hfget j Hjr) in Hj.
      destruct (get_in_range rings j) as (r & Hr); [lia |].
      destruct (Hrecords j r Hr) as (record' & Hrec' & Hy & _).
      congruence.
Qed.

(** * The stitching engine on a catalogue *)

(** On a graph whose catalogue of K records, all live, describes the rings
    of the edges with a label, the engine returns and leaves one live
    record, whose length is the number of edges with a label. *)
Lemma stitching_on_catalogue (g : graph) (rings : field (list Z))
    (shape : ivec2) (N : Z) (fuel : nat) :
  catalogue (next_edge g) (cycle_index g) (cycles g) rings ->
  size (previous_edge g) = size (next_edge g) ->
  size (points g) = size (next_edge g) ->
  1 <= size (cycles g) ->
  live_count (cycles g) = Z.to_nat (size (cycles g)) ->
  neighbourhoods_in_bounds shape (cycle_index g) ->
  finite_energies (points g) (cycle_index g) ->
  exact_floats N -> size (next_edge g) + 2 <= N ->
  0 <= x2 shape /\ 0 < y2 shape ->
  size (next_edge g) <= Z.of_nat fuel ->
  exists g',
    stitch_all_cycles_with_neighbourhood fuel g shape = Some g' /\
    size (cycles g') = size (cycles g) /\
    exists record,
      live_cycles (cycles g') = [record] /\
      y2 record = count_set (cycle_index g') /\
      count_set (cycle_index g') = count_set (cycle_index g).
Proof.
  intros Hcat Hprev Hpoints HK Hlive Hbounds Hfinite Hexact HN Hshape Hfuel.
  pose proof (cat_size _ _ _ _ Hcat) as Hsize.
  unfold stitch_all_cycles_with_neighbourhood,
    compiled_stitching_algorithm_with_neighbours. cbv zeta.
  destruct (stitching_loop (points g) (cycle_index g) (size (cycles g))
              shape (fill (size (points g)) zero) N fuel)
    with (l := range (size (cycles g) - 1)) (g := g)
    as (g' & Hg' & Hinv & Hone); try assumption; try lia.
  - rewrite size_fill by apply size_nonneg. lia.
  - repeat split; auto. now exists rings.
  - rewrite length_range. lia.
  - exists g'. split; [exact Hg' |].
    destruct Hinv as ((rings' & Hcat') & _ & _ & Hsize' & Hnb & Hlab).
    split; [exact Hnb |].
    destruct (single_record_length _ _ _ _ Hcat' Hone)
      as (record & Hrecord & Hlen).
    exists record. repeat split; auto.
    now apply count_set_labelled.
Qed.


(** * The result of the stitching engine *)

(** C2, amended: on the graph [to_graph] returns for a grid, with K >= 1
    records, when the neighbourhoods of the edges with a label lie in the
    fields, the patching energies are numbers below +inf and floats carry
    the indices exactly, the engine returns: it runs the K - 1 iterations of
    its loop, each of which splices two rings and turns one record into a
    tombstone, and leaves exactly one record that is not a tombstone; the
    length of that record is the number of edges with a label,
    [cycle_index[i] != NONE], which the engine does not change. *)
Theorem stitching_leaves_one_cycle (oob : Z -> Z -> Z) (fuel0 : nat)
    (grid : field2 float) (g : graph) (N : Z) (fuel : nat) :
  to_graph oob fuel0 grid = Some g ->
  1 <= size (cycles g) ->
  neighbourhoods_in_bounds (shape grid) (cycle_index g) ->
  finite_energies (points g) (cycle_index g) ->
  exact_floats N -> size (next_edge g) + 2 <= N ->
  0 <= x2 (shape grid) /\ 0 < y2 (shape grid) ->
  size (next_edge g) <= Z.of_nat fuel ->
  exists g',
    stitch_all_cycles_with_neighbourhood fuel g (shape grid) = Some g' /\
    size (cycles g') = size (cycles g) /\
    exists record,
      live_cycles (cycles g') = [record] /\
      y2 record = count_set (cycle_index g') /\
      count_set (cycle_index g') = count_set (cycle_index g).
Proof.
  intros Hg HK Hbounds Hfinite Hexact HN Hshape Hfuel.
  destruct (to_graph_catalogue oob fuel0 grid g Hg)
    as ((rings & Hcat) & Hprev & Hpoints & Hlive).
  now apply (stitching_on_catalogue g rings (shape grid) N fuel).
Qed.

Lemma stitching_leaves_one_cycle_witness :
  exists g,
    to_graph oob_zero 200 two_diamonds_grid = Some g /\
    exists g',
      stitch_all_cycles_with_neighbourhood 200 g (Ivec2 6 8) = Some g' /\
      size (cycles g') = size (cycles g) /\
      exists record,
        live_cycles (cycles g') = [record] /\
        y2 record = count_set (cycle_index g') /\
        count_set (cycle_index g') = count_set (cycle_index g).
Proof.
  eexists. split. { vm_compute. reflexivity. }
  match goal with
  | |- exists g', stitch_all_cycles_with_neighbourhood _ ?g _ = _ /\ _ =>
      apply (stitching_leaves_one_cycle oob_zero 200 two_diamonds_grid g
               111 200)
  end.
  - vm_compute. reflexivity.
  - vm_compute. discriminate.
  - apply neighbourhoods_check_sound. vm_compute. reflexivity.
  - apply finite_energies_check_sound. vm_compute. reflexivity.
  - apply exact_floats_check_sound. vm_compute. reflexivity.
  - vm_compute. discriminate.
  - cbn. lia.
  - vm_compute. discriminate.
Defined.

(** * Further properties of the flat addressing of the edges *)

(** X1: every flat index below the number of edges of the grid denotes a
    valid triple, and converting that triple back returns the index. *)
Theorem edge_1d_round_trip shape e :
  0 <= x2 shape -> 0 < y2 shape ->
  0 <= e < x2 shape * (y2 shape + 1) + y2 shape * (x2 shape + 1) ->
  valid_edge_3d shape (x3 (edge_1d_to_3d_index shape e))
                (y3 (edge_1d_to_3d_index shape e))
                (z3 (edge_1d_to_3d_index shape e)) /\
  edge_3d_to_1d_index shape (x3 (edge_1d_to_3d_index shape e))
                      (y3 (edge_1d_to_3d_index shape e))
                      (z3 (edge_1d_to_3d_index shape e)) = e.
Proof.
  intros HW HH He. unfold edge_1d_to_3d_index. cbv zeta.
  destruct (Z.ltb_spec e (y2 shape * (x2 shape + 1))) as [Hlt | Hge];
    cbn [x3 y3 z3].
  - pose proof (Z.mod_pos_bound e (y2 shape) HH) as Hm.
    pose proof (Z.div_mod e (y2 shape) ltac:(lia)) as Hdm.
    assert (Hq : 0 <= e / y2 shape <= x2 shape).
    { split; [apply Z.div_pos; lia |].
      apply Z.lt_succ_r. apply Z.div_lt_upper_bound; lia. }
    split; [left; repeat split; lia |].
    rewrite edge_3d_to_1d_horizontal by lia. lia.
  - set (k := e - y2 shape * (x2 shape + 1)) in *.
    assert (HH' : 0 < y2 shape + 1) by lia.
    pose proof (Z.mod_pos_bound k (y2 shape + 1) HH') as Hm.
    pose proof (Z.div_mod k (y2 shape + 1) ltac:(lia)) as Hdm.
    assert (Hk : 0 <= k < x2 shape * (y2 shape + 1)) by (unfold k; lia).
    assert (Hq : 0 <= k / (y2 shape + 1) < x2 shape).
    { split; [apply Z.div_pos; lia |].
      apply Z.div_lt_upper_bound; lia. }
    split; [right; repeat split; lia |].
    rewrite edge_3d_to_1d_vertical by lia. unfold k in *. lia.
Qed.

Lemma edge_1d_round_trip_witness :
  valid_edge_3d (Ivec2 6 8)
    (x3 (edge_1d_to_3d_index (Ivec2 6 8) 77))
    (y3 (edge_1d_to_3d_index (Ivec2 6 8) 77))
    (z3 (edge_1d_to_3d_index (Ivec2 6 8) 77)) /\
  edge_3d_to_1d_index (Ivec2 6 8)
    (x3 (edge_1d_to_3d_index (Ivec2 6 8) 77))
    (y3 (edge_1d_to_3d_index (Ivec2 6 8) 77))
    (z3 (edge_1d_to_3d_index (Ivec2 6 8) 77)) = 77.
Proof.
  apply (edge_1d_round_trip (Ivec2 6 8) 77); cbn; lia.
Defined.

(** X2: the two addressing schemes agree: the four edges
    [index2d_to_edge_index] gives a cell are the flat indices of the triples
    (x, y, 0), (x, y + 1, 1), (x + 1, y, 0) and (x, y, 1): the horizontal
    edges above and below the cell and the vertical ones on both sides. *)
Theorem cell_edges_are_triples shape x y :
  0 <= x < x2 shape -> 0 <= y < y2 shape ->
  index2d_to_edge_index (Ivec2 x y) shape =
  Ivec4 (edge_3d_to_1d_index shape x y 0)
        (edge_3d_to_1d_index shape x (y + 1) 1)
        (edge_3d_to_1d_index shape (x + 1) y 0)
        (edge_3d_to_1d_index shape x y 1).
Proof.
  intros Hx Hy.
  rewrite !edge_3d_to_1d_horizontal, !edge_3d_to_1d_vertical by lia.
  unfold index2d_to_edge_index. cbn [x2 y2]. f_equal; lia.
Qed.

Lemma cell_edges_are_triples_witness :
  index2d_to_edge_index (Ivec2 3 2) (Ivec2 6 8) =
  Ivec4 (edge_3d_to_1d_index (Ivec2 6 8) 3 2 0)
        (edge_3d_to_1d_index (Ivec2 6 8) 3 (2 + 1) 1)
        (edge_3d_to_1d_index (Ivec2 6 8) (3 + 1) 2 0)
        (edge_3d_to_1d_index (Ivec2 6 8) 3 2 1).
Proof.
  apply (cell_edges_are_triples (Ivec2 6 8) 3 2); cbn; lia.
Defined.

(** X3: the fields [to_graph] allocates have [edge_fields_shape] slots, one
    fewer than the grid has edges: the flat index of a valid triple is a
    slot of the fields, except that of the last vertical edge
    (W - 1, H, 1), which is [edge_fields_shape] itself. *)
Theorem last_edge_has_no_slot shape x y z :
  0 < x2 shape -> 0 < y2 shape ->
  valid_edge_3d shape x y z ->
  0 <= edge_3d_to_1d_index shape x y z <= edge_fields_shape shape /\
  (edge_3d_to_1d_index shape x y z = edge_fields_shape shape <->
   (x = x2 shape - 1 /\ y = y2 shape /\ z = 1)).
Proof.
  intros HW HH [(-> & Hx & Hy) | (-> & Hx & Hy)]; unfold edge_fields_shape.
  - rewrite edge_3d_to_1d_horizontal by assumption.
    split; [nia |]. split; [nia | lia].
  - rewrite edge_3d_to_1d_vertical by assumption.
    split; [nia |]. split; [| intros (-> & -> & _); lia].
    intros E. assert (x = x2 shape - 1) by nia. subst x.
    repeat split; lia.
Qed.

Lemma last_edge_has_no_slot_witness :
  0 <= edge_3d_to_1d_index (Ivec2 6 8) 5 8 1 <= edge_fields_shape (Ivec2 6 8) /\
  (edge_3d_to_1d_index (Ivec2 6 8) 5 8 1 = edge_fields_shape (Ivec2 6 8) <->
   (5 = x2 (Ivec2 6 8) - 1 /\ 8 = y2 (Ivec2 6 8) /\ 1 = 1)).
Proof.
  apply (last_edge_has_no_slot (Ivec2 6 8) 5 8 1); cbn; try lia.
  right. cbn. lia.
Defined.

(** X4: the flat index names the edges of the grid: two sides of two cells
    have the same index exactly when they join the same two samples. *)
Theorem edge_of_same_ends sh A B s t :
  interior_cell sh A -> interior_cell sh B ->
  (edge_of sh A s = edge_of sh B t <-> edge_ends A s = edge_ends B t).
Proof.
  intros HA HB. split.
  - intros E. now apply (edge_of_collision sh A B s t HA HB E).
  - destruct A as [x y], B as [x' y'].
    unfold edge_ends, edge_of, index2d_to_edge_index.
    destruct s, t; cbn; intros [= ]; subst; try lia;
      f_equal; lia.
Qed.

Lemma edge_of_same_ends_witness :
  edge_of (Ivec2 6 8) (Ivec2 2 3) Right = edge_of (Ivec2 6 8) (Ivec2 2 4) Left
  <-> edge_ends (Ivec2 2 3) Right = edge_ends (Ivec2 2 4) Left.
Proof.
  apply (edge_of_same_ends (Ivec2 6 8) (Ivec2 2 3) (Ivec2 2 4) Right Left);
    unfold interior_cell; cbn; lia.
Defined.

(** * Further properties of the scans over fields *)

(** X5: [find_minimum_in_field] returns the lowest value of the field that
    is a number below +inf, with the first index that holds it (as a float);
    on a field without such a value, the empty field among them, it returns
    +inf and the index 0. *)
Theorem find_minimum_in_field_first (f : field float) :
  (no_candidate snd (indexed_from 0 f) /\
   find_minimum_in_field f = Vec2 inf (itof 0)) \/
  (exists k v,
     first_minimum snd (indexed_from 0 f) (k, v) /\
     get f k = Some v /\
     find_minimum_in_field f = Vec2 v (itof k)).
Proof.
  pose proof (scan_first_minimum snd (0, inf) (indexed_from 0 f)) as Hscan.
  unfold find_minimum_in_field.
  change (find_minimum_from f 0 inf 0)
    with (find_minimum_from f 0 (fst (inf, (0, inf)))
            (fst (snd (inf, (0, inf))))).
  rewrite (find_minimum_from_fold f 0 (inf, (0, inf))).
  destruct Hscan as [[-> Hnone] | [Hmin Hcost]].
  - left. split; [exact Hnone | reflexivity].
  - right.
    destruct (fold_left _ _ _) as [e [k v]]. cbn [fst snd] in *. subst e.
    exists k, v. split; [exact Hmin |]. split; [| reflexivity].
    apply indexed_get. now apply first_minimum_in in Hmin.
Qed.

(** X6: [find_minimal_cycle] does not fail on a catalogue; when every record
    is a tombstone, the empty catalogue among them, it returns the id 0. *)
Theorem find_minimal_cycle_no_live_record (cycles : field ivec2) :
  (forall c, In c cycles -> y2 c = 0) ->
  find_minimal_cycle cycles (size cycles) = Some 0.
Proof.
  intros Hdead. rewrite find_minimal_cycle_scan. f_equal.
  destruct (scan_first_minimum record_cost (0, Ivec2 0 0)
              (indexed_from 0 cycles)) as [[-> _] | [Hmin _]];
    [reflexivity | exfalso].
  pose proof (first_minimum_in _ _ _ Hmin) as Hin.
  destruct Hmin as (_ & _ & _ & Hv & _).
  destruct (snd (fold_left _ _ _)) as [k c].
  apply indexed_get in Hin.
  assert (Hc : In c cycles).
  { unfold get in Hin. destruct (in_range k (size cycles)); [| discriminate].
    now apply nth_error_In in Hin. }
  unfold record_cost in Hv. cbn [snd] in Hv.
  rewrite (Hdead c Hc) in Hv. cbn in Hv. discriminate.
Qed.

Lemma find_minimal_cycle_no_live_record_witness :
  find_minimal_cycle [Ivec2 0 0; Ivec2 0 0] (size [Ivec2 0 0; Ivec2 0 0])
  = Some 0.
Proof.
  apply (find_minimal_cycle_no_live_record [Ivec2 0 0; Ivec2 0 0]).
  intros c [<- | [<- | []]]; reflexivity.
Defined.

(** * Further properties of the extraction *)

Lemma flood_loop_stop fuel next_edge cycle_index first k len :
  flood_loop fuel next_edge cycle_index first k first len
  = Some (cycle_index, len).
Proof. destruct fuel; cbn; now rewrite Z.eqb_refl. Qed.

Lemma flood_loop_total next_edge first k L :
  forall point cycle_index fuel len,
    chained next_edge point (L ++ [first]) ->
    ~ In first (point :: L) ->
    (forall e, In e (point :: L) -> 0 <= e < size cycle_index) ->
    (length L < fuel)%nat ->
    exists cycle_index',
      flood_loop fuel next_edge cycle_index first k point len
        = Some (cycle_index', len + 1 + Z.of_nat (length L)).
Proof.
  induction L as [| x L IH]; intros point cycle_index fuel len Hch Hfirst
    Hrange Hfuel; (destruct fuel as [| fuel]; [cbn in Hfuel; lia |]);
    cbn [flood_loop];
    (destruct (Z.eqb_spec point first) as [-> | _];
       [exfalso; apply Hfirst; now left |]);
    (destruct (set_in_range cycle_index point k
                 (Hrange point (or_introl eq_refl))) as (f1 & Hset));
    rewrite Hset; cbn [bind]; cbn [app chained] in Hch.
  - destruct Hch as [-> _]. cbn [bind]. rewrite flood_loop_stop.
    exists f1. cbn [length]. do 2 f_equal. lia.
  - destruct Hch as [-> Hch]. cbn [bind].
    destruct (IH x f1 fuel (len + 1) Hch) as (f2 & ->).
    + intros H. apply Hfirst. now right.
    + intros e He. rewrite (size_set _ _ _ _ Hset). apply Hrange. now right.
    + cbn in Hfuel. lia.
    + exists f2. do 2 f_equal. cbn [length]. lia.
Qed.

(** X7: on a ring of distinct edges of the fields, with fuel for its
    length, [flood] returns: it gives the label [cycle_number] to the edges
    of the ring and to no other edge, and records the start edge and the
    length of the ring. *)
Theorem flood_labels_ring fuel next_edge cycle_index cycles first k L :
  ring next_edge (first :: L) -> NoDup (first :: L) ->
  (forall e, In e (first :: L) -> 0 <= e < size cycle_index) ->
  0 <= k < size cycles ->
  (length L < fuel)%nat ->
  exists cycle_index' cycles',
    flood fuel next_edge cycle_index cycles first k
      = Some (cycle_index', cycles') /\
    (forall e, In e (first :: L) -> get cycle_index' e = Some k) /\
    (forall e, ~ In e (first :: L) ->
               get cycle_index' e = get cycle_index e) /\
    get cycles' k = Some (Ivec2 first (Z.of_nat (length (first :: L)))) /\
    (forall j, j <> k -> get cycles' j = get cycles j).
Proof.
  intros Hring Hnd Hrange Hk Hfuel.
  destruct (ring_closed _ _ first Hring (or_introl eq_refl))
    as (current & Hcur & _).
  destruct (set_in_range cycle_index first k) as (f1 & Hset);
    [apply Hrange; now left |].
  assert (Hloop : exists f2,
            flood_loop fuel next_edge f1 first k current 1
            = Some (f2, Z.of_nat (length (first :: L)))).
  { cbn [ring] in Hring. destruct L as [| p P]; cbn [app chained] in Hring.
    - destruct Hring as [Hring _].
      assert (current = first) by congruence. subst current.
      rewrite flood_loop_stop. now exists f1.
    - destruct Hring as [Hp Hring].
      assert (current = p) by congruence. subst current.
      destruct (flood_loop_total next_edge first k P p f1 fuel 1 Hring)
        as (f2 & Hf2).
      + apply NoDup_cons_iff in Hnd. tauto.
      + intros e He. rewrite (size_set _ _ _ _ Hset). apply Hrange.
        now right.
      + cbn [length] in Hfuel. lia.
      + exists f2. rewrite Hf2. do 2 f_equal. cbn [length]. lia. }
  destruct Hloop as (f2 & Hloop).
  destruct (set_in_range cycles k
              (Ivec2 first (Z.of_nat (length (first :: L)))) Hk)
    as (cy & Hcy).
  assert (Hflood : flood fuel next_edge cycle_index cycles first k
                   = Some (f2, cy)).
  { unfold flood. rewrite Hcur. cbn [bind]. rewrite Hset. cbn [bind].
    rewrite Hloop. cbn [bind]. rewrite Hcy. reflexivity. }
  exists f2, cy. split; [exact Hflood |].
  destruct (flood_ring _ _ _ _ _ _ _ _ Hflood)
    as (L' & Hring' & Hnd' & _ & Hin & Hout & Hset').
  assert (HL : L' = L).
  { assert (Hlen : length L' = length L).
    { pose proof (get_set_same _ _ _ _ Hset') as H1.
      rewrite (get_set_same _ _ _ _ Hcy) in H1.
      injection H1 as H1. cbn [length] in H1. lia. }
    cbn [ring] in Hring, Hring'.
    assert (E : L' ++ [first] = L ++ [first]).
    { apply chained_functional with next_edge first; auto.
      rewrite !length_app. cbn [length]. lia. }
    now apply app_inv_tail in E. }
  subst L'.
  split; [exact Hin |]. split; [exact Hout |].
  split; [apply (get_set_same _ _ _ _ Hcy) |].
  intros j Hj. now apply (get_set_other _ _ _ _ _ Hcy).
Qed.

Lemma flood_labels_ring_witness :
  exists cycle_index' cycles',
    flood 5 [1; 2; 0; -1] [-1; -1; -1; -1] [Ivec2 0 0] 0 0
      = Some (cycle_index', cycles') /\
    (forall e, In e [0; 1; 2] -> get cycle_index' e = Some 0) /\
    (forall e, ~ In e [0; 1; 2] ->
               get cycle_index' e = get [-1; -1; -1; -1] e) /\
    get cycles' 0 = Some (Ivec2 0 (Z.of_nat (length [0; 1; 2]))) /\
    (forall j, j <> 0 -> get cycles' j = get [Ivec2 0 0] j).
Proof.
  apply (flood_labels_ring 5 [1; 2; 0; -1] [-1; -1; -1; -1] [Ivec2 0 0]
           0 0 [1; 2]).
  - cbn. repeat split; reflexivity.
  - repeat constructor; cbn; lia.
  - cbn. intros e He. lia.
  - cbn. lia.
  - cbn. lia.
Defined.

(** X8: whenever [flood] returns, the edges it gave the label to are a ring
    through [first_edge]: distinct edges, each the next pointer of the one
    before and the first the next pointer of the last; no other label
    changes, and the record written holds [first_edge] and their number. *)
Theorem flood_returns_ring fuel next_edge cycle_index cycles first k
    cycle_index' cycles' :
  flood fuel next_edge cycle_index cycles first k
    = Some (cycle_index', cycles') ->
  exists L,
    ring next_edge (first :: L) /\ NoDup (first :: L) /\
    (forall e, In e (first :: L) -> get cycle_index' e = Some k) /\
    (forall e, ~ In e (first :: L) ->
               get cycle_index' e = get cycle_index e) /\
    get cycles' k = Some (Ivec2 first (Z.of_nat (length (first :: L)))) /\
    (forall j, j <> k -> get cycles' j = get cycles j).
Proof.
  intros Hflood.
  destruct (flood_ring _ _ _ _ _ _ _ _ Hflood)
    as (L & Hring & Hnd & _ & Hin & Hout & Hset).
  exists L. repeat split; auto.
  - apply (get_set_same _ _ _ _ Hset).
  - intros j Hj. now apply (get_set_other _ _ _ _ _ Hset).
Qed.

Lemma flood_returns_ring_witness :
  exists L,
    ring [1; 2; 0; -1] (0 :: L) /\ NoDup (0 :: L) /\
    (forall e, In e (0 :: L) -> get [0; 0; 0; -1] e = Some 0) /\
    (forall e, ~ In e (0 :: L) ->
               get [0; 0; 0; -1] e = get [-1; -1; -1; -1] e) /\
    get [Ivec2 0 3] 0 = Some (Ivec2 0 (Z.of_nat (length (0 :: L)))) /\
    (forall j, j <> 0 -> get [Ivec2 0 3] j = get [Ivec2 0 0] j).
Proof.
  apply (flood_returns_ring 5 [1; 2; 0; -1] [-1; -1; -1; -1] [Ivec2 0 0]
           0 0).
  vm_compute. reflexivity.
Defined.

(** X9: the graph [to_graph] returns is well formed: every record of its
    catalogue is live and has a ring of its length through its start edge,
    made of distinct edges that carry the id of the record as label, and
    every edge with a label lies on the ring of that label; the fields of
    the edges have one size. *)
Theorem to_graph_well_formed oob fuel grid g :
  to_graph oob fuel grid = Some g ->
  (exists rings,
     catalogue (next_edge g) (cycle_index g) (cycles g) rings) /\
  live_cycles (cycles g) = cycles g /\
  size (previous_edge g) = size (next_edge g) /\
  size (points g) = size (next_edge g) /\
  size (cycle_index g) = size (next_edge g).
Proof.
  intros Hg.
  destruct (to_graph_catalogue oob fuel grid g Hg)
    as ((rings & Hcat) & Hprev & Hpoints & Hlive).
  split; [now exists rings |].
  split.
  { unfold live_count, size in Hlive. rewrite Nat2Z.id in Hlive.
    unfold live_cycles in *.
    clear - Hlive. induction (cycles g) as [| c l IH]; [reflexivity |].
    cbn [filter length] in *.
    destruct (negb (y2 c =? 0)).
    - f_equal. apply IH. cbn [length] in Hlive. lia.
    - exfalso.
      pose proof (filter_length_le (fun c => negb (y2 c =? 0)) l). lia. }
  split; [exact Hprev |].
  split; [exact Hpoints |].
  exact (cat_size _ _ _ _ Hcat).
Qed.

Lemma to_graph_well_formed_witness :
  exists g,
    to_graph oob_zero 200 two_diamonds_grid = Some g /\
    (exists rings,
       catalogue (next_edge g) (cycle_index g) (cycles g) rings) /\
    live_cycles (cycles g) = cycles g /\
    size (previous_edge g) = size (next_edge g) /\
    size (points g) = size (next_edge g) /\
    size (cycle_index g) = size (next_edge g).
Proof.
  eexists. split. { vm_compute. reflexivity. }
  apply (to_graph_well_formed oob_zero 200 two_diamonds_grid).
  vm_compute. reflexivity.
Defined.

(** X10: the marching squares kernel does not fail on the fields [to_graph]
    allocates and leaves no dangling pointer: every entry of [next_edge] and
    of [previous_edge] is NONE or the index of a slot of the fields. *)
Theorem adjacency_pointers_in_range (grid : field2 float) :
  exists adj,
    extract_adjacency grid = Some adj /\
    size (adj_previous adj) = size (adj_next adj) /\
    (forall i j, get (adj_next adj) i = Some j ->
                 j = -1 \/ 0 <= j < size (adj_next adj)) /\
    (forall i p, get (adj_previous adj) i = Some p ->
                 p = -1 \/ 0 <= p < size (adj_next adj)).
Proof.
  destruct (extract_adjacency_final grid) as (adj & Hadj & [Hp Hn] & _).
  destruct (extract_adjacency_pair_invariant grid)
    as (adj' & Hadj' & Hnext & Hprev).
  assert (adj' = adj) by congruence. subst adj'.
  exists adj. split; [exact Hadj |]. split; [congruence |]. split.
  - intros i j Hij. destruct (Z.eq_dec j (-1)) as [-> | Hne]; [now left |].
    right. pose proof (Hnext i j Hij Hne) as Hj.
    apply get_Some_range in Hj. congruence.
  - intros i p Hip. destruct (Z.eq_dec p (-1)) as [-> | Hne]; [now left |].
    right. pose proof (Hprev i p Hip Hne) as Hq.
    now apply get_Some_range in Hq.
Qed.

(** * The stitching engine without neighbourhoods *)

Section Classic.

Variables (points : field vec2) (next_edge cycle_index : field Z)
          (cycles : field ivec2) (rings : field (list Z)).
Variable energies : field float.

Hypothesis Hcat : catalogue next_edge cycle_index cycles rings.
Hypothesis Hpoints : size points = size next_edge.
Hypothesis Henergies : size energies = size cycle_index.

Lemma scan_all_edges_choice m target :
  get cycles m = Some target -> y2 target <> 0 ->
  exists pair,
    find_edges_with_minimum_energy points next_edge cycle_index cycles
      energies m = Some pair /\
    scan_choice points next_edge cycle_index (size energies) target pair.
Proof.
  intros Hm Hlive.
  assert (Hstart : labelled cycle_index (x2 target)).
  { destruct (cat_records _ _ _ _ Hcat m target Hm) as (r & _ & Hrr).
    destruct Hrr as [[Hz _] | (_ & Hin & _ & _ & Hlab)]; [contradiction |].
    exists m. split; [now apply Hlab |].
    apply get_Some_range in Hm. lia. }
  unfold find_edges_with_minimum_energy. rewrite Hm. cbn [bind].
  destruct (for_each_total
              (fun s => labelled cycle_index (s_current_edge s))
              (range (y2 target))
              (all_edges_step points next_edge cycle_index energies)
              (SearchState (x2 target) inf (Ivec2 0 0)))
    as (s & Hs & _); [| exact Hstart |].
  { intros s i _.
    apply (all_edges_step_total points next_edge cycle_index cycles rings
             Hcat Hpoints energies Henergies). }
  rewrite Hs. cbn [bind]. eexists. split; [reflexivity |].
  apply (all_edges_walk points next_edge cycle_index energies _ []) in Hs;
    [| left; repeat split; auto; intros y []].
  rewrite length_range in Hs. cbn [app s_current_edge] in Hs.
  unfold scan_choice. cbv zeta.
  destruct Hs as [(_ & Hpair & Hnone) | (q & Hq & _ & Hpair)].
  - right. now split.
  - left. now exists q.
Qed.

Variable N : Z.
Hypothesis Hfinite : finite_energies points cycle_index.
Hypothesis Hexact : exact_floats N.
Hypothesis HN : size cycle_index + 2 <= N.

Lemma scan_all_edges_joins m target pair :
  get cycles m = Some target -> y2 target <> 0 ->
  (2 <= live_count cycles)%nat ->
  scan_choice points next_edge cycle_index (size energies) target pair ->
  joins_two_rings cycle_index m pair.
Proof.
  intros Hm Hlive Htwo Hpair.
  destruct (cat_records _ _ _ _ Hcat m target Hm) as (r & Hr & Hrr).
  destruct Hrr as [[Hz _] | (Hlen & Hstart & Hring & _ & Hlab)];
    [contradiction |].
  set (n := Z.to_nat (y2 target)) in *.
  unfold scan_choice in Hpair. cbv zeta in Hpair. fold n in Hpair.
  assert (Hwalk : forall e, In e (ring_walk next_edge n (x2 target)) ->
                            get cycle_index e = Some m).
  { intros e He. apply Hlab.
    now apply (ring_walk_in next_edge r n (x2 target)). }
  destruct Hpair as [(q & Hq & ->) | [Hnone _]].
  - apply (far_pair_joins points next_edge cycle_index energies N Henergies
             Hexact HN m (ring_walk next_edge n (x2 target))); auto.
    + now apply first_minimum_in in Hq.
    + now destruct Hq as (_ & _ & _ & Hv & _).
  - (* an edge of another ring is a candidate *)
    exfalso.
    destruct (other_live_record cycles m Htwo)
      as (k & record & Hkm & Hk & Hrec).
    destruct (cat_records _ _ _ _ Hcat k record Hk) as (rk & Hrk & Hrrk).
    destruct Hrrk as [[Hz _] | (Hlenk & Hstartk & _ & _ & Hlabk)];
      [contradiction |].
    set (I0 := x2 target) in *. set (J := x2 record) in *.
    assert (HI0 : labelled cycle_index I0).
    { exists m. split; [now apply Hlab |].
      apply get_Some_range in Hm. lia. }
    assert (HJ : labelled cycle_index J).
    { exists k. split; [now apply Hlabk |].
      apply get_Some_range in Hk. lia. }
    destruct (labelled_next _ _ _ _ Hcat I0 HI0) as (n0 & Hn0 & _).
    destruct (edge_pair_energy_total points _ _ _ _ Hcat Hpoints I0 n0 J
                HI0 Hn0 HJ) as (e & He & Hfin).
    specialize (Hfin Hfinite).
    assert (Hn : (0 < n)%nat).
    { unfold n. destruct r; [destruct Hstart |]. cbn [length] in Hlen. lia. }
    destruct (ring_walk_head next_edge n I0 Hn) as (t & Ht).
    assert (Hin : In (I0, (J, e))
                    (all_pairs points next_edge cycle_index (size energies)
                       (ring_walk next_edge n I0))).
    { apply in_all_pairs. cbn [fst snd]. split; [rewrite Ht; now left |].
      split.
      - rewrite Henergies. apply (get_Some_range cycle_index J k).
        now apply Hlabk.
      - unfold recorded_energy. rewrite Hn0. cbn [bind].
        rewrite (Hlab I0 Hstart). cbn [bind].
        rewrite (Hlabk J Hstartk). cbn [bind].
        destruct (Z.eqb_spec k m); [contradiction |].
        destruct (Z.eqb_spec k (-1)); [| exact He].
        apply get_Some_range in Hk. lia. }
    specialize (Hnone _ Hin). unfold all_pair_cost in Hnone.
    cbn [snd] in Hnone. congruence.
Qed.

End Classic.

(** X11: on a well-formed graph, [find_edges_with_minimum_energy] returns
    without any condition on the position of the edges: its result is the
    first pair of lowest cost, the edges of the target ring in the order of
    the ring from its start edge and, for each of them, all edges by
    increasing index; it is the pair (0, 0) when no pair has a cost below
    +inf. *)
Theorem find_edges_with_minimum_energy_choice (points : field vec2)
    (next_edge cycle_index : field Z) (cycles : field ivec2)
    (rings : field (list Z)) (energies : field float) (m : Z)
    (target : ivec2) :
  catalogue next_edge cycle_index cycles rings ->
  size points = size next_edge ->
  size energies = size cycle_index ->
  get cycles m = Some target -> y2 target <> 0 ->
  exists pair,
    find_edges_with_minimum_energy points next_edge cycle_index cycles
      energies m = Some pair /\
    scan_choice points next_edge cycle_index (size energies) target pair.
Proof.
  intros Hcat Hpoints Henergies.
  now apply scan_all_edges_choice with rings.
Qed.

Lemma find_edges_with_minimum_energy_choice_witness :
  exists g,
    to_graph oob_zero 200 border_diamonds_grid = Some g /\
    exists pair,
      find_edges_with_minimum_energy (points g) (next_edge g)
        (cycle_index g) (cycles g) (fill (size (points g)) zero) 0
        = Some pair /\
      scan_choice (points g) (next_edge g) (cycle_index g)
        (size (fill (size (points g)) zero)) (Ivec2 31 4) pair.
Proof.
  eexists. split. { vm_compute. reflexivity. }
  match goal with
  | |- exists pair, find_edges_with_minimum_energy _ (next_edge ?g) _ _ _ _
                    = _ /\ _ =>
      destruct (to_graph_catalogue oob_zero 200 border_diamonds_grid g)
        as ((rings & Hcat) & _ & Hpoints & _);
        [vm_compute; reflexivity |];
      apply (find_edges_with_minimum_energy_choice (points g) (next_edge g)
               (cycle_index g) (cycles g) rings
               (fill (size (points g)) zero) 0 (Ivec2 31 4) Hcat Hpoints)
  end.
  - vm_compute. reflexivity.
  - vm_compute. reflexivity.
  - cbn. discriminate.
Defined.

Section ClassicLoop.

Variables (points0 : field vec2) (cycle_index0 : field Z) (nb_cycles : Z).
Variables (energies : field float) (N : Z) (fuel : nat).

Hypothesis Hpoints : size points0 = size cycle_index0.
Hypothesis Henergies : size energies = size cycle_index0.
Hypothesis Hfinite : finite_energies points0 cycle_index0.
Hypothesis Hexact : exact_floats N.
Hypothesis HN : size cycle_index0 + 2 <= N.
Hypothesis Hfuel : size cycle_index0 <= Z.of_nat fuel.

Lemma stitching_step_all_edges_invariant g i :
  stitching_invariant points0 cycle_index0 nb_cycles g ->
  (2 <= live_count (cycles g))%nat ->
  exists g',
    stitching_step_all_edges fuel energies g i = Some g' /\
    stitching_invariant points0 cycle_index0 nb_cycles g' /\
    S (live_count (cycles g')) = live_count (cycles g).
Proof.
  intros ((rings & Hcat) & Hprev & Hp & Hsize & Hnb & Hlab) Htwo.
  pose proof (cat_size _ _ _ _ Hcat) as Hcsize.
  unfold stitching_step_all_edges. cbv zeta.
  destruct (find_minimal_cycle_spec (cycles g)) as (m & -> & Hsmall).
  cbn [bind].
  destruct Hsmall as (target & Htarget & Hlive & _).
  { apply (catalogue_exact_lengths _ _ _ _ N Hcat Hexact). lia. }
  { destruct (live_exists (cycles g)) as (k & record & Hk & Hr);
      [unfold live_count in Htwo; lia |].
    destruct (in_field_get (cycles g) record) as (k' & Hk');
      [now apply nth_error_In in Hk |].
    now exists k', record. }
  assert (Hfinite' : finite_energies (points g) (cycle_index g)).
  { rewrite Hp. intros a b c d pa pb pc pd Ha Hb Hc Hd.
    apply Hfinite; now apply Hlab. }
  assert (Hpts : size (points g) = size (next_edge g)) by congruence.
  assert (Hen : size energies = size (cycle_index g)) by congruence.
  destruct (scan_all_edges_choice (points g) (next_edge g) (cycle_index g)
              (cycles g) rings energies Hcat Hpts Hen m target Htarget Hlive)
    as (pair & Hpair & Hchoice).
  rewrite Hpair. cbn [bind].
  destruct (scan_all_edges_joins (points g) (next_edge g) (cycle_index g)
              (cycles g) rings energies Hcat Hpts Hen N Hfinite' Hexact)
    with (m := m) (target := target) (pair := pair)
    as (c & HI & HJ & Hcm & Hc); try assumption; try lia.
  destruct pair as [I J]. cbn [x2 y2] in HI, HJ.
  destruct (stitch_two_cycles_catalogue fuel g rings I J m c Hcat Hprev HI HJ)
    as (g' & rings' & Hg' & Hcat' & Hprev' & Hp' & Hn' & Hcy' & Hlive' & Hlab');
    auto; try lia.
  { apply get_Some_range in Htarget. lia. }
  exists g'. split; [exact Hg' |]. split; [| exact Hlive'].
  split; [now exists rings' |].
  split; [exact Hprev' |].
  split; [congruence |].
  split.
  { rewrite (cat_size _ _ _ _ Hcat'). congruence. }
  split; [congruence |].
  intros e. rewrite Hlab'. apply Hlab.
Qed.

Lemma stitching_loop_all_edges l : forall g,
  stitching_invariant points0 cycle_index0 nb_cycles g ->
  live_count (cycles g) = S (length l) ->
  exists g',
    for_each l (stitching_step_all_edges fuel energies) g = Some g' /\
    stitching_invariant points0 cycle_index0 nb_cycles g' /\
    live_count (cycles g') = 1%nat.
Proof.
  induction l as [| i l IH]; intros g Hinv Hlive; cbn [for_each length] in *.
  - exists g. auto.
  - destruct (stitching_step_all_edges_invariant g i Hinv)
      as (g1 & -> & Hinv1 & Hlive1); [lia |].
    cbn [bind]. apply IH; [exact Hinv1 | lia].
Qed.

End ClassicLoop.

(** * Walks along the rings *)

Lemma ring_walk_chained next_edge T : forall a z,
  chained next_edge a (T ++ [z]) ->
  ring_walk next_edge (S (length T)) a = a :: T /\
  ring_end next_edge (S (length T)) a = z.
Proof.
  induction T as [| b T IH]; intros a z; cbn [app chained length].
  - intros [Ha _]. cbn. rewrite Ha. auto.
  - intros [Ha Hch]. destruct (IH b z Hch) as [Hw He].
    cbn [ring_walk ring_end] in *. rewrite Ha. rewrite Hw, He. auto.
Qed.

(** The walk of a live record of a catalogue is a tour of the edges with the
    label of the record. *)
Lemma catalogue_tour next_edge cycle_index cycles rings k record :
  catalogue next_edge cycle_index cycles rings ->
  get cycles k = Some record -> y2 record <> 0 ->
  tour next_edge record (fun e => get cycle_index e = Some k).
Proof.
  intros Hcat Hk Hlive.
  destruct (cat_records _ _ _ _ Hcat k record Hk) as (r & Hr & Hrr).
  destruct Hrr as [[Hz _] | (Hlen & Hstart & Hring & Hnd & Hlab)];
    [contradiction |].
  destruct (ring_focus next_edge r (x2 record) Hring Hnd Hstart)
    as (T & HringT & HndT & Hsame & HlenT).
  assert (Hn : Z.to_nat (y2 record) = S (length T)).
  { rewrite Hlen, Nat2Z.id, <- HlenT. reflexivity. }
  destruct (ring_walk_chained next_edge T (x2 record) (x2 record) HringT)
    as [Hwalk Hend].
  unfold tour, record_walk. rewrite Hn, Hwalk, Hend.
  split; [exact HndT |]. split; [| split; [| reflexivity]].
  - intros e. rewrite Hsame. split; [apply Hlab |].
    intros He.
    destruct (cat_labels _ _ _ _ Hcat e k He) as (r' & Hr' & Hin).
    + apply get_Some_range in Hk. lia.
    + congruence.
  - rewrite Hlen, <- HlenT. reflexivity.
Qed.

(** With one live record, every edge with a label has the id of that
    record. *)
Lemma single_record_labels next_edge cycle_index cycles rings m record e :
  catalogue next_edge cycle_index cycles rings ->
  live_count cycles = 1%nat ->
  get cycles m = Some record -> y2 record <> 0 ->
  (labelled cycle_index e <-> get cycle_index e = Some m).
Proof.
  intros Hcat Hone Hm Hy. split.
  - intros (c & Hc & Hne).
    destruct (cat_labels _ _ _ _ Hcat e c Hc Hne) as (rc & Hrc & Hec).
    destruct (Z.eq_dec c m) as [-> | Hcm]; [exact Hc | exfalso].
    destruct (get_in_range cycles c) as (recc & Hrecc).
    { rewrite <- (cat_rings _ _ _ _ Hcat). now apply get_Some_range in Hrc. }
    destruct (cat_records _ _ _ _ Hcat c recc Hrecc) as (rc' & Hrc' & Hrrc).
    assert (rc' = rc) by congruence. subst rc'.
    destruct Hrrc as [[_ ->] | (Hlenc & _)]; [destruct Hec |].
    assert (Hyc : y2 recc <> 0).
    { destruct rc; [destruct Hec |]. cbn [length] in Hlenc. lia. }
    pose proof (two_live cycles (Z.to_nat c) (Z.to_nat m) recc record
                  (get_nth_error _ _ _ Hrecc) Hyc
                  (get_nth_error _ _ _ Hm) Hy) as Htwo.
    apply get_Some_range in Hrecc. apply get_Some_range in Hm.
    unfold live_count in Hone. lia.
  - intros He. exists m. split; [exact He |].
    apply get_Some_range in Hm. lia.
Qed.

(** The state the stitching loops end in: one live record, whose walk is a
    tour of the edges that had a label at the start. *)
Lemma stitched_tour points0 cycle_index0 nb_cycles g :
  stitching_invariant points0 cycle_index0 nb_cycles g ->
  live_count (cycles g) = 1%nat ->
  exists record,
    live_cycles (cycles g) = [record] /\
    y2 record = count_set cycle_index0 /\
    tour (next_edge g) record (labelled cycle_index0) /\
    points g = points0.
Proof.
  intros ((rings & Hcat) & _ & Hp & Hsize & _ & Hlab) Hone.
  destruct (single_record_length _ _ _ _ Hcat Hone) as (record & Hrec & Hlen).
  exists record. split; [exact Hrec |].
  split; [rewrite Hlen; now apply count_set_labelled |].
  split; [| exact Hp].
  assert (Hin : In record (live_cycles (cycles g)))
    by (rewrite Hrec; now left).
  apply filter_In in Hin as [Hin Hlive].
  apply in_field_get in Hin as (m & Hm).
  assert (Hy : y2 record <> 0) by now destruct (Z.eqb_spec (y2 record) 0).
  destruct (catalogue_tour _ _ _ _ m record Hcat Hm Hy)
    as (Hnd & Hwalk & Hl & Hend).
  repeat split; auto.
  - intros He. apply Hlab.
    apply (single_record_labels _ _ _ _ m record e Hcat Hone Hm Hy).
    now apply Hwalk.
  - intros He. apply Hwalk.
    apply (single_record_labels _ _ _ _ m record e Hcat Hone Hm Hy).
    now apply Hlab.
Qed.

(** X12: every contour [to_graph] records is closed: the walk of each
    record, from its start edge along [next_edge] for its length, comes back
    to the start edge after visiting once every edge that carries the id of
    the record in [cycle_index], and no other edge. *)
Theorem extracted_contours_are_tours oob fuel grid g k record :
  to_graph oob fuel grid = Some g ->
  get (cycles g) k = Some record ->
  tour (next_edge g) record (fun e => get (cycle_index g) e = Some k).
Proof.
  intros Hg Hk.
  destruct (to_graph_catalogue oob fuel grid g Hg)
    as ((rings & Hcat) & _ & _ & Hlive).
  apply (catalogue_tour _ _ _ rings k record Hcat Hk).
  (* every record is live *)
  destruct (cat_records _ _ _ _ Hcat k record Hk) as (r & Hr & Hrr).
  intros Hz.
  assert (Hall : length (live_cycles (cycles g)) = length (cycles g)).
  { unfold live_count, size in Hlive. now rewrite Nat2Z.id in Hlive. }
  assert (Hnot : ~ In record (live_cycles (cycles g))).
  { intros Hin. apply filter_In in Hin as [_ Hin].
    rewrite Hz in Hin. discriminate. }
  assert (Hin : In record (cycles g)).
  { apply get_nth_error in Hk. now apply nth_error_In in Hk. }
  clear - Hall Hnot Hin. unfold live_cycles in *.
  induction (cycles g) as [| c l IH]; [destruct Hin |].
  cbn [filter length] in *.
  pose proof (filter_length_le (fun c => negb (y2 c =? 0)) l) as Hle.
  destruct (negb (y2 c =? 0)) eqn:E; cbn [length] in Hall; [| lia].
  destruct Hin as [-> | Hin].
  - apply Hnot. now left.
  - apply IH; auto. intros H. apply Hnot. now right.
Qed.

Lemma extracted_contours_are_tours_witness :
  exists g,
    to_graph oob_zero 200 two_diamonds_grid = Some g /\
    tour (next_edge g) (Ivec2 77 4)
         (fun e => get (cycle_index g) e = Some 0).
Proof.
  eexists. split. { vm_compute. reflexivity. }
  apply (extracted_contours_are_tours oob_zero 200 two_diamonds_grid).
  - vm_compute. reflexivity.
  - vm_compute. reflexivity.
Defined.

(** * The results of the two engines *)

(** X13: the engine without neighbourhoods, [stitch_all_cycles], needs no
    condition on the position of the contours: on the graph [to_graph]
    returns, with K >= 1 records, patching energies below +inf and indices
    that floats carry exactly, it returns and leaves one live record; the
    walk of that record is a single tour that visits once every edge that
    had a label, its length is their number, and the points are
    unchanged. *)
Theorem stitch_all_cycles_single_tour (oob : Z -> Z -> Z) (fuel0 : nat)
    (grid : field2 float) (g : graph) (N : Z) (fuel : nat) :
  to_graph oob fuel0 grid = Some g ->
  1 <= size (cycles g) ->
  finite_energies (points g) (cycle_index g) ->
  exact_floats N -> size (next_edge g) + 2 <= N ->
  size (next_edge g) <= Z.of_nat fuel ->
  exists g' record,
    stitch_all_cycles fuel g = Some g' /\
    live_cycles (cycles g') = [record] /\
    y2 record = count_set (cycle_index g) /\
    tour (next_edge g') record (labelled (cycle_index g)) /\
    points g' = points g.
Proof.
  intros Hg HK Hfinite Hexact HN Hfuel.
  destruct (to_graph_catalogue oob fuel0 grid g Hg)
    as ((rings & Hcat) & Hprev & Hpoints & Hlive).
  pose proof (cat_size _ _ _ _ Hcat) as Hsize.
  unfold stitch_all_cycles, compiled_stitching_algorithm. cbv zeta.
  destruct (stitching_loop_all_edges (points g) (cycle_index g)
              (size (cycles g)) (fill (size (points g)) zero) N fuel)
    with (l := range (size (cycles g) - 1)) (g := g)
    as (g' & Hg' & Hinv & Hone); try assumption; try lia.
  - rewrite size_fill by apply size_nonneg. lia.
  - repeat split; auto. now exists rings.
  - rewrite length_range. lia.
  - destruct (stitched_tour _ _ _ _ Hinv Hone) as (record & Hrec).
    now exists g', record.
Qed.

Lemma stitch_all_cycles_single_tour_witness :
  exists g,
    to_graph oob_zero 200 border_diamonds_grid = Some g /\
    exists g' record,
      stitch_all_cycles 200 g = Some g' /\
      live_cycles (cycles g') = [record] /\
      y2 record = count_set (cycle_index g) /\
      tour (next_edge g') record (labelled (cycle_index g)) /\
      points g' = points g.
Proof.
  eexists. split. { vm_compute. reflexivity. }
  match goal with
  | |- exists g' record, stitch_all_cycles _ ?g = _ /\ _ =>
      apply (stitch_all_cycles_single_tour oob_zero 200 border_diamonds_grid
               g 200 200)
  end.
  - vm_compute. reflexivity.
  - vm_compute. discriminate.
  - apply finite_energies_check_sound. vm_compute. reflexivity.
  - apply exact_floats_check_sound. vm_compute. reflexivity.
  - vm_compute. discriminate.
  - vm_compute. discriminate.
Defined.

(** X14: under the conditions that keep its neighbourhood search in the
    fields, the engine [stitch_all_cycles_with_neighbourhood] leaves a
    single tour as well: the walk of the one live record visits once every
    edge that had a label and comes back to its start edge, and the points
    are unchanged. *)
Theorem stitch_with_neighbourhood_single_tour (oob : Z -> Z -> Z)
    (fuel0 : nat) (grid : field2 float) (g : graph) (N : Z) (fuel : nat) :
  to_graph oob fuel0 grid = Some g ->
  1 <= size (cycles g) ->
  neighbourhoods_in_bounds (shape grid) (cycle_index g) ->
  finite_energies (points g) (cycle_index g) ->
  exact_floats N -> size (next_edge g) + 2 <= N ->
  0 <= x2 (shape grid) /\ 0 < y2 (shape grid) ->
  size (next_edge g) <= Z.of_nat fuel ->
  exists g' record,
    stitch_all_cycles_with_neighbourhood fuel g (shape grid) = Some g' /\
    live_cycles (cycles g') = [record] /\
    tour (next_edge g') record (labelled (cycle_index g)) /\
    points g' = points g.
Proof.
  intros Hg HK Hbounds Hfinite Hexact HN Hshape Hfuel.
  destruct (to_graph_catalogue oob fuel0 grid g Hg)
    as ((rings & Hcat) & Hprev & Hpoints & Hlive).
  pose proof (cat_size _ _ _ _ Hcat) as Hsize.
  unfold stitch_all_cycles_with_neighbourhood,
    compiled_stitching_algorithm_with_neighbours. cbv zeta.
  destruct (stitching_loop (points g) (cycle_index g) (size (cycles g))
              (shape grid) (fill (size (points g)) zero) N fuel)
    with (l := range (size (cycles g) - 1)) (g := g)
    as (g' & Hg' & Hinv & Hone); try assumption; try lia.
  - rewrite size_fill by apply size_nonneg. lia.
  - repeat split; auto. now exists rings.
  - rewrite length_range. lia.
  - destruct (stitched_tour _ _ _ _ Hinv Hone)
      as (record & Hrec & _ & Htour & Hp).
    now exists g', record.
Qed.

Lemma stitch_with_neighbourhood_single_tour_witness :
  exists g,
    to_graph oob_zero 200 two_diamonds_grid = Some g /\
    exists g' record,
      stitch_all_cycles_with_neighbourhood 200 g (Ivec2 6 8) = Some g' /\
      live_cycles (cycles g') = [record] /\
      tour (next_edge g') record (labelled (cycle_index g)) /\
      points g' = points g.
Proof.
  eexists. split. { vm_compute. reflexivity. }
  match goal with
  | |- exists g' record,
         stitch_all_cycles_with_neighbourhood _ ?g _ = _ /\ _ =>
      apply (stitch_with_neighbourhood_single_tour oob_zero 200
               two_diamonds_grid g 111 200)
  end.
  - vm_compute. reflexivity.
  - vm_compute. discriminate.
  - apply neighbourhoods_check_sound. vm_compute. reflexivity.
  - apply finite_energies_check_sound. vm_compute. reflexivity.
  - apply exact_floats_check_sound. vm_compute. reflexivity.
  - vm_compute. discriminate.
  - cbn. lia.
  - vm_compute. discriminate.
Defined.

(** * The polylines *)

Lemma set_app_Some {A} (pre rest : list A) v f :
  set (pre ++ rest) (Z.of_nat (length pre)) v = Some f ->
  exists a rest', rest = a :: rest' /\ f = pre ++ v :: rest'.
Proof.
  intros H. destruct rest as [| a rest'].
  - apply set_Some_range in H. unfold size in H.
    rewrite app_nil_r in H. lia.
  - rewrite set_app_length in H. injection H as <-. eauto.
Qed.

(** One iteration writes the segment of the current edge after the segments
    written so far. *)
Lemma compute_lines_edge_spec points next_edge done rest point i s' :
  compute_lines_edge points next_edge
    (LinesState (done ++ rest) (Z.of_nat (length done)) point) i = Some s' ->
  exists n,
    get next_edge point = Some n /\
    length (segment points next_edge point) = 2%nat /\
    (2 <= length rest)%nat /\
    s' = LinesState ((done ++ segment points next_edge point) ++ skipn 2 rest)
           (Z.of_nat (length (done ++ segment points next_edge point))) n.
Proof.
  unfold compute_lines_edge, segment. cbv zeta.
  cbn [l_lines l_line_index l_point_index].
  destruct (get points point) as [p |]; cbn [bind]; [| discriminate].
  destruct (set (done ++ rest) _ p) as [l1 |] eqn:H1; cbn [bind];
    [| discriminate].
  destruct (get next_edge point) as [n |]; cbn [bind]; [| discriminate].
  destruct (get points n) as [q |]; cbn [bind]; [| discriminate].
  apply set_app_Some in H1 as (a & rest1 & -> & ->).
  replace (done ++ p :: rest1) with ((done ++ [p]) ++ rest1)
    by (now rewrite <- app_assoc).
  replace (Z.of_nat (length done) + 1)
    with (Z.of_nat (length (done ++ [p])))
    by (rewrite length_app; cbn [length]; lia).
  destruct (set _ _ q) as [l2 |] eqn:H2; cbn [bind]; [| discriminate].
  apply set_app_Some in H2 as (b & rest2 & -> & ->).
  intros [= <-]. exists n. split; [reflexivity |].
  split; [reflexivity |]. split; [cbn [length]; lia |].
  cbn [skipn]. f_equal.
  - rewrite <- !app_assoc. reflexivity.
  - rewrite !length_app. cbn [length]. lia.
Qed.

Lemma compute_lines_walk points next_edge (l : list Z) :
  forall done rest point s',
  for_each l (compute_lines_edge points next_edge)
    (LinesState (done ++ rest) (Z.of_nat (length done)) point) = Some s' ->
  let segments :=
    flat_map (segment points next_edge)
             (ring_walk next_edge (length l) point) in
  length segments = (2 * length l)%nat /\
  (length segments <= length rest)%nat /\
  s' = LinesState ((done ++ segments) ++ skipn (length segments) rest)
         (Z.of_nat (length (done ++ segments)))
         (ring_end next_edge (length l) point).
Proof.
  induction l as [| i l IH]; intros done rest point s';
    cbn [length for_each ring_walk ring_end flat_map].
  - intros [= <-]. cbn [length skipn]. rewrite app_nil_r.
    repeat split; auto. lia.
  - destruct (compute_lines_edge _ _ _ _) as [s1 |] eqn:Hstep;
      cbn [bind]; [| discriminate].
    apply compute_lines_edge_spec in Hstep
      as (nx & Hnx & Hseg & Hroom & ->).
    rewrite Hnx. intros Hrest.
    apply IH in Hrest. cbv zeta in Hrest.
    set (seg := segment points next_edge point) in *.
    set (segs := flat_map (segment points next_edge)
                          (ring_walk next_edge (length l) nx)) in *.
    destruct Hrest as (Hlen & Hroom' & ->).
    rewrite length_skipn in Hroom'.
    assert (Hl : length (seg ++ segs) = (2 + length segs)%nat)
      by (rewrite length_app, Hseg; reflexivity).
    cbv zeta. rewrite Hl.
    split; [lia |]. split; [lia |].
    f_equal.
    + rewrite skipn_skipn, <- !app_assoc.
      replace (length segs + 2)%nat with (2 + length segs)%nat by lia.
      reflexivity.
    + rewrite <- !app_assoc. reflexivity.
Qed.

Lemma compute_lines_records points next_edge (records : list (Z * ivec2)) :
  forall done rest point s',
  for_each records
    (fun s p =>
       for_each (range (y2 (snd p))) (compute_lines_edge points next_edge)
                (LinesState (l_lines s) (l_line_index s) (x2 (snd p))))
    (LinesState (done ++ rest) (Z.of_nat (length done)) point) = Some s' ->
  let segments := polylines points next_edge (map snd records) in
  Z.of_nat (length segments) = 2 * total_length (map snd records) /\
  (length segments <= length rest)%nat /\
  l_lines s' = (done ++ segments) ++ skipn (length segments) rest.
Proof.
  induction records as [| [k record] records IH];
    intros done rest point s'; cbn [for_each map snd].
  - intros [= <-]. cbn. rewrite app_nil_r. repeat split; auto. lia.
  - cbn [l_lines l_line_index].
    destruct (for_each (range (y2 record)) _ _) as [s1 |] eqn:Hwalk;
      cbn [bind]; [| discriminate].
    apply compute_lines_walk in Hwalk. cbv zeta in Hwalk.
    rewrite length_range in Hwalk.
    fold (record_walk next_edge record) in Hwalk.
    fold (polyline points next_edge record) in Hwalk.
    set (seg := polyline points next_edge record) in *.
    destruct Hwalk as (Hlen & Hroom & ->).
    intros Hrest. apply IH in Hrest. cbv zeta in Hrest.
    set (segs := polylines points next_edge (map snd records)) in *.
    destruct Hrest as (Hlen' & Hroom' & ->).
    rewrite length_skipn in Hroom'.
    unfold polylines. cbn [flat_map].
    fold (polylines points next_edge (map snd records)).
    fold seg. fold segs.
    assert (Hl : length (seg ++ segs) = (length seg + length segs)%nat)
      by apply length_app.
    rewrite Hl. split; [| split; [lia |]].
    + cbn [total_length fold_right].
      fold (total_length (map snd records)). lia.
    + rewrite skipn_skipn, <- !app_assoc.
      replace (length segs + length seg)%nat
        with (length seg + length segs)%nat by lia.
      reflexivity.
Qed.

Lemma map_snd_indexed_from {A} (l : list A) : forall i,
  map snd (indexed_from i l) = l.
Proof.
  induction l as [| a l IH]; intros i; cbn; [reflexivity |].
  now rewrite IH.
Qed.

(** X15: when [compute_lines] returns, the field holds the polylines of the
    records, one after the other in the order of the catalogue, each made of
    the segments of its walk, two entries for a segment; the entries after
    them are unchanged, and the polylines fit in the field. *)
Theorem compute_lines_result (lines points : field vec2)
    (next_edge : field Z) (cycles : field ivec2) (lines' : field vec2) :
  compute_lines lines points next_edge cycles = Some lines' ->
  lines' = polylines points next_edge cycles
           ++ skipn (length (polylines points next_edge cycles)) lines /\
  Z.of_nat (length (polylines points next_edge cycles))
    = 2 * total_length cycles /\
  2 * total_length cycles <= size lines.
Proof.
  unfold compute_lines.
  destruct (for_each _ _ _) as [s |] eqn:Hloop; cbn [bind]; [| discriminate].
  intros [= <-].
  unfold compute_lines_cycle in Hloop.
  rewrite (for_each_indexed
             (fun s i cycle =>
                for_each (range (y2 cycle))
                         (compute_lines_edge points next_edge)
                         (LinesState (l_lines s) (l_line_index s)
                                     (x2 cycle)))) in Hloop.
  apply (compute_lines_records points next_edge (indexed_from 0 cycles)
           [] lines 0 s) in Hloop.
  cbv zeta in Hloop. rewrite map_snd_indexed_from in Hloop.
  destruct Hloop as (Hlen & Hroom & ->).
  split; [reflexivity |]. split; [exact Hlen |].
  unfold size. lia.
Qed.

Lemma compute_lines_result_witness :
  exists lines',
    compute_lines (fill 7 (Vec2 nan nan)) triangle_points triangle_next
      [Ivec2 0 3] = Some lines' /\
    lines' = polylines triangle_points triangle_next [Ivec2 0 3]
             ++ skipn (length (polylines triangle_points triangle_next
                                 [Ivec2 0 3]))
                      (fill 7 (Vec2 nan nan)) /\
    Z.of_nat (length (polylines triangle_points triangle_next [Ivec2 0 3]))
      = 2 * total_length [Ivec2 0 3] /\
    2 * total_length [Ivec2 0 3] <= size (fill 7 (Vec2 nan nan)).
Proof.
  eexists. split. { vm_compute. reflexivity. }
  apply (compute_lines_result (fill 7 (Vec2 nan nan)) triangle_points
           triangle_next [Ivec2 0 3]).
  vm_compute. reflexivity.
Defined.

Lemma total_length_nonneg (cycles : list ivec2) : 0 <= total_length cycles.
Proof.
  induction cycles as [| c l IH]; cbn; [lia |].
  fold (total_length l). lia.
Qed.

Section PolylinesTotal.

Variables (points : field vec2) (next_edge cycle_index : field Z)
          (cycles : field ivec2) (rings : field (list Z)).

Hypothesis Hcat : catalogue next_edge cycle_index cycles rings.
Hypothesis Hpoints : size points = size next_edge.

Lemma compute_lines_walk_total (l : list Z) : forall done rest point,
  labelled cycle_index point ->
  (2 * length l <= length rest)%nat ->
  exists s',
    for_each l (compute_lines_edge points next_edge)
      (LinesState (done ++ rest) (Z.of_nat (length done)) point) = Some s'.
Proof.
  induction l as [| i l IH]; intros done rest point Hpoint Hroom;
    cbn [for_each length] in *; [eauto |].
  destruct (labelled_point points _ _ _ _ Hcat Hpoints point Hpoint)
    as (p & Hp).
  destruct (labelled_next _ _ _ _ Hcat point Hpoint) as (n & Hn & Hnl).
  destruct (labelled_point points _ _ _ _ Hcat Hpoints n Hnl) as (q & Hq).
  destruct rest as [| a [| b rest]]; cbn [length] in Hroom; try lia.
  unfold compute_lines_edge at 1. cbv zeta.
  cbn [l_lines l_line_index l_point_index].
  rewrite Hp. cbn [bind]. rewrite set_app_length. cbn [bind].
  rewrite Hn. cbn [bind]. rewrite Hq. cbn [bind].
  replace (done ++ p :: b :: rest) with ((done ++ [p]) ++ b :: rest)
    by (now rewrite <- app_assoc).
  replace (Z.of_nat (length done) + 1)
    with (Z.of_nat (length (done ++ [p])))
    by (rewrite length_app; cbn [length]; lia).
  rewrite set_app_length. cbn [bind].
  replace ((done ++ [p]) ++ q :: rest) with ((done ++ [p; q]) ++ rest)
    by (rewrite <- !app_assoc; reflexivity).
  replace (Z.of_nat (length done) + 2)
    with (Z.of_nat (length (done ++ [p; q])))
    by (rewrite !length_app; cbn [length]; lia).
  apply IH; [exact Hnl | lia].
Qed.

Lemma compute_lines_records_total (records : list (Z * ivec2)) :
  forall done rest point,
  (forall p, In p records -> get cycles (fst p) = Some (snd p)) ->
  2 * total_length (map snd records) <= Z.of_nat (length rest) ->
  exists s',
    for_each records
      (fun s p =>
         for_each (range (y2 (snd p))) (compute_lines_edge points next_edge)
                  (LinesState (l_lines s) (l_line_index s) (x2 (snd p))))
      (LinesState (done ++ rest) (Z.of_nat (length done)) point) = Some s'.
Proof.
  induction records as [| [k record] records IH];
    intros done rest point Hrec Hroom; cbn [for_each map snd] in *;
    [eauto |].
  cbn [total_length fold_right] in Hroom.
  fold (total_length (map snd records)) in Hroom.
  pose proof (total_length_nonneg (map snd records)) as Hpos.
  cbn [l_lines l_line_index].
  assert (Hwalk : exists s1,
            for_each (range (y2 record)) (compute_lines_edge points next_edge)
              (LinesState (done ++ rest) (Z.of_nat (length done))
                          (x2 record)) = Some s1).
  { destruct (Z.eq_dec (y2 record) 0) as [Hz | Hlive].
    - rewrite Hz. cbn. eauto.
    - apply compute_lines_walk_total.
      + pose proof (Hrec (k, record) (or_introl eq_refl)) as Hk.
        cbn [fst snd] in Hk.
        destruct (cat_records _ _ _ _ Hcat k record Hk) as (r & _ & Hrr).
        destruct Hrr as [[Hz _] | (_ & Hin & _ & _ & Hlab)];
          [contradiction |].
        exists k. split; [now apply Hlab |].
        apply get_Some_range in Hk. lia.
      + rewrite length_range. lia. }
  destruct Hwalk as (s1 & Hs1). rewrite Hs1. cbn [bind].
  apply compute_lines_walk in Hs1. cbv zeta in Hs1.
  rewrite length_range in Hs1.
  destruct Hs1 as (Hlen & Hfit & ->).
  cbn [l_lines l_line_index].
  apply IH.
  - intros p Hp. apply Hrec. now right.
  - rewrite length_skipn. lia.
Qed.

Lemma compute_lines_total (lines : field vec2) :
  2 * total_length cycles <= size lines ->
  exists lines', compute_lines lines points next_edge cycles = Some lines'.
Proof.
  intros Hroom. unfold compute_lines, compute_lines_cycle.
  rewrite (for_each_indexed
             (fun s i cycle =>
                for_each (range (y2 cycle))
                         (compute_lines_edge points next_edge)
                         (LinesState (l_lines s) (l_line_index s)
                                     (x2 cycle)))).
  destruct (compute_lines_records_total (indexed_from 0 cycles) [] lines 0)
    as (s & Hs).
  - intros [k record] Hp. cbn [fst snd]. now apply indexed_get.
  - now rewrite map_snd_indexed_from.
  - cbn [app length] in Hs. change (Z.of_nat 0) with 0 in Hs.
    rewrite Hs. cbn [bind]. eauto.
Qed.

End PolylinesTotal.

Lemma skipn_repeat_length {A} (v : A) k n :
  skipn k (repeat v n) = repeat v (n - k).
Proof.
  revert k; induction n as [| n IH]; intros [| k]; cbn; auto.
Qed.

(** X16: on a well-formed graph, [graph_to_polylines] writes two entries
    for every edge of every record into a field of the size of [points]: it
    returns the polylines followed by NaN entries when twice the total
    length of the records fits in that size, and it writes outside the field
    otherwise. *)
Theorem graph_to_polylines_fits (points : field vec2)
    (next_edge cycle_index : field Z) (cycles : field ivec2)
    (rings : field (list Z)) :
  catalogue next_edge cycle_index cycles rings ->
  size points = size next_edge ->
  (2 * total_length cycles <= size points ->
   graph_to_polylines points next_edge cycles =
   Some (polylines points next_edge cycles
         ++ repeat (Vec2 nan nan)
                   (Z.to_nat (size points - 2 * total_length cycles)))) /\
  (size points < 2 * total_length cycles ->
   graph_to_polylines points next_edge cycles = None).
Proof.
  intros Hcat Hpoints. unfold graph_to_polylines. cbv zeta.
  assert (Hsize : size (fill (size points) (Vec2 nan nan)) = size points)
    by apply size_fill, size_nonneg.
  split.
  - intros Hroom.
    destruct (compute_lines_total points next_edge cycle_index cycles rings
                Hcat Hpoints (fill (size points) (Vec2 nan nan)))
      as (lines' & Hlines); [now rewrite Hsize |].
    rewrite Hlines. f_equal.
    destruct (compute_lines_result _ _ _ _ _ Hlines) as (-> & Hlen & _).
    f_equal. unfold fill. rewrite skipn_repeat_length. f_equal. lia.
  - intros Hroom.
    destruct (compute_lines _ _ _ _) as [lines' |] eqn:Hlines;
      [| reflexivity].
    destruct (compute_lines_result _ _ _ _ _ Hlines) as (_ & _ & Hfit).
    rewrite Hsize in Hfit. lia.
Qed.

Lemma graph_to_polylines_fits_witness :
  exists g,
    to_graph oob_zero 200 two_diamonds_grid = Some g /\
    (2 * total_length (cycles g) <= size (points g) ->
     graph_to_polylines (points g) (next_edge g) (cycles g) =
     Some (polylines (points g) (next_edge g) (cycles g)
           ++ repeat (Vec2 nan nan)
                (Z.to_nat (size (points g) - 2 * total_length (cycles g)))))
    /\
    (size (points g) < 2 * total_length (cycles g) ->
     graph_to_polylines (points g) (next_edge g) (cycles g) = None).
Proof.
  eexists. split. { vm_compute. reflexivity. }
  match goal with
  | |- (_ -> graph_to_polylines (points ?g) _ _ = _) /\ _ =>
      destruct (to_graph_catalogue oob_zero 200 two_diamonds_grid g)
        as ((rings & Hcat) & _ & Hpoints & _);
        [vm_compute; reflexivity |];
      exact (graph_to_polylines_fits (points g) (next_edge g)
               (cycle_index g) (cycles g) rings Hcat Hpoints)
  end.
Defined.




(** * Further properties of the energies *)

Lemma compute_all_energies_size points next_edge cycle_index energies I e' :
  compute_all_energies points next_edge cycle_index energies I = Some e' ->
  size e' = size energies.
Proof.
  unfold compute_all_energies.
  destruct (get next_edge I) as [n |]; cbn [bind]; [| discriminate].
  destruct (get cycle_index I) as [cI |]; cbn [bind]; [| discriminate].
  apply (for_each_invariant (fun f => size f = size energies));
    [| reflexivity].
  intros f J f' _ Hf. unfold all_energies_step.
  destruct (get cycle_index J) as [c |]; cbn [bind]; [| discriminate].
  assert (Hset : forall v, set f J v = Some f' -> size f' = size energies)
    by (intros v Hv; apply size_set in Hv; congruence).
  destruct (c =? cI); [apply Hset |].
  destruct (c =? -1); [apply Hset |].
  destruct (edge_pair_energy _ _ _ _) as [e |]; cbn [bind];
    [apply Hset | discriminate].
Qed.

(** X18: when [compute_all_energies] returns, the field has its size and
    holds at every index J the energy recorded for J: +inf when J has the
    label of the reference edge or no label, the patching energy of the
    reference edge and J otherwise. *)
Theorem compute_all_energies_records points next_edge cycle_index energies
    I e' :
  compute_all_energies points next_edge cycle_index energies I = Some e' ->
  size e' = size energies /\
  forall J, 0 <= J < size energies ->
    exists v, get e' J = Some v /\
              recorded_energy points next_edge cycle_index I J = Some v.
Proof.
  intros H. pose proof (compute_all_energies_size _ _ _ _ _ _ H) as Hsize.
  split; [exact Hsize |].
  intros J HJ.
  destruct (get_in_range e' J) as (v & Hv); [lia |].
  exists v. split; [exact Hv |].
  apply compute_all_energies_spec in H.
  apply indexed_get in Hv. rewrite H in Hv.
  unfold all_candidates in Hv.
  apply in_flat_map in Hv as (J' & _ & Hv).
  destruct (recorded_energy _ _ _ I J') as [e |] eqn:E; [| destruct Hv].
  destruct Hv as [[= <- <-] | []]. exact E.
Qed.

Lemma compute_all_energies_records_witness :
  exists e',
    compute_all_energies triangle_points triangle_next [0; 0; 0; -1]
      (fill 4 inf) 0 = Some e' /\
    size e' = size (fill 4 inf) /\
    forall J, 0 <= J < size (fill 4 inf) ->
      exists v, get e' J = Some v /\
                recorded_energy triangle_points triangle_next [0; 0; 0; -1]
                  0 J = Some v.
Proof.
  eexists. split. { vm_compute. reflexivity. }
  apply (compute_all_energies_records triangle_points triangle_next
           [0; 0; 0; -1] (fill 4 inf) 0).
  vm_compute. reflexivity.
Defined.

(** X19: when [compute_neighbours_energies] returns, its energy is never a
    NaN: it is +inf, with the index of the neighbour at offset (0, 0, 0),
    when no neighbour with another label has an energy below +inf, and
    otherwise the energy and the index of the first neighbour of lowest
    energy in the order of the offsets. *)
Theorem compute_neighbours_energies_first points next_edge cycle_index shape
    I v :
  compute_neighbours_energies points next_edge cycle_index shape I = Some v ->
  (no_candidate cand_energy
     (neighbour_candidates points next_edge cycle_index shape I) /\
   fx v = inf /\
   ftoi (fy v) = returned_edge shape I (Ivec3 0 0 0)) \/
  (exists c,
     first_minimum cand_energy
       (neighbour_candidates points next_edge cycle_index shape I) c /\
     fx v = cand_energy c /\
     ftoi (fy v) = returned_edge shape I (cand_offset c)).
Proof.
  intros H.
  apply compute_neighbours_energies_spec in H
    as (best & [[-> Hnone] | [Hmin Hcost]] & Hfx & Hfy).
  - left. auto.
  - right. exists (snd best). rewrite Hfx, Hfy. auto.
Qed.

Lemma compute_neighbours_energies_first_witness :
  exists g,
    to_graph oob_zero 200 two_diamonds_grid = Some g /\
    exists v,
      compute_neighbours_energies (points g) (next_edge g) (cycle_index g)
        (Ivec2 6 8) 77 = Some v /\
      ((no_candidate cand_energy
          (neighbour_candidates (points g) (next_edge g) (cycle_index g)
             (Ivec2 6 8) 77) /\
        fx v = inf /\
        ftoi (fy v) = returned_edge (Ivec2 6 8) 77 (Ivec3 0 0 0)) \/
       (exists c,
          first_minimum cand_energy
            (neighbour_candidates (points g) (next_edge g) (cycle_index g)
               (Ivec2 6 8) 77) c /\
          fx v = cand_energy c /\
          ftoi (fy v) = returned_edge (Ivec2 6 8) 77 (cand_offset c))).
Proof.
  eexists. split. { vm_compute. reflexivity. }
  eexists. split. { vm_compute. reflexivity. }
  apply compute_neighbours_energies_first.
  vm_compute. reflexivity.
Defined.

(** * When the extraction returns *)

Lemma load2_binary oob grid x y :
  0 <= x < x2 (shape grid) -> 0 <= y < y2 (shape grid) ->
  load2 oob (compute_binary_grid grid) x y = bit_at grid (x, y).
Proof.
  intros Hx Hy. unfold load2. now rewrite get2_binary.
Qed.

(** X20: the loads [browse_grid] makes outside the binary grid are dead:
    its result, and so the graph [to_graph] returns, does not depend on the
    values those loads yield. *)
Theorem browse_grid_ignores_dead_loads (oob1 oob2 : Z -> Z -> Z)
    (fuel : nat) (grid : field2 float) :
  (forall next_edge cycle_index cycles,
     browse_grid oob1 fuel grid (compute_binary_grid grid) next_edge
       cycle_index cycles
     = browse_grid oob2 fuel grid (compute_binary_grid grid) next_edge
         cycle_index cycles) /\
  to_graph oob1 fuel grid = to_graph oob2 fuel grid.
Proof.
  assert (Hbrowse : forall next_edge cycle_index cycles,
     browse_grid oob1 fuel grid (compute_binary_grid grid) next_edge
       cycle_index cycles
     = browse_grid oob2 fuel grid (compute_binary_grid grid) next_edge
         cycle_index cycles).
  { intros next_edge cycle_index cycles. unfold browse_grid.
    apply for_each_ext. intros s cell Hcell.
    apply in_cells in Hcell. cbn [compute_binary_grid shape] in Hcell.
    unfold browse_grid_cell. cbv zeta.
    destruct (not_border (shape grid) cell) eqn:Hborder;
      [| cbn [andb]; reflexivity].
    unfold not_border in Hborder.
    apply andb_prop in Hborder as [Hx%negb_true_iff%Z.eqb_neq
                                     Hy%negb_true_iff%Z.eqb_neq].
    rewrite !(load2_binary oob1), !(load2_binary oob2) by lia.
    reflexivity. }
  split; [exact Hbrowse |].
  unfold to_graph. cbv zeta.
  destruct (compute_points _ _ _) as [pts |]; cbn [bind]; [| reflexivity].
  destruct (compute_adajcency _ _ _ _) as [adj |]; cbn [bind];
    [| reflexivity].
  now rewrite Hbrowse.
Qed.

(** ** [flood] on an open contour *)




(** ** The kernels before and after [browse_grid] *)




